(** * PyPoE wiki Lua exporter: projection, merge, ordering and serialisation

    A shallow embedding of [PyPoE/cli/exporter/wiki/parsers/lua.py]:
    the table serialiser [lua_formatter], the field projection
    [GenericLuaParser._copy_from_keys], the pre-sort of
    [QuestRewardReader._write_lua] and the merge and post-processing
    loops of [QuestRewardReader.read_quest_rewards] and
    [QuestRewardReader.read_vendor_rewards]; then [lua_format_value],
    the loops of the main methods of the Bestiary, Delve, Synthesis
    and Monster parsers, and [read_quest_rewards] as a whole.

    Python's [str] is embedded as Rocq's [string], read as the UTF-8
    encoding of the text: the characters the exporter inspects (the
    double quote and the unit separator) are single bytes, and byte-wise
    lexicographic comparison of UTF-8 agrees with Python's code point
    comparison of [str]. *)

From Stdlib Require Import ZArith String Ascii DecimalString.
From stdpp Require Import base list strings sorting gmap.


(** ** Outcomes of Python code *)

(** The exceptions the modelled code can raise. *)
Inductive exn :=
| KeyError (k : string)
| IndexError
| TypeError
| AttributeError.

(** [Unmodelled] marks runs that leave the embedding: the text of a
    repository row object, or the order of floats as sort keys.  No
    theorem concludes anything from it. *)
Inductive result (A : Type) :=
| Ok (a : A)
| Raise (e : exn)
| Unmodelled.

Arguments Ok {A} a.
Arguments Raise {A} e.
Arguments Unmodelled {A}.

#[global] Instance result_ret : MRet result := @Ok.

#[global] Instance result_bind : MBind result := λ (A B : Type) (f : A → result B) (m : result A),
  match m with
  | Ok a => f a
  | Raise e => Raise e
  | Unmodelled => Unmodelled
  end.

(** ** Python values *)

(** Scalars that flow through the exporter.  A float is carried by the
    text [str()] gives for it, the only thing the exporter does with
    one; [ARef] is a reference to a repository row, opaque here and
    opened only by the transforms of a field spec. *)
Inductive atom :=
| ANone
| ABool (b : bool)
| AInt (n : Z)
| AFloat (repr : string)
| AStr (s : string)
| ARef (table : string) (rowid : nat).

Inductive seq_kind := KTuple | KSet | KList.

(** A value is a scalar or a sequence of scalars; for a set the list is
    its iteration order. *)
Inductive value :=
| VAtom (a : atom)
| VSeq (k : seq_kind) (xs : list atom).

Coercion VAtom : atom >-> value.

#[global] Instance atom_eq_dec : EqDecision atom.
Proof. solve_decision. Defined.

#[global] Instance seq_kind_eq_dec : EqDecision seq_kind.
Proof. solve_decision. Defined.

#[global] Instance value_eq_dec : EqDecision value.
Proof. solve_decision. Defined.

(** [isinstance(v, int)]: [bool] is a subclass of [int]. *)
Definition isinstance_int (v : atom) : bool :=
  match v with
  | ABool _ | AInt _ => true
  | _ => false
  end.

(** [isinstance(v, (int, float))] *)
Definition isinstance_int_float (v : atom) : bool :=
  match v with
  | ABool _ | AInt _ | AFloat _ => true
  | _ => false
  end.

(** [str(n)] for an [int]. *)
Definition str_of_int (n : Z) : string := NilZero.string_of_int (Z.to_int n).

(** [str(v)], what [%s] formats. *)
Definition str (v : atom) : result string :=
  match v with
  | ANone => Ok "None"
  | ABool true => Ok "True"
  | ABool false => Ok "False"
  | AInt n => Ok (str_of_int n)
  | AFloat repr => Ok repr
  | AStr s => Ok s
  | ARef _ _ => Unmodelled
  end.

(** ** Strings *)

Definition tab : string := String "009"%char "".
Definition nl : string := String "010"%char "".
Definition dquote : ascii := "034"%char.
Definition backslash : ascii := "092"%char.
Definition _UNIT_SEP : ascii := "031"%char.

(** [s.replace(old, new)] for a one-character [old]. *)
Fixpoint replace (old : ascii) (new : string) (s : string) : string :=
  match s with
  | EmptyString => EmptyString
  | String c s' =>
      if decide (c = old) then new +:+ replace old new s'
      else String c (replace old new s')
  end.

(** [sep.join(parts)] *)
Definition join (sep : string) (parts : list string) : string :=
  String.concat sep parts.

(** [s.split(sep)] for a one-character [sep]: never the empty list. *)
Fixpoint split (sep : ascii) (s : string) : list string :=
  match s with
  | EmptyString => [EmptyString]
  | String c s' =>
      if decide (c = sep) then EmptyString :: split sep s'
      else match split sep s' with
           | p :: ps => String c p :: ps
           | [] => [String c EmptyString]
           end
  end.

(** ** OrderedDict *)

(** An [OrderedDict] (and a [dict], which keeps insertion order too) is
    an association list in insertion order. *)
Abbreviation odict V := (list (string * V)).

(** An output record, and a repository row read through [row[k]]. *)
Abbreviation record := (odict value).

(** [k in d] *)
Definition contains {V} (d : odict V) (k : string) : bool :=
  bool_decide (k ∈ d.*1).

(** [d.get(k)] *)
Fixpoint get {V} (d : odict V) (k : string) : option V :=
  match d with
  | [] => None
  | (k', v) :: d' => if decide (k' = k) then Some v else get d' k
  end.

(** [d[k]] *)
Definition getitem {V} (d : odict V) (k : string) : result V :=
  match get d k with
  | Some v => Ok v
  | None => Raise (KeyError k)
  end.

(** [d[k] = v]: an existing key keeps its place, a new one goes last. *)
Fixpoint setitem {V} (d : odict V) (k : string) (v : V) : odict V :=
  match d with
  | [] => [(k, v)]
  | (k', v') :: d' =>
      if decide (k' = k) then (k, v) :: d' else (k', v') :: setitem d' k v
  end.

(** [del d[k]] for a key that is present. *)
Definition delitem {V} (d : odict V) (k : string) : odict V :=
  filter (λ kv, kv.1 ≠ k) d.

(** [d.update(other)] *)
Definition update {V} (d other : odict V) : odict V :=
  foldl (λ acc kv, setitem acc kv.1 kv.2) d other.

(** ** The serialiser *)

(** One element of a sequence:
    [k = '%s' if isinstance(v, int) else '"%s"'], then [k % v]. *)
Definition format_element (v : atom) : result string :=
  s ← str v;
  Ok (if isinstance_int v then s else String dquote (s +:+ String dquote "")).

(** The inner loop [for v in value: values.append(k % v)]. *)
Fixpoint format_elements (xs : list atom) (values : list string)
  : result (list string) :=
  match xs with
  | [] => Ok values
  | v :: rest =>
      s ← format_element v;
      format_elements rest (values ++ [s])
  end.

(** The body of [for key, value in data.items()]: one more line on [out]. *)
Definition format_item (key : string) (v : value) (out : list string)
  : result (list string) :=
  match v with
  | VAtom a =>
      if isinstance_int_float a then
        s ← str a;
        Ok (out ++ [tab +:+ tab +:+ key +:+ "=" +:+ s +:+ "," +:+ nl])
      else
        match a with
        | AStr s =>
            Ok (out ++ [tab +:+ tab +:+ key +:+ "=" +:+ String dquote
                          (replace dquote (String backslash (String dquote "")) s
                             +:+ String dquote ("," +:+ nl))])
        | ARef _ _ => Unmodelled
        | _ => Raise AttributeError
        end
  | VSeq _ xs =>
      values ← format_elements xs [];
      Ok (out ++ [tab +:+ tab +:+ key +:+ "={" +:+ join ", " values +:+ "}," +:+ nl])
  end.

Fixpoint format_items (items : record) (out : list string)
  : result (list string) :=
  match items with
  | [] => Ok out
  | (key, v) :: rest =>
      out' ← format_item key v out;
      format_items rest out'
  end.

(** The body of [for data in outdata]. *)
Definition format_record (data : record) (out : list string)
  : result (list string) :=
  out' ← format_items data (out ++ [tab +:+ "{" +:+ nl]);
  Ok (out' ++ [tab +:+ "}," +:+ nl]).

Fixpoint format_records (outdata : list record) (out : list string)
  : result (list string) :=
  match outdata with
  | [] => Ok out
  | data :: rest =>
      out' ← format_record data out;
      format_records rest out'
  end.

Definition lua_formatter (outdata : list record) : result string :=
  out ← format_records outdata ["local data = {" +:+ nl];
  Ok (join "" (out ++ [nl +:+ "}"; nl; "return data"])).

(** ** GenericLuaParser *)

(** The target descriptor of a field spec: the dict with ['key'] and an
    optional ['value'] transform.  A transform is Python code and may
    raise. *)
Record copy_data := {
  cd_key : string;
  cd_value : option (value → result value);
}.

(** A field spec [(k, copy_data)]. *)
Definition field_spec : Type := string * copy_data.

(** [value is not None and value != ""] *)
Definition is_copied (v : value) : bool :=
  negb (bool_decide (v = VAtom ANone)) && negb (bool_decide (v = VAtom (AStr ""))).

(** [if 'value' in copy_data: value = copy_data['value'](value)] *)
Definition transformed (cd : copy_data) (v : value) : result value :=
  match cd_value cd with
  | Some f => f v
  | None => Ok v
  end.

(** The loop [for k, copy_data in keys] filling [copyrow]. *)
Fixpoint copy_fields (row : record) (keys : list field_spec) (copyrow : record)
  : result record :=
  match keys with
  | [] => Ok copyrow
  | (k, cd) :: rest =>
      v ← getitem row k;
      if is_copied v then
        v' ← transformed cd v;
        copy_fields row rest (setitem copyrow (cd_key cd) v')
      else copy_fields row rest copyrow
  end.

(** The position [l[i]] reads, with Python's negative indices; [None]
    is [IndexError]. *)
Definition list_index {A} (l : list A) (i : Z) : option nat :=
  if decide (0 ≤ i)%Z then
    if decide (i < Z.of_nat (length l))%Z then Some (Z.to_nat i) else None
  else
    if decide (0 ≤ Z.of_nat (length l) + i)%Z
    then Some (Z.to_nat (Z.of_nat (length l) + i))
    else None.

(** [_copy_from_keys] mutates [out_data]; the embedding returns the
    list after the call.  An exception leaves [out_data] as it was,
    every raise comes before the first write to it. *)
Definition _copy_from_keys (row : record) (keys : list field_spec)
    (out_data : list record) (index : option Z) : result (list record) :=
  copyrow ← copy_fields row keys [];
  match index with
  | Some i =>
      match list_index out_data i with
      | Some n =>
          match out_data !! n with
          | Some d => Ok (<[n := update d copyrow]> out_data)
          | None => Ok (out_data ++ [copyrow])
          end
      | None => Ok (out_data ++ [copyrow])
      end
  | None => Ok (out_data ++ [copyrow])
  end.

(** ** list.sort *)

(** Keys with a total order in Python that the embedding compares:
    [int] (and [bool]) and [str]. *)
Inductive sort_key :=
| KInt (n : Z)
| KStr (s : string).

Definition sort_key_of (v : value) : option sort_key :=
  match v with
  | VAtom (AInt n) => Some (KInt n)
  | VAtom (ABool b) => Some (KInt (if b then 1 else 0))
  | VAtom (AStr s) => Some (KStr s)
  | _ => None
  end.

(** [a < b] on keys of one kind. *)
Definition sort_key_lt (a b : sort_key) : bool :=
  match a, b with
  | KInt x, KInt y => bool_decide (x < y)%Z
  | KStr x, KStr y => String.ltb x y
  | _, _ => false
  end.

Definition same_kind (a b : sort_key) : bool :=
  match a, b with
  | KInt _, KInt _ | KStr _, KStr _ => true
  | _, _ => false
  end.

(** Insertion of [x], which came before every element of [l]: it goes
    in front of the first [y] that is not smaller than it. *)
Fixpoint insert_by {A} (lt : A → A → bool) (x : A) (l : list A) : list A :=
  match l with
  | [] => [x]
  | y :: l' => if lt y x then y :: insert_by lt x l' else x :: l
  end.

(** A stable sort.  [list.sort] is one, and on a total preorder all
    stable sorts have the same result ([stable_sort_unique] below). *)
Definition stable_sort {A} (lt : A → A → bool) (l : list A) : list A :=
  foldr (insert_by lt) [] l.

(** [None] keys cannot be ordered.  Floats and sequences can, but their
    order is outside the embedding, and so are row objects. *)
Definition raises_on_compare (v : value) : bool :=
  bool_decide (v = VAtom ANone).

(** [l.sort(key=key)]: the keys are computed first, then the list is
    sorted on them.  With two or more elements every key takes part in
    a comparison, so keys of mixed kinds raise [TypeError]. *)
Definition list_sort {A} (key : A → result value) (l : list A) : result (list A) :=
  vals ← mapM key l;
  match mapM sort_key_of vals with
  | Some ks =>
      match ks with
      | [] => Ok l
      | k0 :: _ =>
          if forallb (same_kind k0) ks
          then Ok ((stable_sort (λ a b, sort_key_lt a.1 b.1) (zip ks l)).*2)
          else Raise TypeError
      end
  | None =>
      if bool_decide (length l ≤ 1) then Ok l
      else if forallb (λ v, bool_decide (is_Some (sort_key_of v)) || raises_on_compare v) vals
           then Raise TypeError
           else Unmodelled
  end.

(** ** QuestRewardReader *)

(** The part of [ExporterResult.add_result] that [_write_lua] fills. *)
Record ExporterResult := {
  text : string;
  out_file : string;
  wiki_page : string;
}.

(** The three pre-sorts of [_write_lua]. *)
Definition pre_sort (outdata : list record) : result (list record) :=
  outdata ← list_sort (λ x, getitem x "reward") outdata;
  outdata ← list_sort (λ x, getitem x "quest_id") outdata;
  list_sort (λ x, getitem x "act") outdata.

Definition _write_lua (outdata : list record) (data_type : string)
  : result ExporterResult :=
  outdata ← pre_sort outdata;
  text ← lua_formatter outdata;
  Ok {| text := text;
        out_file := data_type +:+ "_rewards.txt";
        wiki_page := "Module:Quest reward/data/" +:+ data_type |}.

(** *** Repository rows

    The rows the reward exporters read, with the fields they read.
    References are resolved by the repository: a row holds the rows it
    links to. *)

Record Quest := {
  quest_Id : string;
  quest_Name : string;
  quest_Act : Z;
}.

Record BaseItemType := {
  item_Id : string;
  item_Name : string;
}.

Record NPC := { npc_Name : string }.

Record Character := { character_Name : string }.

Record QuestStatesRow := {
  QuestStates : list Z;
  QuestKey : Quest;
}.

Record QuestVendorRewardsRow := {
  rowid : nat;
  QuestState : Z;
  NPCKey : NPC;
  BaseItemTypesKeys : list BaseItemType;
  CharactersKeys : list Character;
}.

(** [self.rr], the tables [read_vendor_rewards] iterates. *)
Record RelationalReader := {
  QuestVendorRewards_dat : list QuestVendorRewardsRow;
  QuestStates_dat : list QuestStatesRow;
  Quest_dat : list Quest;
  Characters_dat : list Character;
}.

(** What [warnings.warn] is called with. *)
Inductive warning :=
| NoQuestAssociated (row : nat) (state : Z) (npc : string) (items : list string)
| NoItemsFound (row : nat).

(** [a + b] on [str]. *)
Definition str_add (a b : value) : result value :=
  match a, b with
  | VAtom (AStr x), VAtom (AStr y) => Ok (VAtom (AStr (x +:+ y)))
  | VAtom (ARef _ _), _ | _, VAtom (ARef _ _) => Unmodelled
  | VSeq _ _, _ | _, VSeq _ _ => Unmodelled
  | _, _ => Raise TypeError
  end.

(** A loop whose body may raise. *)
Fixpoint for_each {A S} (body : A → S → result S) (l : list A) (s : S) : result S :=
  match l with
  | [] => Ok s
  | x :: rest => s' ← body x s; for_each body rest s'
  end.

(** [self.rr['Quest.dat'].index['Id'][id]] *)
Definition Quest_by_Id (rr : RelationalReader) (id : string) : result Quest :=
  match find (λ q, bool_decide (quest_Id q = id)) (Quest_dat rr) with
  | Some q => Ok q
  | None => Raise (KeyError id)
  end.

(** The quests of a vendor row: those of the quest states holding its
    state, or the hardcoded quest for state 385. *)
Definition vendor_quests (rr : RelationalReader) (row : QuestVendorRewardsRow)
  : result (list Quest) :=
  let quests :=
    QuestKey <$> filter (λ qs, QuestState row ∈ QuestStates qs) (QuestStates_dat rr) in
  if bool_decide (quests = []) && bool_decide (QuestState row = 385%Z) then
    q ← Quest_by_Id rr "a6q4";
    Ok (quests ++ [q])
  else Ok quests.

(** The record built for one quest and one item of a vendor row. *)
Definition vendor_data (row : QuestVendorRewardsRow) (quest : Quest)
    (item : BaseItemType) : record :=
  let data : record := [] in
  let data := setitem data "quest" (VAtom (AStr (quest_Name quest))) in
  let data := setitem data "quest_id" (VAtom (AStr (quest_Id quest))) in
  let data := setitem data "act" (VAtom (AInt (quest_Act quest))) in
  let data := setitem data "reward" (VAtom (AStr (item_Name item))) in
  let data := setitem data "npc" (VAtom (AStr (npc_Name (NPCKey row)))) in
  if bool_decide (CharactersKeys row ≠ []) then
    setitem data "classes"
      (VAtom (AStr (join (String _UNIT_SEP "") (character_Name <$> CharactersKeys row))))
  else data.

(** The merge of [read_vendor_rewards]:
    [compress[key]['classes'] += self._UNIT_SEP + data['classes']]
    under its two tests. *)
Definition vendor_merge (compress : odict record) (key : string) (data : record)
  : result (odict record) :=
  if contains compress key then
    if contains data "classes" then
      rep ← getitem compress key;
      old ← getitem rep "classes";
      new ← getitem data "classes";
      rhs ← str_add (VAtom (AStr (String _UNIT_SEP ""))) new;
      v ← str_add old rhs;
      Ok (setitem compress key (setitem rep "classes" v))
    else Ok compress
  else Ok (setitem compress key data).

(** The merge of [read_quest_rewards]:
    [compress[key]['classes'] += self._UNIT_SEP + character['Name']],
    where [character] is [row['CharactersKey']] and [data] has
    ['classes'] exactly when it is not [None]. *)
Definition quest_merge (compress : odict record) (key : string) (data : record)
    (character : option Character) : result (odict record) :=
  if contains compress key then
    rep ← getitem compress key;
    old ← getitem rep "classes";
    name ← match character with
           | Some c => Ok (character_Name c)
           | None => Raise TypeError
           end;
    v ← str_add old (VAtom (AStr (String _UNIT_SEP name)));
    Ok (setitem compress key (setitem rep "classes" v))
  else Ok (setitem compress key data).

(** The body of [for row in self.rr['QuestVendorRewards.dat']]: the
    warnings it gives and the merge groups after it. *)
Definition vendor_row (rr : RelationalReader) (row : QuestVendorRewardsRow)
    (compress : odict record) : list warning * result (odict record) :=
  match vendor_quests rr row with
  | Ok quests =>
      if bool_decide (quests = []) then
        ([NoQuestAssociated (rowid row) (QuestState row) (npc_Name (NPCKey row))
            (item_Name <$> BaseItemTypesKeys row)],
         Ok compress)
      else
        let items := BaseItemTypesKeys row in
        if bool_decide (items = []) then ([NoItemsFound (rowid row)], Ok compress)
        else
          ([], for_each (λ quest,
                 for_each (λ item compress,
                   vendor_merge compress (quest_Id quest +:+ item_Id item)
                     (vendor_data row quest item)) items) quests compress)
  | Raise e => ([], Raise e)
  | Unmodelled => ([], Unmodelled)
  end.

(** The loop over the rows; a raise ends it, the warnings given so far
    stay given. *)
Fixpoint vendor_rows (rr : RelationalReader) (rows : list QuestVendorRewardsRow)
    (compress : odict record) : list warning * result (odict record) :=
  match rows with
  | [] => ([], Ok compress)
  | row :: rest =>
      match vendor_row rr row compress with
      | (ws, Ok compress') =>
          let '(ws', r) := vendor_rows rr rest compress' in (ws ++ ws', r)
      | (ws, r) => (ws, r)
      end
  end.

(** [sorted(xs)] on strings. *)
Definition sorted (xs : list string) : list string := stable_sort String.ltb xs.

(** The body of the post-processing loop [for k, v in compress.items()]. *)
Definition prune_classes (classes_set : gset string) (v : record) : result record :=
  if negb (contains v "classes") then Ok v
  else
    c ← getitem v "classes";
    match c with
    | VAtom (AStr s) =>
        let classes : gset string := list_to_set (split _UNIT_SEP s) in
        if bool_decide (size (classes_set ∖ classes) = 0)
        then Ok (delitem v "classes")
        else Ok (setitem v "classes"
                   (VAtom (AStr (join (String _UNIT_SEP "") (sorted (elements classes))))))
    | VAtom (ARef _ _) => Unmodelled
    | _ => Raise AttributeError
    end.

Definition read_vendor_rewards (rr : RelationalReader)
  : list warning * result ExporterResult :=
  let '(ws, r) := vendor_rows rr (QuestVendorRewards_dat rr) [] in
  (ws,
   compress ← r;
   let classes_set : gset string := list_to_set (character_Name <$> Characters_dat rr) in
   compress ← mapM (λ kv : string * record,
                       v ← prune_classes classes_set kv.2; Ok (kv.1, v)) compress;
   _write_lua compress.*2 "vendor").

(** ** Conditions under which the modelled code returns *)

(** [r] is a return, not a raise. *)
Definition returns {A} (r : result A) : Prop := ∃ a, r = Ok a.

(** The row has the source field of [spec], and the transform of [spec]
    returns on the value when the value is copied. *)
Definition readable (row : record) (spec : field_spec) : Prop :=
  ∃ v, get row spec.1 = Some v ∧ (is_copied v = true → returns (transformed spec.2 v)).

(** No other spec of [keys] writes the output key of the spec at [i]. *)
Definition sole_writer (keys : list field_spec) (i : nat) : Prop :=
  ∀ j si sj, keys !! i = Some si → keys !! j = Some sj → j ≠ i →
    cd_key sj.2 ≠ cd_key si.2.

(** ** The table text as the specification words it

    The values the serialiser claim names, and the text it promises
    for them, written from the specification and compared with
    [lua_formatter] below. *)

(** An integer, a float, a string, or a sequence of integers. *)
Inductive plain :=
| PInt (n : Z)
| PFloat (repr : string)
| PStr (s : string)
| PInts (k : seq_kind) (ns : list Z).

Definition plain_value (p : plain) : value :=
  match p with
  | PInt n => VAtom (AInt n)
  | PFloat repr => VAtom (AFloat repr)
  | PStr s => VAtom (AStr s)
  | PInts k ns => VSeq k (AInt <$> ns)
  end.

Definition plain_record (data : odict plain) : record :=
  prod_map id plain_value <$> data.

(** A double quote gets a backslash in front, any other character is
    left as it is. *)
Definition escape_char (c : ascii) : list ascii :=
  if decide (c = dquote) then [backslash; dquote] else [c].

Definition escaped (s : string) : string :=
  string_of_list_ascii (list_ascii_of_string s ≫= escape_char).

(** The text after [key=]. *)
Definition plain_literal (p : plain) : string :=
  match p with
  | PInt n => str_of_int n
  | PFloat repr => repr
  | PStr s => String dquote (escaped s +:+ String dquote "")
  | PInts _ ns => "{" +:+ join ", " (str_of_int <$> ns) +:+ "}"
  end.

Definition plain_entry (kv : string * plain) : string :=
  tab +:+ tab +:+ kv.1 +:+ "=" +:+ plain_literal kv.2 +:+ "," +:+ nl.

Definition plain_block (data : odict plain) : string :=
  tab +:+ "{" +:+ nl +:+ join "" (plain_entry <$> data) +:+ tab +:+ "}," +:+ nl.

Definition plain_table (outdata : list (odict plain)) : string :=
  "local data = {" +:+ nl +:+ join "" (plain_block <$> outdata)
    +:+ nl +:+ "}" +:+ nl +:+ "return data".

(** ** Orders *)

(** [x] is not after [y] under the comparison [lt]: what a sort leaves
    between an element and every later one. *)
Definition le_of {A} (lt : A → A → bool) (x y : A) : Prop := lt y x = false.

(** [lt] cannot tell [x] and [y] apart. *)
Definition tied {A} (lt : A → A → bool) (x y : A) : Prop :=
  lt x y = false ∧ lt y x = false.

#[global] Instance tied_dec {A} (lt : A → A → bool) x y : Decision (tied lt x y).
Proof. unfold tied. apply _. Defined.

(** Compare by [major], and by [minor] where [major] cannot tell apart. *)
Definition lex_lt {A} (major minor : A → A → bool) (x y : A) : bool :=
  major x y || (negb (major y x) && minor x y).

(** The fields the pre-sort of [_write_lua] reads. *)
Definition int_field (k : string) (r : record) : Z :=
  match get r k with
  | Some (VAtom (AInt n)) => n
  | _ => 0
  end.

Definition str_field (k : string) (r : record) : string :=
  match get r k with
  | Some (VAtom (AStr s)) => s
  | _ => ""
  end.

Definition sort_triple (r : record) : Z * string * string :=
  (int_field "act" r, str_field "quest_id" r, str_field "reward" r).

(** A record as both reward exporters build it: an integer act, a text
    quest id and a text reward. *)
Definition reward_record (r : record) : Prop :=
  (∃ n, get r "act" = Some (VAtom (AInt n)))
  ∧ (∃ s, get r "quest_id" = Some (VAtom (AStr s)))
  ∧ (∃ s, get r "reward" = Some (VAtom (AStr s))).

(** Lexicographic order on (act, quest_id, reward). *)
Definition triple_le (a b : Z * string * string) : Prop :=
  (a.1.1 < b.1.1)%Z
  ∨ (a.1.1 = b.1.1
     ∧ (String.ltb a.1.2 b.1.2 = true
        ∨ (a.1.2 = b.1.2 ∧ String.leb a.2 b.2 = true))).

(** The three comparisons, on the records. *)
Abbreviation by_act :=
  (λ a b : record, bool_decide (int_field "act" a < int_field "act" b)%Z).
Abbreviation by_quest_id :=
  (λ a b : record, String.ltb (str_field "quest_id" a) (str_field "quest_id" b)).
Abbreviation by_reward :=
  (λ a b : record, String.ltb (str_field "reward" a) (str_field "reward" b)).

(** [sep] does not occur in [s]. *)
Definition sep_free (sep : ascii) (s : string) : Prop :=
  sep ∉ list_ascii_of_string s.

(** ** Rows the vendor export leaves out *)

(** No quest state holds the state of the row, and the state is not the
    hardcoded 385. *)
Definition no_quest (rr : RelationalReader) (row : QuestVendorRewardsRow) : Prop :=
  filter (λ qs, QuestState row ∈ QuestStates qs) (QuestStates_dat rr) = []
  ∧ QuestState row ≠ 385%Z.

(** The identity key of the row cannot be built. *)
Definition left_out (rr : RelationalReader) (row : QuestVendorRewardsRow) : Prop :=
  no_quest rr row ∨ BaseItemTypesKeys row = [].

#[global] Instance no_quest_dec rr row : Decision (no_quest rr row).
Proof. unfold no_quest. apply _. Defined.

#[global] Instance left_out_dec rr row : Decision (left_out rr row).
Proof. unfold left_out. apply _. Defined.

(** The warning that reports a row left out. *)
Definition warning_of (rr : RelationalReader) (row : QuestVendorRewardsRow) : warning :=
  if decide (no_quest rr row)
  then NoQuestAssociated (rowid row) (QuestState row) (npc_Name (NPCKey row))
         (item_Name <$> BaseItemTypesKeys row)
  else NoItemsFound (rowid row).

(** The repository with other vendor reward rows. *)
Definition with_vendor_rows (rr : RelationalReader)
    (rows : list QuestVendorRewardsRow) : RelationalReader :=
  {| QuestVendorRewards_dat := rows;
     QuestStates_dat := QuestStates_dat rr;
     Quest_dat := Quest_dat rr;
     Characters_dat := Characters_dat rr |}.

(** The ['classes'] of a record, when it has one, joins names among
    [known] with the unit separator. *)
Definition classes_joined (known : list string) (data : record) : Prop :=
  ∀ val, get data "classes" = Some val →
    ∃ names, names ≠ [] ∧ (∀ n, n ∈ names → n ∈ known)
             ∧ val = VAtom (AStr (join (String _UNIT_SEP "") names)).

(** Every character a vendor row links to is a row of [Characters.dat]. *)
Definition characters_resolved (rr : RelationalReader) : Prop :=
  ∀ row c, row ∈ QuestVendorRewards_dat rr → c ∈ CharactersKeys row →
    c ∈ Characters_dat rr.

(** ** A transform of the source, and sample data *)

(** The transform of ['TagsKeys'] in [MonsterParser._DATA],
    [lambda v: ', '.join([r['Id'] for r in v])]; [Id] resolves
    [r['Id']] in the repository. *)
Definition tags_value (Id : atom → result string) (v : value) : result value :=
  match v with
  | VSeq _ xs => ids ← mapM Id xs; Ok (VAtom (AStr (join ", " ids)))
  | VAtom (AStr "") => Ok (VAtom (AStr ""))
  | VAtom (ARef _ _) => Unmodelled
  | VAtom _ => Raise TypeError
  end.

Definition sample_Id (r : atom) : result string :=
  match r with
  | ARef table n => Ok (table +:+ "_" +:+ str_of_int (Z.of_nat n))
  | _ => Raise TypeError
  end.

(** A row of [MonsterTypes.dat] without tags, and specs as in
    [MonsterParser._DATA]. *)
Definition sample_row : record :=
  [("Id", VAtom (AStr "Wolf")); ("HintText", VAtom ANone);
   ("TagsKeys", VSeq KList []); ("ModsKeys", VSeq KList [])].

Definition sample_keys : list field_spec :=
  [("Id", {| cd_key := "id"; cd_value := None |});
   ("HintText", {| cd_key := "header"; cd_value := None |});
   ("TagsKeys", {| cd_key := "tags"; cd_value := Some (tags_value sample_Id) |});
   ("ModsKeys", {| cd_key := "mod_ids"; cd_value := None |})].

(** Two specs with one output key. *)
Definition clashing_keys : list field_spec :=
  [("HintText", {| cd_key := "name"; cd_value := None |});
   ("Id", {| cd_key := "name"; cd_value := None |})].

Definition sample_reward (act : Z) (quest_id reward : string) : record :=
  [("act", VAtom (AInt act)); ("quest_id", VAtom (AStr quest_id));
   ("reward", VAtom (AStr reward))].

Definition sample_rewards : list record :=
  [sample_reward 2 "q1" "x"; sample_reward 1 "q2" "y"; sample_reward 1 "q1" "z"].

Definition sample_quest : Quest :=
  {| quest_Id := "a1q1"; quest_Name := "Enemy at the Gate"; quest_Act := 1 |}.

Definition fallen_from_grace : Quest :=
  {| quest_Id := "a6q4"; quest_Name := "Fallen from Grace"; quest_Act := 6 |}.

Definition sample_item : BaseItemType :=
  {| item_Id := "Ring12"; item_Name := "Two-Stone Ring" |}.

Definition sample_vendor_row (n : nat) (state : Z) (items : list BaseItemType)
    (classes : list string) : QuestVendorRewardsRow :=
  {| rowid := n; QuestState := state; NPCKey := {| npc_Name := "Nessa" |};
     BaseItemTypesKeys := items;
     CharactersKeys := (λ name, {| character_Name := name |}) <$> classes |}.

(** Rows 1 and 2 cannot be keyed: no quest has state 9, row 2 has no
    item. *)
Definition sample_rr : RelationalReader :=
  {| QuestVendorRewards_dat :=
       [sample_vendor_row 0 7 [sample_item] ["B"];
        sample_vendor_row 1 9 [sample_item] ["A"];
        sample_vendor_row 2 7 [] ["A"];
        sample_vendor_row 3 7 [sample_item] ["A"]];
     QuestStates_dat := [{| QuestStates := [7%Z]; QuestKey := sample_quest |}];
     Quest_dat := [sample_quest; fallen_from_grace];
     Characters_dat :=
       (λ name, {| character_Name := name |}) <$> ["A"; "B"; "C"] |}.

(** A merge group whose representative has classes, and a later record
    without. *)
Definition sample_compress : odict record :=
  [("a1q1Ring120",
    [("quest", VAtom (AStr "Enemy at the Gate")); ("classes", VAtom (AStr "Marauder"))])].

Definition sample_classless : record :=
  [("quest", VAtom (AStr "Enemy at the Gate"))].

(** A repository without the hardcoded quest of state 385: row 0 has
    that state, no quest state holds it, and it has no item. *)
Definition sample_rr_without_a6q4 : RelationalReader :=
  {| QuestVendorRewards_dat :=
       [sample_vendor_row 0 385 [] ["A"];
        sample_vendor_row 1 7 [sample_item] ["A"]];
     QuestStates_dat := [{| QuestStates := [7%Z]; QuestKey := sample_quest |}];
     Quest_dat := [sample_quest];
     Characters_dat :=
       (λ name, {| character_Name := name |}) <$> ["A"; "B"; "C"] |}.

(** ** More of the module *)

(** [lua_format_value(key, value)], the one-entry formatter the module
    keeps beside [lua_formatter].  A sequence would be formatted by its
    [repr], which is outside the embedding. *)
Definition lua_format_value (key : string) (v : value) : result string :=
  match v with
  | VAtom a =>
      s ← str a;
      Ok (if isinstance_int a
          then tab +:+ tab +:+ key +:+ "=" +:+ s +:+ "," +:+ nl
          else tab +:+ tab +:+ key +:+ "=" +:+ String dquote (s +:+ String dquote ("," +:+ nl)))
  | VSeq _ _ => Unmodelled
  end.

(** No row object in the value, at the top or as an element. *)
Definition ref_free (v : value) : Prop :=
  match v with
  | VAtom (ARef _ _) => False
  | VAtom _ => True
  | VSeq _ xs => Forall (λ a, ∀ table n, a ≠ ARef table n) xs
  end.

(** The fixed first and last parts of the text of [lua_formatter]. *)
Definition table_open : string := "local data = {" +:+ nl.
Definition table_close : string := nl +:+ "}" +:+ nl +:+ "return data".

(** The spec copies the value of the row: the field is there and is
    neither [None] nor the empty string. *)
Definition field_copied (row : record) (spec : field_spec) : bool :=
  match get row spec.1 with
  | Some v => is_copied v
  | None => false
  end.

(** [for row in self.rr[file]: self._copy_from_keys(row, keys, out_data)],
    the loop of the [main] functions. *)
Definition copy_rows (keys : list field_spec) (rows : list record)
    (out_data : list record) : result (list record) :=
  for_each (λ row out_data, _copy_from_keys row keys out_data None) rows out_data.

(** [enumerate(rows)] *)
Definition enumerate {A} (rows : list A) : list (nat * A) :=
  zip (seq 0 (length rows)) rows.

(** [for i, row in enumerate(self.rr[file_name]):
       self._copy_from_keys(row, definition, map_multi, i)] *)
Definition copy_rows_enumerated (keys : list field_spec) (rows : list record)
    (map_multi : list record) : result (list record) :=
  for_each (λ ir map_multi,
              _copy_from_keys ir.2 keys map_multi (Some (Z.of_nat ir.1)))
    (enumerate rows) map_multi.

(** The loop of [MonsterParser.main] over the files of one entry of
    [_ENUM_DATA], from [map_multi = []]; a file is given by its field
    specs and its rows. *)
Definition enum_tables (data_map : list (list field_spec * list record))
  : result (list record) :=
  for_each (λ file map_multi, copy_rows_enumerated file.1 file.2 map_multi)
    data_map [].

(** Records merged position by position, the longer list going on
    alone. *)
Fixpoint lockstep (out_data recs : list record) : list record :=
  match out_data, recs with
  | d :: out_data', c :: recs' => update d c :: lockstep out_data' recs'
  | [], _ => recs
  | _, [] => out_data
  end.

(** The comparison the three pre-sorts amount to: by act, then quest
    id, then reward. *)
Abbreviation by_triple := (lex_lt by_act (lex_lt by_quest_id by_reward)).

(** A text or an integer, the values of a vendor reward record. *)
Definition text_or_int (v : value) : Prop :=
  match v with
  | VAtom (AStr _) | VAtom (AInt _) => True
  | _ => False
  end.

(** A record [_write_lua] sorts and serialises without raising. *)
Definition exportable (r : record) : Prop :=
  reward_record r ∧ Forall (λ kv, text_or_int kv.2) r.

(** A merge group that later classes can be added to. *)
Definition group_with_classes (r : record) : Prop :=
  exportable r ∧ ∃ s, get r "classes" = Some (VAtom (AStr s)).

(** ** SynthesisParser *)

(** The transform [lambda v: v['Id']] of the field specs; [Id]
    resolves the ['Id'] of a row object in the repository.  On a list
    the subscript raises [TypeError]. *)
Definition value_Id (Id : atom → result string) (v : value) : result value :=
  match v with
  | VAtom a => s ← Id a; Ok (VAtom (AStr s))
  | VSeq _ _ => Raise TypeError
  end.

(** The transform [lambda v: [m['Id'] for m in v]]. *)
Definition value_Ids (Id : atom → result string) (v : value) : result value :=
  match v with
  | VSeq _ xs => ids ← mapM Id xs; Ok (VSeq KList (AStr <$> ids))
  | VAtom (ARef _ _) => Unmodelled
  | VAtom (AStr "") => Ok (VSeq KList [])
  | VAtom _ => Raise TypeError
  end.

(** The field specs of ['synthesis_mods'] in [SynthesisParser._DATA]. *)
Definition synthesis_mods_keys (Id : atom → result string) : list field_spec :=
  [("StatsKey", {| cd_key := "stat_id"; cd_value := Some (value_Id Id) |});
   ("StatValue", {| cd_key := "stat_value"; cd_value := None |});
   ("ItemClassesKeys", {| cd_key := "item_class_ids"; cd_value := Some (value_Ids Id) |});
   ("ModsKeys", {| cd_key := "mod_ids"; cd_value := Some (value_Ids Id) |})].

(** The second loop of [SynthesisParser.main],
    [row['stat_text'] = '<br>'.join(get_translation(tags=(row['stat_id'],),
    values=(row['stat_value'],), lang=self.lang)).replace('\n', '')];
    [get_translation] is the translation of the stat descriptions. *)
Definition add_stat_text (get_translation : value → value → result (list string))
    (row : record) : result record :=
  stat_id ← getitem row "stat_id";
  stat_value ← getitem row "stat_value";
  lines ← get_translation stat_id stat_value;
  Ok (setitem row "stat_text"
        (VAtom (AStr (replace "010"%char "" (join "<br>" lines))))).

(** [SynthesisParser.main] for ['synthesis_mods']: the rows of
    [ItemSynthesisMods.dat] are projected, then every record gets its
    stat text. *)
Definition synthesis_mods (Id : atom → result string)
    (get_translation : value → value → result (list string))
    (rows : list record) : result (list record) :=
  out_data ← copy_rows (synthesis_mods_keys Id) rows [];
  mapM (add_stat_text get_translation) out_data.

(** ** More sample data *)

(** Specs whose second source field the sample row does not have. *)
Definition sample_keys_missing : list field_spec :=
  [("Id", {| cd_key := "id"; cd_value := None |});
   ("Level", {| cd_key := "level"; cd_value := None |})].

(** Two records to merge into. *)
Definition sample_out_data : list record :=
  [[("id", VAtom (AStr "Bear")); ("level", VAtom (AInt 4))];
   [("id", VAtom (AStr "Crab"))]].

(** A record with a [None] field. *)
Definition sample_with_None : list record :=
  [[("id", VAtom (AInt 5)); ("name", VAtom ANone)]].

(** A row of [ItemSynthesisMods.dat] without a stat. *)
Definition sample_synthesis_row : record :=
  [("StatsKey", VAtom ANone); ("StatValue", VAtom (AInt 5));
   ("ItemClassesKeys", VSeq KList []); ("ModsKeys", VSeq KList [])].

Definition sample_translation (stat_id stat_value : value) : result (list string) :=
  Ok ["+5 to maximum Life"].

(** A record with classes, arriving after [sample_classless]. *)
Definition sample_classed : record :=
  [("quest", VAtom (AStr "Enemy at the Gate")); ("classes", VAtom (AStr "Witch"))].

(** ** The main methods *)

(** A field spec without a transform: [(k, {'key': key})]. *)
Definition copy (k key : string) : field_spec :=
  (k, {| cd_key := key; cd_value := None |}).

(** A field spec with one: [(k, {'key': key, 'value': f})]. *)
Definition copy_with (k key : string) (f : value → result value) : field_spec :=
  (k, {| cd_key := key; cd_value := Some f |}).

(** [out[-1][k] = v] *)
Definition set_last (out : list record) (k : string) (v : value)
  : result (list record) :=
  match list_index out (-1) with
  | Some n =>
      match out !! n with
      | Some d => Ok (<[n := setitem d k v]> out)
      | None => Raise IndexError
      end
  | None => Raise IndexError
  end.

(** The loops [r.add_result(text=lua_formatter(table), out_file=...,
    wiki_page=[{'page': ..., 'condition': None}])] that end the main
    methods, over the tables in the order the loop takes them. *)
Definition add_results (file_of page_of : string → string)
    (tables : odict (list record)) : result (list ExporterResult) :=
  mapM (λ kv : string * list record,
          text ← lua_formatter kv.2;
          Ok {| text := text; out_file := file_of kv.1; wiki_page := page_of kv.1 |})
    tables.

(** *** MonsterParser *)

Definition _ENUM_DATA : odict (odict (list field_spec)) :=
  [("monster_map_multipliers",
    [("MonsterMapDifficulty.dat",
      [copy "MapLevel" "level";
       copy "Stat1Value" "life";
       copy "Stat2Value" "damage"]);
     ("MonsterMapBossDifficulty.dat",
      [copy "Stat1Value" "boss_life";
       copy "Stat2Value" "boss_damage";
       copy "Stat3Value" "boss_item_quantity";
       copy "Stat4Value" "boss_item_rarity"])]);
   ("monster_life_scaling",
    [("MagicMonsterLifeScalingPerLevel.dat",
      [copy "Level" "level";
       copy "Life" "magic"]);
     ("RareMonsterLifeScalingPerLevel.dat",
      [copy "Life" "rare"])])].

(** The second loop of [MonsterParser.main], over [_ENUM_DATA]; [rr]
    gives the rows of a file. *)
Definition enumerated (rr : string → list record) (data : odict (list record))
  : result (odict (list record)) :=
  for_each (λ (entry : string * odict (list field_spec)) data,
              map_multi ← enum_tables ((λ file : string * list field_spec,
                                          (file.2, rr file.1)) <$> entry.2);
              Ok (setitem data entry.1 map_multi))
    _ENUM_DATA data.

(** *** BestiaryParser *)

Definition _COPY_KEYS_BESTIARY : list field_spec :=
  [copy "Id" "id";
   copy "HintText" "header";
   copy "Description" "subheader";
   copy "Notes" "notes"].

(** [Id] and [Name] open a row object: [x['Id']] and [x['Name']]. *)
Definition _COPY_KEYS_BESTIARY_COMPONENTS (Id Name : atom → result string)
  : list field_spec :=
  [copy "Id" "id";
   copy "MinLevel" "min_level";
   copy_with "BestiaryFamiliesKey" "family" (value_Id Name);
   copy_with "BestiaryGroupsKey" "beast_group" (value_Id Name);
   copy_with "BestiaryGenusKey" "genus" (value_Id Name);
   copy_with "ModsKey" "mod_id" (value_Id Id);
   copy_with "BestiaryCapturableMonstersKey" "monster" (value_Id Name)].

(** [d[k] += 1] on a [defaultdict(int)]. *)
Definition count_up (d : odict Z) (k : string) : odict Z :=
  setitem d k (default 0%Z (get d k) + 1)%Z.

(** [temp[recipe][component] += 1] on a
    [defaultdict(lambda: defaultdict(int))]. *)
Definition count_component (temp : odict (odict Z)) (recipe component : string)
  : odict (odict Z) :=
  setitem temp recipe (count_up (default [] (get temp recipe)) component).

(** [row['Id']] as the key of the counter. *)
Definition recipe_key (row : record) : result string :=
  v ← getitem row "Id";
  match v with
  | VAtom (AStr s) => Ok s
  | _ => Unmodelled
  end.

(** The inner loop
    [for value in row['BestiaryRecipeComponentKeys']:
       recipe_components_temp[row['Id']][value['Id']] += 1]. *)
Definition count_components (Id : atom → result string) (row : record)
    (temp : odict (odict Z)) : result (odict (odict Z)) :=
  components ← getitem row "BestiaryRecipeComponentKeys";
  match components with
  | VSeq _ xs =>
      for_each (λ value temp,
                  recipe ← recipe_key row;
                  component ← Id value;
                  Ok (count_component temp recipe component))
        xs temp
  | VAtom (AStr "") => Ok temp
  | VAtom (ARef _ _) => Unmodelled
  | VAtom (AStr _) => _ ← recipe_key row; Raise TypeError
  | VAtom _ => Raise TypeError
  end.

(** The body of [for row in self.rr['BestiaryRecipes.dat']]. *)
Definition recipe_row (Id : atom → result string) (row : record)
    (st : list record * odict (odict Z)) : result (list record * odict (odict Z)) :=
  recipes ← _copy_from_keys row _COPY_KEYS_BESTIARY st.1 None;
  temp ← count_components Id row st.2;
  Ok (recipes, temp).

(** [row['RarityKey']] as the exporters look at it: whether it is
    [RARITY.ANY], and else its [name_upper]. *)
Inductive RARITY :=
| ANY
| Rarity (name_upper : string).

(** A row of [BestiaryRecipeComponent.dat]: the fields read by name, and
    the rarity. *)
Record BestiaryRecipeComponentRow := {
  component_fields : record;
  component_RarityKey : RARITY;
}.

(** [ClientStrings] is [self.rr['ClientStrings.dat'].index['Id']], with
    the ['Text'] of each row. *)
Definition rarity_text (ClientStrings : odict string) (name_upper : string)
  : result string :=
  getitem ClientStrings ("ItemDisplayString" +:+ name_upper).

(** The body of [for row in self.rr['BestiaryRecipeComponent.dat']]. *)
Definition component_row (ClientStrings : odict string) (Id Name : atom → result string)
    (row : BestiaryRecipeComponentRow) (components : list record)
  : result (list record) :=
  components ← _copy_from_keys (component_fields row)
                  (_COPY_KEYS_BESTIARY_COMPONENTS Id Name) components None;
  match component_RarityKey row with
  | ANY => Ok components
  | Rarity name_upper =>
      text ← rarity_text ClientStrings name_upper;
      set_last components "rarity" (VAtom (AStr text))
  end.

(** The third loop: one record for each recipe and component counted. *)
Definition recipe_components (temp : odict (odict Z)) : list record :=
  '(recipe_id, data) ← temp;
  '(component_id, amount) ← data;
  [[("recipe_id", VAtom (AStr recipe_id));
    ("component_id", VAtom (AStr component_id));
    ("amount", VAtom (AInt amount))]].

Definition BestiaryParser_main (ClientStrings : odict string)
    (Id Name : atom → result string)
    (BestiaryRecipes_dat : list record)
    (BestiaryRecipeComponent_dat : list BestiaryRecipeComponentRow)
  : result (list ExporterResult) :=
  '(recipes, temp) ← for_each (recipe_row Id) BestiaryRecipes_dat ([], []);
  components ← for_each (component_row ClientStrings Id Name)
                  BestiaryRecipeComponent_dat [];
  add_results (λ k, "bestiary_" +:+ k +:+ ".lua") (λ k, "Module:Bestiary/" +:+ k)
    [("recipes", recipes); ("components", components);
     ("recipe_components", recipe_components temp)].

(** *** DelveParser *)

Definition _COPY_KEYS_DELVE_LEVEL_SCALING : list field_spec :=
  [copy "Depth" "depth";
   copy "MonsterLevel" "monster_level";
   copy "SulphiteCost" "sulphite_cost";
   copy "DarknessResistance" "darkness_resistance";
   copy "LightRadius" "light_radius";
   copy "MoreMonsterLife" "monster_life";
   copy "MoreMonsterDamage" "monster_damage"].

Definition _COPY_KEYS_DELVE_RESOURCES_PER_LEVEL : list field_spec :=
  [copy "AreaLevel" "area_level";
   copy "Sulphite" "sulphite"].

(** [name_lower] is the transform [lambda x: x.name.lower()] on the
    upgrade type. *)
Definition _COPY_KEYS_DELVE_UPGRADES (name_lower : value → result value)
  : list field_spec :=
  [copy_with "DelveUpgradeTypeKey" "type" name_lower;
   copy "UpgradeLevel" "level"].

(** A row of [DelveUpgrades.dat]: the fields read by name, and the
    pairs [(stat, value)] of [row['Stats']]. *)
Record DelveUpgradesRow := {
  upgrade_fields : record;
  upgrade_Stats : list (atom * value);
}.

(** The body of [for row in self.rr['DelveUpgrades.dat']]; the state is
    [delve_upgrades] and [delve_upgrade_stats]. *)
Definition upgrade_row (Id : atom → result string) (name_lower : value → result value)
    (row : DelveUpgradesRow) (st : list record * list record)
  : result (list record * list record) :=
  delve_upgrades ← _copy_from_keys (upgrade_fields row)
                      (_COPY_KEYS_DELVE_UPGRADES name_lower) st.1 None;
  cost ← getitem (upgrade_fields row) "Cost";
  delve_upgrades ← set_last delve_upgrades "cost" cost;
  delve_upgrade_stats ←
    for_each (λ (sv : atom * value) delve_upgrade_stats,
                delve_upgrade_stats ← _copy_from_keys (upgrade_fields row)
                                         (_COPY_KEYS_DELVE_UPGRADES name_lower)
                                         delve_upgrade_stats None;
                id ← Id sv.1;
                delve_upgrade_stats ← set_last delve_upgrade_stats "id" (VAtom (AStr id));
                set_last delve_upgrade_stats "value" sv.2)
      (upgrade_Stats row) st.2;
  Ok (delve_upgrades, delve_upgrade_stats).

Definition DelveParser_main (Id : atom → result string)
    (name_lower : value → result value)
    (DelveLevelScaling_dat DelveResourcePerLevel_dat : list record)
    (DelveUpgrades_dat : list DelveUpgradesRow)
  : result (list ExporterResult) :=
  delve_level_scaling ←
    copy_rows _COPY_KEYS_DELVE_LEVEL_SCALING DelveLevelScaling_dat [];
  delve_resources_per_level ←
    copy_rows _COPY_KEYS_DELVE_RESOURCES_PER_LEVEL DelveResourcePerLevel_dat [];
  '(delve_upgrades, delve_upgrade_stats) ←
    for_each (upgrade_row Id name_lower) DelveUpgrades_dat ([], []);
  add_results (λ k, "delve_" +:+ k +:+ ".lua") (λ k, "Module:Delve/delve_" +:+ k)
    [("level_scaling", delve_level_scaling);
     ("resources_per_level", delve_resources_per_level);
     ("upgrades", delve_upgrades);
     ("upgrade_stats", delve_upgrade_stats)].

(** *** What the counter of [BestiaryParser.main] holds *)

(** A recipe row read as its Id and the Ids of its components. *)
Definition recipe_reads (Id : atom → result string) (row : record)
    (recipe : string) (components : list string) : Prop :=
  get row "Id" = Some (VAtom (AStr recipe)) ∧
  ∃ k xs, get row "BestiaryRecipeComponentKeys" = Some (VSeq k xs)
          ∧ mapM Id xs = Ok components.

(** The references from recipes to components, in the order the loops
    meet them. *)
Definition references (reads : list (string * list string)) : list (string * string) :=
  '(recipe, components) ← reads; (λ component, (recipe, component)) <$> components.

(** How often [p] is in [l]. *)
Definition occurrences (p : string * string) (l : list (string * string)) : Z :=
  Z.of_nat (length (filter (λ q, q = p) l)).

(** The count the counter holds for a reference, 0 when it has none. *)
Definition amount (temp : odict (odict Z)) (p : string * string) : Z :=
  default 0%Z (get (default [] (get temp p.1)) p.2).

(** No key twice, at either level, and no count below 1. *)
Definition counted (temp : odict (odict Z)) : Prop :=
  NoDup temp.*1 ∧
  ∀ recipe data, get temp recipe = Some data →
    NoDup data.*1 ∧ ∀ component n, get data component = Some n → (0 < n)%Z.

(** The record of [recipe_components] for a reference and its count. *)
Definition recipe_component (recipe component : string) (n : Z) : record :=
  [("recipe_id", VAtom (AStr recipe));
   ("component_id", VAtom (AStr component));
   ("amount", VAtom (AInt n))].

(** *** Values the serialiser takes *)

(** A value [lua_formatter] writes without raising: not [None], and no
    row object in it. *)
Definition serialisable (v : value) : Prop := ref_free v ∧ v ≠ VAtom ANone.

(** A row whose fields hold no row object. *)
Definition plain_row (row : record) : Prop := Forall (λ kv, ref_free kv.2) row.

(** A row of [DelveUpgrades.dat] the loop of [DelveParser.main] reads
    without raising, whose level, cost and stat values hold no row
    object, and whose stat values are not [None]. *)
Definition upgrade_readable (Id : atom → result string)
    (name_lower : value → result value) (row : DelveUpgradesRow) : Prop :=
  Forall (readable (upgrade_fields row)) (_COPY_KEYS_DELVE_UPGRADES name_lower) ∧
  (∀ v, get (upgrade_fields row) "UpgradeLevel" = Some v → ref_free v) ∧
  (∃ cost, get (upgrade_fields row) "Cost" = Some cost ∧ ref_free cost) ∧
  Forall (λ sv, returns (Id sv.1) ∧ serialisable sv.2) (upgrade_Stats row).

(** The rows have the source fields of [keys] and hold no row object. *)
Definition plain_rows (keys : list field_spec) (rows : list record) : Prop :=
  Forall (λ row, plain_row row ∧ Forall (λ spec, is_Some (get row spec.1)) keys) rows.

(** ** QuestRewardReader.read_quest_rewards *)

(** [_ITEM_MAP]: for a language, the names of the unique items by
    the [Key0] of their reward row. *)
Definition _ITEM_MAP : odict (list (Z * string)) :=
  [("English",
    [(423%Z, "Survival Instincts");
     (424%Z, "Survival Skills");
     (425%Z, "Survival Secrets");
     (454%Z, "Poacher's Aim");
     (455%Z, "Warlord's Reach ");
     (456%Z, "Assassin's Haste");
     (457%Z, "Conqueror's Efficiency");
     (458%Z, "Conqueror's Potency");
     (459%Z, "Conqueror's Longevity");
     (560%Z, "Rapid Expansion");
     (780%Z, "Wildfire");
     (777%Z, "Overwhelming Odds");
     (775%Z, "Collateral Damage");
     (779%Z, "Omen on the Winds");
     (781%Z, "Fight for Survival");
     (784%Z, "Ring of Blades");
     (778%Z, "First Snow");
     (783%Z, "Frozen Trail");
     (786%Z, "Inevitability");
     (788%Z, "Spreading Rot");
     (789%Z, "Violent Dead");
     (790%Z, "Hazardous Research")]);
   ("Russian",
    [(423%Z, "Инстинкты выживания");
     (424%Z, "Навыки выживания");
     (425%Z, "Секреты выживания");
     (454%Z, "Браконьерство");
     (455%Z, "Длинные руки ");
     (456%Z, "Бойкий убийца");
     (457%Z, "Смекалка победителя");
     (458%Z, "Могущество победителя");
     (459%Z, "Живучесть победителя");
     (560%Z, "Быстрое расширение");
     (780%Z, "Степной пожар");
     (777%Z, "Подавляющее превосходство");
     (775%Z, "Сопутствующий риск");
     (779%Z, "Знамение ветров");
     (781%Z, "Борьба за жизнь");
     (784%Z, "Кольцо клинков");
     (778%Z, "Первый снег");
     (783%Z, "Мерзлый путь");
     (786%Z, "Неизбежность");
     (788%Z, "Гангрена");
     (789%Z, "Ярость мертвецов");
     (790%Z, "Опасная наука")])].

(** [_TWO_STONE_MAP]: for a language, the names of the two-stone rings
    by item Id. *)
Definition _TWO_STONE_MAP : odict (odict string) :=
  [("English",
    [("Metadata/Items/Rings/Ring12", "Two-Stone Ring (ruby and topaz)");
     ("Metadata/Items/Rings/Ring13", "Two-Stone Ring (sapphire and topaz)");
     ("Metadata/Items/Rings/Ring14", "Two-Stone Ring (ruby and sapphire)")]);
   ("Russian",
    [("Metadata/Items/Rings/Ring12", "Кольцо с двумя камнями (рубин и топаз)");
     ("Metadata/Items/Rings/Ring13", "Кольцо с двумя камнями (сапфир и топаз)");
     ("Metadata/Items/Rings/Ring14", "Кольцо с двумя камнями (рубин и сапфир)")]);
   ("German",
    [("Metadata/Items/Rings/Ring12", "Zweisteinring (Rubin und Topas)");
     ("Metadata/Items/Rings/Ring13", "Zweisteinring (Saphir und Topas)");
     ("Metadata/Items/Rings/Ring14", "Zweisteinring (Rubin und Saphir)")])].

(** [d.get(k)] on a dict with [int] keys. *)
Fixpoint int_get (d : list (Z * string)) (k : Z) : option string :=
  match d with
  | [] => None
  | (k', v) :: d' => if decide (k' = k) then Some v else int_get d' k
  end.

(** [sub in s] on [str]. *)
Fixpoint str_in (sub s : string) : bool :=
  String.prefix sub s ||
  match s with
  | EmptyString => false
  | String _ s' => str_in sub s'
  end.

(** ['%s (%s)' % (a, b)] *)
Definition with_parenthesis (a b : string) : string := a +:+ " (" +:+ b +:+ ")".

(** The item of a reward row: [row['BaseItemTypesKey']], with
    [item['ItemClassesKey']['Id']]. *)
Record RewardItem := {
  reward_item : BaseItemType;
  ItemClassesKey_Id : string;
}.

(** A row of [QuestRewards.dat], with the fields [read_quest_rewards]
    reads. *)
Record QuestRewardsRow := {
  BaseItemTypesKey : option RewardItem;
  reward_QuestKey : Quest;
  CharactersKey : option Character;
  RarityKey : RARITY;
  SocketGems : string;
  ItemLevel : Z;
  Key0 : Z;
}.

(** What [read_quest_rewards] reads beside the rows: the index by Id
    of [ClientStrings.dat] with the text of each row, that of
    [MapSeries.dat] with the name of each row, and
    [config.get_option('language')]. *)
Record QuestRewardTables := {
  QuestRewards_dat : list QuestRewardsRow;
  ClientStrings : odict string;
  MapSeries : odict string;
  language : string;
}.

(** What [warnings.warn] is called with in [read_quest_rewards]. *)
Inductive quest_warning :=
| NoUniqueItemMapping
| UncapturedUniqueItem (uid : Z) (quest name : string)
| NoTwoStoneRingMapping.

(** [read_quest_rewards] can raise one more exception than the rest of
    the module: [UnboundLocalError], for its local [rarity]. *)
Inductive outcome (A : Type) :=
| Result (r : result A)
| UnboundLocalError (name : string).

Arguments Result {A} r.
Arguments UnboundLocalError {A} name.

(** A run of the code of [read_quest_rewards]: the warnings given, and
    how it ended. *)
Definition quest_run (A : Type) : Type := list quest_warning * outcome A.

#[global] Instance quest_run_ret : MRet quest_run := λ A a, ([], Result (Ok a)).

#[global] Instance quest_run_bind : MBind quest_run :=
  λ (A B : Type) (f : A → quest_run B) (m : quest_run A),
  match m with
  | (ws, Result (Ok a)) => let '(ws', r) := f a in (ws ++ ws', r)
  | (ws, Result (Raise e)) => (ws, Result (Raise e))
  | (ws, Result Unmodelled) => (ws, Result Unmodelled)
  | (ws, UnboundLocalError name) => (ws, UnboundLocalError name)
  end.

(** Code that gives no warning. *)
Definition lift {A} (r : result A) : quest_run A := ([], Result r).

(** [warnings.warn(w)] *)
Definition warn (w : quest_warning) : quest_run () := ([w], Result (Ok ())).

(** The read of a local variable: [None] is a variable never assigned. *)
Definition local {A} (name : string) (v : option A) : quest_run A :=
  match v with
  | Some a => mret a
  | None => ([], UnboundLocalError name)
  end.

(** The item classes whose rewards get no item level and no rarity. *)
Definition without_rarity : list string :=
  ["Active Skill Gem"; "Support Skill Gem"; "QuestItem"; "StackableCurrency"].

(** The state of the loop: [compress], and the local [rarity], which
    keeps its value from one row to the next. *)
Definition quest_state : Type := odict record * option string.

(** The body of [for row in self.rr['QuestRewards.dat']]. *)
Definition quest_row (t : QuestRewardTables) (row : QuestRewardsRow) (st : quest_state)
  : quest_run quest_state :=
  match BaseItemTypesKey row with
  | None => mret st
  | Some reward =>
      let item := reward_item reward in
      let quest := reward_QuestKey row in
      let character := CharactersKey row in
      let itemcls := ItemClassesKey_Id reward in
      let data : record := [] in
      let data := setitem data "quest" (VAtom (AStr (quest_Name quest))) in
      let data := setitem data "quest_id" (VAtom (AStr (quest_Id quest))) in
      if bool_decide (quest_Name quest = "") then mret st
      else
        let data := setitem data "act" (VAtom (AInt (quest_Act quest))) in
        let data :=
          match character with
          | Some c => setitem data "classes" (VAtom (AStr (character_Name c)))
          | None => data
          end in
        rarity ← match RarityKey row with
                 | ANY => mret st.2
                 | Rarity name_upper =>
                     text ← lift (rarity_text (ClientStrings t) name_upper);
                     mret (Some text)
                 end;
        let sockets := SocketGems row in
        let data :=
          if bool_decide (sockets ≠ "")
          then setitem data "sockets" (VAtom (AStr sockets)) else data in
        let name := item_Name item in
        name ← (if bool_decide (itemcls = "QuestItem") && str_in "Book" (item_Id item)
                then mret (with_parenthesis name (quest_Name quest))
                else if bool_decide (itemcls = "Map") then
                  world ← lift (getitem (MapSeries t) "MapWorlds");
                  mret (with_parenthesis name world)
                else mret name);
        '(name, data) ←
          (if bool_decide (itemcls ∉ without_rarity) then
             let data := setitem data "item_level" (VAtom (AInt (ItemLevel row))) in
             text ← local "rarity" rarity;
             let data := setitem data "rarity" (VAtom (AStr text)) in
             match RarityKey row with
             | ANY =>
                 let uid := Key0 row in
                 match get _ITEM_MAP (language t) with
                 | None => _ ← warn NoUniqueItemMapping; mret (name, data)
                 | Some item_map =>
                     match int_get item_map uid with
                     | Some unique_name =>
                         unique ← lift (getitem (ClientStrings t)
                                          "ItemDisplayStringUnique");
                         mret (unique_name,
                               setitem data "rarity" (VAtom (AStr unique)))
                     | None =>
                         _ ← warn (UncapturedUniqueItem uid (quest_Name quest) name);
                         mret (name, data)
                     end
                 end
             | Rarity _ => mret (name, data)
             end
           else mret (name, data));
        name ← match get _TWO_STONE_MAP (language t) with
               | None => _ ← warn NoTwoStoneRingMapping; mret name
               | Some two_stone_map =>
                   match get two_stone_map (item_Id item) with
                   | Some ring => mret ring
                   | None => mret name
                   end
               end;
        let data := setitem data "reward" (VAtom (AStr name)) in
        let key := quest_Id quest +:+ item_Id item +:+ str_of_int (Key0 row) in
        compress ← lift (quest_merge st.1 key data character);
        mret (compress, rarity)
  end.

(** The loop over the rows. *)
Fixpoint quest_rows (t : QuestRewardTables) (rows : list QuestRewardsRow)
    (st : quest_state) : quest_run quest_state :=
  match rows with
  | [] => mret st
  | row :: rest => st' ← quest_row t row st; quest_rows t rest st'
  end.

Definition read_quest_rewards (t : QuestRewardTables) : quest_run ExporterResult :=
  st ← quest_rows t (QuestRewards_dat t) ([], None);
  lift (_write_lua st.1.*2 "quest").

(** *** Rows of [QuestRewards.dat] *)

(** The row is passed over by [continue]: it has no item, or its quest
    has no name. *)
Definition passed_over (row : QuestRewardsRow) : Prop :=
  BaseItemTypesKey row = None ∨ quest_Name (reward_QuestKey row) = "".

(** The key of the merge group of a row with the item [reward]. *)
Definition quest_key (row : QuestRewardsRow) (reward : RewardItem) : string :=
  quest_Id (reward_QuestKey row) +:+ item_Id (reward_item reward)
    +:+ str_of_int (Key0 row).

(** The tables with other rows. *)
Definition with_rows (t : QuestRewardTables) (rows : list QuestRewardsRow)
  : QuestRewardTables :=
  {| QuestRewards_dat := rows;
     ClientStrings := ClientStrings t;
     MapSeries := MapSeries t;
     language := language t |}.

(** The run returns, with a value that satisfies [Q]. *)
Definition quest_returns {A} (Q : A → Prop) (m : quest_run A) : Prop :=
  ∃ ws a, m = (ws, Result (Ok a)) ∧ Q a.

(** If the run returns, its value satisfies [Q]. *)
Definition quest_post {A} (Q : A → Prop) (m : quest_run A) : Prop :=
  ∀ ws a, m = (ws, Result (Ok a)) → Q a.

(** The local [rarity] is assigned wherever the loop reads it:
    [assigned] tells whether it is before the rows.  A row that is not
    passed over assigns it when its rarity is not [RARITY.ANY], and
    else reads it unless its item class is in [without_rarity]. *)
Fixpoint rarity_assigned (assigned : bool) (rows : list QuestRewardsRow) : bool :=
  match rows with
  | [] => true
  | row :: rest =>
      match BaseItemTypesKey row with
      | None => rarity_assigned assigned rest
      | Some reward =>
          if bool_decide (quest_Name (reward_QuestKey row) = "")
          then rarity_assigned assigned rest
          else
            match RarityKey row with
            | Rarity _ => rarity_assigned true rest
            | ANY =>
                (assigned || bool_decide (ItemClassesKey_Id reward ∈ without_rarity))
                && rarity_assigned assigned rest
            end
      end
  end.

(** The record of a reward row while it is filled: texts and integers,
    with an act, a quest id and a class. *)
Definition quest_data (data : record) : Prop :=
  Forall (λ kv, text_or_int kv.2) data
  ∧ (∃ n, get data "act" = Some (VAtom (AInt n)))
  ∧ (∃ s, get data "quest_id" = Some (VAtom (AStr s)))
  ∧ (∃ s, get data "classes" = Some (VAtom (AStr s))).

(** ** Sample tables for the main methods *)

Definition sample_monster_rr (file : string) : list record :=
  if decide (file = "MonsterMapDifficulty.dat") then
    [[("MapLevel", VAtom (AInt 68)); ("Stat1Value", VAtom (AInt 10));
      ("Stat2Value", VAtom (AInt 20))]]
  else if decide (file = "MonsterMapBossDifficulty.dat") then
    [[("Stat1Value", VAtom (AInt 30)); ("Stat2Value", VAtom (AInt 40));
      ("Stat3Value", VAtom (AInt 50)); ("Stat4Value", VAtom (AInt 60))]]
  else if decide (file = "MagicMonsterLifeScalingPerLevel.dat") then
    [[("Level", VAtom (AInt 1)); ("Life", VAtom (AInt 100))]]
  else if decide (file = "RareMonsterLifeScalingPerLevel.dat") then
    [[("Life", VAtom (AInt 200))]]
  else [].

(** A recipe that names one component twice. *)
Definition sample_recipe : record :=
  [("Id", VAtom (AStr "Recipe1")); ("HintText", VAtom (AStr "Hint"));
   ("Description", VAtom (AStr "")); ("Notes", VAtom ANone);
   ("BestiaryRecipeComponentKeys",
    VSeq KList [ARef "Component" 1; ARef "Component" 2; ARef "Component" 1])].

Definition sample_component : BestiaryRecipeComponentRow :=
  {| component_fields :=
       [("Id", VAtom (AStr "Component_1")); ("MinLevel", VAtom (AInt 70));
        ("BestiaryFamiliesKey", VAtom (ARef "Family" 2));
        ("BestiaryGroupsKey", VAtom ANone); ("BestiaryGenusKey", VAtom ANone);
        ("ModsKey", VAtom ANone); ("BestiaryCapturableMonstersKey", VAtom ANone)];
     component_RarityKey := Rarity "Rare" |}.

Definition sample_strings : odict string :=
  [("ItemDisplayStringRare", "Rare"); ("ItemDisplayStringMagic", "Magic");
   ("ItemDisplayStringUnique", "Unique")].

(** The name of an upgrade type, lower case in the sample. *)
Definition sample_name_lower (v : value) : result value :=
  match v with
  | VAtom (AStr s) => Ok (VAtom (AStr s))
  | _ => Raise AttributeError
  end.

Definition sample_upgrade (cost : value) : DelveUpgradesRow :=
  {| upgrade_fields :=
       [("DelveUpgradeTypeKey", VAtom (AStr "sulphite")); ("UpgradeLevel", VAtom (AInt 1));
        ("Cost", cost)];
     upgrade_Stats := [(ARef "Stats" 3, VAtom (AInt 5))] |}.

Definition sample_resources : list record :=
  [[("AreaLevel", VAtom (AInt 1)); ("Sulphite", VAtom ANone)]].

(** Rows of [QuestRewards.dat]: a ring for the Witch, with the given
    rarity, item Id and key. *)
Definition sample_ring (rarity : RARITY) (Id : string) (key : Z) : QuestRewardsRow :=
  {| BaseItemTypesKey :=
       Some {| reward_item := {| item_Id := Id; item_Name := "Ring" |};
               ItemClassesKey_Id := "Ring" |};
     reward_QuestKey := sample_quest;
     CharactersKey := Some {| character_Name := "Witch" |};
     RarityKey := rarity;
     SocketGems := "";
     ItemLevel := 10;
     Key0 := key |}.

(** A row without an item. *)
Definition sample_no_item : QuestRewardsRow :=
  {| BaseItemTypesKey := None;
     reward_QuestKey := sample_quest;
     CharactersKey := None;
     RarityKey := ANY;
     SocketGems := "";
     ItemLevel := 0;
     Key0 := 0 |}.

Definition sample_tables (rows : list QuestRewardsRow) : QuestRewardTables :=
  {| QuestRewards_dat := rows;
     ClientStrings := sample_strings;
     MapSeries := [("MapWorlds", "Atlas")];
     language := "English" |}.

(** * Properties *)



(** ** Dictionaries *)

Section odict.
Context {V : Type}.
Implicit Types (d o : odict V) (k : string) (v : V).

Lemma get_None d k : get d k = None ↔ k ∉ d.*1.
Proof.
  induction d as [|[k' v'] d IH]; simpl.
  - split; [intros _; apply not_elem_of_nil | done].
  - rewrite not_elem_of_cons. destruct (decide (k' = k)) as [->|Hne].
    + split; [done | intros [? _]; done].
    + rewrite IH. split; [intros ?; split; [congruence | done] | intros [_ ?]; done].
Qed.

Lemma get_Some_elem_of d k v : get d k = Some v → (k, v) ∈ d.
Proof.
  induction d as [|[k' v'] d IH]; simpl; [done|].
  destruct (decide (k' = k)) as [->|Hne].
  - intros [= ->]. left.
  - intros ?. right. auto.
Qed.

Lemma contains_get d k : contains d k = bool_decide (is_Some (get d k)).
Proof.
  unfold contains. apply bool_decide_ext.
  rewrite <- not_eq_None_Some, get_None. split; [tauto|].
  intros ?. by apply dec_stable.
Qed.

Lemma get_setitem_eq d k v : get (setitem d k v) k = Some v.
Proof.
  induction d as [|[k' v'] d IH]; simpl.
  - by rewrite decide_True.
  - destruct (decide (k' = k)); simpl; [by rewrite decide_True|by rewrite decide_False].
Qed.

Lemma get_setitem_ne d k k' v : k ≠ k' → get (setitem d k v) k' = get d k'.
Proof.
  intros Hne. induction d as [|[k0 v0] d IH]; simpl.
  - by rewrite decide_False.
  - destruct (decide (k0 = k)) as [->|]; simpl.
    + by rewrite !decide_False.
    + destruct (decide (k0 = k')); [done | apply IH].
Qed.

Lemma keys_setitem d k v :
  (setitem d k v).*1 = if decide (k ∈ d.*1) then d.*1 else d.*1 ++ [k].
Proof.
  induction d as [|[k0 v0] d IH].
  - case_decide as H; [by apply elem_of_nil in H | done].
  - cbn [setitem]. destruct (decide (k0 = k)) as [->|Hne].
    + rewrite !fmap_cons. cbn [fst]. rewrite decide_True; [done | left].
    + rewrite !fmap_cons, IH. cbn [fst]. destruct (decide (k ∈ d.*1)).
      * rewrite decide_True; [done | by right].
      * rewrite decide_False; [done |]. rewrite not_elem_of_cons. split; [congruence | done].
Qed.

Lemma NoDup_keys_setitem d k v : NoDup d.*1 → NoDup (setitem d k v).*1.
Proof.
  intros Hd. rewrite keys_setitem. destruct (decide (k ∈ d.*1)); [done|].
  apply NoDup_app. split_and!; [done | | apply NoDup_singleton].
  intros x Hx ->%list_elem_of_singleton. done.
Qed.

Lemma get_delitem_eq d k : get (delitem d k) k = None.
Proof.
  apply get_None. unfold delitem. rewrite list_elem_of_fmap.
  intros [[k' v'] [-> [Hk _]%list_elem_of_filter]]. by apply Hk.
Qed.

Lemma get_delitem_ne d k k' : k ≠ k' → get (delitem d k) k' = get d k'.
Proof.
  intros Hne. unfold delitem. induction d as [|[k0 v0] d IH]; [done|].
  rewrite filter_cons. simpl. destruct (decide (k0 ≠ k)) as [H0|H0]; simpl.
  - by rewrite IH.
  - apply dec_stable in H0 as ->. by rewrite decide_False.
Qed.

Lemma get_update_notin d o k : k ∉ o.*1 → get (update d o) k = get d k.
Proof.
  unfold update. revert d. induction o as [|[k0 v0] o IH]; intros d Hk; simpl; [done|].
  simpl in Hk. apply not_elem_of_cons in Hk as [Hne Hk].
  rewrite IH by done. apply get_setitem_ne. congruence.
Qed.

Lemma get_update_in d o k : NoDup o.*1 → k ∈ o.*1 → get (update d o) k = get o k.
Proof.
  unfold update. revert d. induction o as [|[k0 v0] o IH]; intros d Hnd Hk; simpl.
  - by apply elem_of_nil in Hk.
  - simpl in Hnd. apply NoDup_cons in Hnd as [Hk0 Hnd].
    destruct (decide (k0 = k)) as [->|Hne].
    + fold (update (setitem d k v0) o). rewrite get_update_notin by done.
      apply get_setitem_eq.
    + simpl in Hk. apply elem_of_cons in Hk as [?|Hk]; [congruence|]. by apply IH.
Qed.

Lemma keys_update_prefix d o : ∃ new, (update d o).*1 = d.*1 ++ new.
Proof.
  unfold update. revert d. induction o as [|[k0 v0] o IH]; intros d; simpl.
  - exists []. by rewrite app_nil_r.
  - destruct (IH (setitem d k0 v0)) as [new ->]. rewrite keys_setitem.
    destruct (decide (k0 ∈ d.*1)); [by eexists|].
    rewrite <- app_assoc. by eexists.
Qed.
End odict.

(** ** The projection *)

Lemma is_copied_true (v : value) :
  is_copied v = true ↔ v ≠ VAtom ANone ∧ v ≠ VAtom (AStr "").
Proof.
  unfold is_copied. rewrite andb_true_iff, !negb_true_iff, !bool_decide_eq_false. done.
Qed.

Lemma is_copied_false (v : value) :
  is_copied v = false ↔ v = VAtom ANone ∨ v = VAtom (AStr "").
Proof.
  unfold is_copied. rewrite andb_false_iff, !negb_false_iff, !bool_decide_eq_true. done.
Qed.

Lemma copy_fields_app row keys1 keys2 acc :
  copy_fields row (keys1 ++ keys2) acc
  = (copyrow ← copy_fields row keys1 acc; copy_fields row keys2 copyrow).
Proof.
  revert acc. induction keys1 as [|[k cd] keys1 IH]; intros acc; [done|].
  simpl. destruct (getitem row k) as [v| |]; simpl; [|done..].
  destruct (is_copied v); [|apply IH].
  destruct (transformed cd v) as [v'| |]; simpl; [apply IH|done..].
Qed.

Lemma copy_fields_returns row keys acc :
  Forall (readable row) keys → returns (copy_fields row keys acc).
Proof.
  intros Hall. revert acc.
  induction Hall as [|[k cd] keys (v & Hv & Ht) _ IH]; intros acc; simpl.
  - by exists acc.
  - simpl in Hv, Ht. unfold getitem. rewrite Hv. simpl.
    destruct (is_copied v); [|apply IH].
    destruct Ht as [v' ->]; [done|]. simpl. apply IH.
Qed.

Lemma copy_fields_get_other row keys acc copyrow K :
  copy_fields row keys acc = Ok copyrow →
  K ∉ cd_key <$> keys.*2 →
  get copyrow K = get acc K.
Proof.
  revert acc. induction keys as [|[k cd] keys IH]; intros acc Hrun HK; simpl in *.
  - by injection Hrun as <-.
  - apply not_elem_of_cons in HK as [Hne HK].
    destruct (getitem row k) as [v| |]; simpl in Hrun; [|done..].
    destruct (is_copied v); [|by apply IH].
    destruct (transformed cd v) as [v'| |]; simpl in Hrun; [|done..].
    rewrite (IH _ Hrun HK). apply get_setitem_ne. congruence.
Qed.

Lemma copy_fields_keys row keys acc copyrow K :
  copy_fields row keys acc = Ok copyrow →
  K ∈ copyrow.*1 → K ∈ acc.*1 ∨ K ∈ cd_key <$> keys.*2.
Proof.
  intros Hrun HK. destruct (decide (K ∈ cd_key <$> keys.*2)) as [|Hn]; [by right|left].
  apply dec_stable. intros Hacc. apply get_None in Hacc.
  rewrite <- (copy_fields_get_other _ _ _ _ _ Hrun Hn) in Hacc.
  by apply get_None in Hacc.
Qed.

Lemma copy_fields_NoDup row keys acc copyrow :
  copy_fields row keys acc = Ok copyrow → NoDup acc.*1 → NoDup copyrow.*1.
Proof.
  revert acc. induction keys as [|[k cd] keys IH]; intros acc Hrun Hacc; simpl in *.
  - by injection Hrun as <-.
  - destruct (getitem row k) as [v| |]; simpl in Hrun; [|done..].
    destruct (is_copied v); [|by eapply IH].
    destruct (transformed cd v) as [v'| |]; simpl in Hrun; [|done..].
    eapply IH; [done|]. by apply NoDup_keys_setitem.
Qed.

(** What the loop leaves under the output key of a spec that is the
    only one to write it. *)
Lemma copy_fields_sole_writer row keys i spec v copyrow :
  copy_fields row keys [] = Ok copyrow →
  keys !! i = Some spec →
  sole_writer keys i →
  get row spec.1 = Some v →
  if is_copied v
  then ∃ v', transformed spec.2 v = Ok v' ∧ get copyrow (cd_key spec.2) = Some v'
  else get copyrow (cd_key spec.2) = None.
Proof.
  intros Hrun Hi Hsole Hv.
  assert (Hsplit : keys = take i keys ++ spec :: drop (S i) keys)
    by (symmetry; by apply take_drop_middle).
  assert (Hpre : cd_key spec.2 ∉ cd_key <$> (take i keys).*2).
  { intros (cd & Heq & Hin)%list_elem_of_fmap.
    apply list_elem_of_fmap in Hin as ([k0 cd0] & -> & Hin).
    apply list_elem_of_lookup in Hin as [j Hj].
    apply lookup_take_Some in Hj as [Hj Hlt].
    refine (Hsole j spec (k0, cd0) Hi Hj _ _); [lia | done]. }
  assert (Hpost : cd_key spec.2 ∉ cd_key <$> (drop (S i) keys).*2).
  { intros (cd & Heq & Hin)%list_elem_of_fmap.
    apply list_elem_of_fmap in Hin as ([k0 cd0] & -> & Hin).
    apply list_elem_of_lookup in Hin as [j Hj].
    rewrite lookup_drop in Hj.
    refine (Hsole (S i + j) spec (k0, cd0) Hi Hj _ _); [lia | done]. }
  rewrite Hsplit, copy_fields_app in Hrun.
  destruct (copy_fields row (take i keys) []) as [r1| |] eqn:H1; simpl in Hrun; [|done..].
  pose proof (copy_fields_get_other _ _ _ _ _ H1 Hpre) as Hr1. simpl in Hr1.
  destruct spec as [k cd]. simpl in *. unfold getitem in Hrun. rewrite Hv in Hrun.
  simpl in Hrun. destruct (is_copied v).
  - destruct (transformed cd v) as [v'| |]; simpl in Hrun; [|done..].
    exists v'. split; [done|].
    rewrite (copy_fields_get_other _ _ _ _ _ Hrun Hpost). apply get_setitem_eq.
  - by rewrite (copy_fields_get_other _ _ _ _ _ Hrun Hpost).
Qed.

(** ** Strings *)

Lemma append_cons (x : ascii) (a b : string) : String x a +:+ b = String x (a +:+ b).
Proof. reflexivity. Qed.

Lemma append_nil_l (a : string) : "" +:+ a = a.
Proof. reflexivity. Qed.

Lemma append_assoc (a b c : string) : (a +:+ b) +:+ c = a +:+ (b +:+ c).
Proof.
  induction a as [|x a IH]; [done|]. rewrite !append_cons. by f_equal.
Qed.

Lemma append_nil_r (a : string) : a +:+ "" = a.
Proof.
  induction a as [|x a IH]; [done|]. rewrite append_cons. by f_equal.
Qed.

Create Rewrite HintDb str_norm.
#[global] Hint Rewrite append_cons append_nil_l append_assoc append_nil_r : str_norm.

Lemma join_empty_cons (x : string) (l : list string) :
  join "" (x :: l) = x +:+ join "" l.
Proof. destruct l; simpl; [by rewrite append_nil_r | done]. Qed.

Lemma join_empty_app (l1 l2 : list string) :
  join "" (l1 ++ l2) = join "" l1 +:+ join "" l2.
Proof.
  induction l1 as [|x l1 IH]; [done|].
  rewrite <- app_comm_cons, !join_empty_cons, IH. by rewrite append_assoc.
Qed.

Lemma string_of_list_ascii_app (l1 l2 : list ascii) :
  string_of_list_ascii (l1 ++ l2) = string_of_list_ascii l1 +:+ string_of_list_ascii l2.
Proof. induction l1 as [|x l1 IH]; simpl; [done | by rewrite IH]. Qed.

Lemma list_ascii_of_string_app (a b : string) :
  list_ascii_of_string (a +:+ b) = list_ascii_of_string a ++ list_ascii_of_string b.
Proof. induction a as [|x a IH]; simpl; [done | by rewrite IH]. Qed.

(** ** The serialiser *)

Lemma escaped_cons (c : ascii) (s : string) :
  escaped (String c s)
  = if decide (c = dquote) then String backslash (String dquote (escaped s))
    else String c (escaped s).
Proof.
  unfold escaped. simpl. rewrite string_of_list_ascii_app. unfold escape_char.
  by destruct (decide (c = dquote)).
Qed.

Lemma replace_dquote_escaped (s : string) :
  replace dquote (String backslash (String dquote "")) s = escaped s.
Proof.
  induction s as [|c s IH]; [done|]. rewrite escaped_cons. simpl.
  destruct (decide (c = dquote)); by rewrite IH.
Qed.

Lemma escaped_app (a b : string) : escaped (a +:+ b) = escaped a +:+ escaped b.
Proof.
  unfold escaped. by rewrite list_ascii_of_string_app, bind_app, string_of_list_ascii_app.
Qed.

Lemma escaped_dquote_after_backslash (s : string) (i : nat) :
  String.get i (escaped s) = Some dquote →
  ∃ j, i = S j ∧ String.get j (escaped s) = Some backslash.
Proof.
  revert i. induction s as [|c s IH]; intros i; [by destruct i|].
  rewrite escaped_cons. destruct (decide (c = dquote)) as [->|Hc].
  - destruct i as [|[|i]]; simpl; [done | by exists 0%nat |].
    intros (j & -> & Hj)%IH. by exists (S (S j)).
  - destruct i as [|i]; simpl; [congruence|].
    intros (j & -> & Hj)%IH. by exists (S j).
Qed.

Lemma format_elements_ints (ns : list Z) (values : list string) :
  format_elements (AInt <$> ns) values = Ok (values ++ (str_of_int <$> ns)).
Proof.
  revert values. induction ns as [|n ns IH]; intros values; simpl.
  - by rewrite app_nil_r.
  - rewrite IH. by rewrite <- app_assoc.
Qed.

Lemma format_item_plain (kv : string * plain) (out : list string) :
  format_item kv.1 (plain_value kv.2) out = Ok (out ++ [plain_entry kv]).
Proof.
  destruct kv as [key [n|repr|s|k ns]]; unfold plain_entry; simpl; try done.
  - rewrite replace_dquote_escaped. by autorewrite with str_norm.
  - rewrite format_elements_ints. simpl. by autorewrite with str_norm.
Qed.

Lemma format_items_plain (data : odict plain) (out : list string) :
  format_items (plain_record data) out = Ok (out ++ (plain_entry <$> data)).
Proof.
  revert out. induction data as [|[key p] data IH]; intros out; simpl.
  - by rewrite app_nil_r.
  - rewrite (format_item_plain (key, p)). simpl. rewrite IH. by rewrite <- app_assoc.
Qed.

Lemma format_records_plain (outdata : list (odict plain)) (out : list string) :
  ∃ lines, format_records (plain_record <$> outdata) out = Ok (out ++ lines)
           ∧ join "" lines = join "" (plain_block <$> outdata).
Proof.
  revert out. induction outdata as [|data outdata IH]; intros out.
  - exists []. by rewrite app_nil_r.
  - rewrite !fmap_cons. cbn [format_records]. unfold format_record.
    rewrite format_items_plain. cbn [mbind result_bind].
    destruct (IH (((out ++ [tab +:+ "{" +:+ nl]) ++ (plain_entry <$> data))
                    ++ [tab +:+ "}," +:+ nl])) as (lines & -> & Hjoin).
    exists ([tab +:+ "{" +:+ nl] ++ (plain_entry <$> data) ++ [tab +:+ "}," +:+ nl] ++ lines).
    split; [by rewrite <- !app_assoc|].
    rewrite !join_empty_app, Hjoin, !join_empty_cons. unfold plain_block.
    change (join "" []) with "". by autorewrite with str_norm.
Qed.

Lemma lua_formatter_plain (outdata : list (odict plain)) :
  lua_formatter (plain_record <$> outdata) = Ok (plain_table outdata).
Proof.
  unfold lua_formatter.
  destruct (format_records_plain outdata ["local data = {" +:+ nl]) as (lines & -> & Hjoin).
  cbn [mbind result_bind]. f_equal.
  rewrite !join_empty_app, Hjoin, !join_empty_cons. unfold plain_table.
  change (join "" []) with "". by autorewrite with str_norm.
Qed.

(** ** Claims on the projection *)

(** C9: called without a positional index, on a row that has the source
    fields and with transforms that return, [_copy_from_keys] appends
    exactly one record: the output sequence is the old one followed by
    the projected record, its length is one more, and every record
    present before is still there, at its place and with all its
    fields. *)
Theorem C9_append_without_index (row : record) (keys : list field_spec)
    (out_data : list record) :
  Forall (readable row) keys →
  ∃ copyrow out_data',
    _copy_from_keys row keys out_data None = Ok out_data' ∧
    copy_fields row keys [] = Ok copyrow ∧
    out_data' = out_data ++ [copyrow] ∧
    length out_data' = S (length out_data) ∧
    ∀ (i : nat) (d : record), out_data !! i = Some d → out_data' !! i = Some d.
Proof.
  intros Hread. destruct (copy_fields_returns row keys [] Hread) as [copyrow Hrun].
  exists copyrow, (out_data ++ [copyrow]). unfold _copy_from_keys. rewrite Hrun.
  split_and!; [done..| |].
  - rewrite length_app. cbn. lia.
  - intros i d Hi. by apply lookup_app_l_Some.
Qed.

(** Without a positional index nothing else can happen: a call that
    returns has appended one record. *)
Lemma _copy_from_keys_None_inv (row : record) (keys : list field_spec)
    (out_data out_data' : list record) :
  _copy_from_keys row keys out_data None = Ok out_data' →
  ∃ copyrow, out_data' = out_data ++ [copyrow].
Proof.
  unfold _copy_from_keys.
  destruct (copy_fields row keys []) as [copyrow| |]; cbn; [|done..].
  intros [= <-]. by exists copyrow.
Qed.

(** C5: with a positional index at or beyond the length of the output
    sequence the projected record is appended, nothing is raised; with
    an index within range the projected fields are merged into the
    record at that index: the fields of the projected record overwrite,
    every other field of the existing record keeps its value (so do
    all fields that no spec targets), the existing keys keep their
    order, and the other records are untouched. *)
Theorem C5_positional_index (row : record) (keys : list field_spec)
    (out_data : list record) (i : Z) :
  Forall (readable row) keys →
  ∃ copyrow,
    copy_fields row keys [] = Ok copyrow ∧
    ((Z.of_nat (length out_data) ≤ i)%Z →
       _copy_from_keys row keys out_data (Some i) = Ok (out_data ++ [copyrow])) ∧
    (∀ d, (0 ≤ i)%Z → out_data !! Z.to_nat i = Some d →
       ∃ d',
         _copy_from_keys row keys out_data (Some i)
           = Ok (<[Z.to_nat i := d']> out_data) ∧
         (∀ K, K ∈ copyrow.*1 → get d' K = get copyrow K) ∧
         (∀ K, K ∉ copyrow.*1 → get d' K = get d K) ∧
         (∀ K, K ∉ cd_key <$> keys.*2 → get d' K = get d K) ∧
         (∃ new, d'.*1 = d.*1 ++ new)).
Proof.
  intros Hread. destruct (copy_fields_returns row keys [] Hread) as [copyrow Hrun].
  exists copyrow. split; [done|]. unfold _copy_from_keys. rewrite Hrun. simpl. split.
  - intros Hge. unfold list_index.
    rewrite decide_True by lia. by rewrite decide_False by lia.
  - intros d Hi Hd. exists (update d copyrow).
    pose proof (lookup_lt_Some _ _ _ Hd) as Hlt.
    unfold list_index. rewrite decide_True by done. rewrite decide_True by lia.
    rewrite Hd. split_and!.
    + done.
    + intros K HK. apply get_update_in; [|done].
      by apply (copy_fields_NoDup _ _ _ _ Hrun), NoDup_nil.
    + intros K HK. by apply get_update_notin.
    + intros K HK. apply get_update_notin. intros Hin.
      destruct (copy_fields_keys _ _ _ _ _ Hrun Hin) as [Hnil|?]; [|done].
      by apply elem_of_nil in Hnil.
    + apply keys_update_prefix.
Qed.

(** C2, amended: for every source row, field-spec list and field spec
    of the list that is the only one to write its output key: if the
    row's value at the spec's source field is [None] or the empty
    string, the output record has no entry for the output key;
    otherwise it has the key, bound to the transform applied to the
    value when a transform is declared and to the value itself when
    none is. *)
Theorem C2_sparse_projection (row : record) (keys : list field_spec)
    (out_data : list record) (i : nat) (spec : field_spec) (v : value) :
  Forall (readable row) keys →
  keys !! i = Some spec →
  sole_writer keys i →
  get row spec.1 = Some v →
  ∃ copyrow,
    _copy_from_keys row keys out_data None = Ok (out_data ++ [copyrow]) ∧
    (v = VAtom ANone ∨ v = VAtom (AStr "") → get copyrow (cd_key spec.2) = None) ∧
    (v ≠ VAtom ANone → v ≠ VAtom (AStr "") →
       match cd_value spec.2 with
       | Some f => ∃ v', f v = Ok v' ∧ get copyrow (cd_key spec.2) = Some v'
       | None => get copyrow (cd_key spec.2) = Some v
       end).
Proof.
  intros Hread Hi Hsole Hv.
  destruct (copy_fields_returns row keys [] Hread) as [copyrow Hrun].
  exists copyrow. unfold _copy_from_keys. rewrite Hrun. simpl. split; [done|].
  pose proof (copy_fields_sole_writer _ _ _ _ _ _ Hrun Hi Hsole Hv) as Hspec.
  split.
  - intros Hskip%is_copied_false. by rewrite Hskip in Hspec.
  - intros H1 H2. assert (is_copied v = true) as Hc by by apply is_copied_true.
    rewrite Hc in Hspec. destruct Hspec as (v' & Ht & Hget).
    unfold transformed in Ht. destruct (cd_value spec.2) as [f|].
    + by exists v'.
    + by injection Ht as ->.
Qed.

(** ** Stable sorting *)

Section stable_sort.
Context {A : Type} (lt : A → A → bool).

#[local] Abbreviation le := (le_of lt).
#[local] Abbreviation tie := (tied lt).

(** [lt] is a strict weak order. *)
Hypothesis lt_asym : ∀ x y, lt x y = true → lt y x = false.
Hypothesis le_trans : ∀ x y z, le x y → le y z → le x z.

Lemma lt_irrefl x : lt x x = false.
Proof. destruct (lt x x) eqn:H; [by rewrite (lt_asym x x H) in H | done]. Qed.

Lemma insert_by_perm x l : insert_by lt x l ≡ₚ x :: l.
Proof.
  induction l as [|y l IH]; simpl; [done|].
  destruct (lt y x); [|done]. rewrite IH. apply Permutation_swap.
Qed.

Lemma stable_sort_perm l : stable_sort lt l ≡ₚ l.
Proof.
  induction l as [|x l IH]; simpl; [done|].
  rewrite insert_by_perm. by constructor.
Qed.

Lemma insert_by_sorted x l :
  StronglySorted le l → StronglySorted le (insert_by lt x l).
Proof.
  induction l as [|y l IH]; simpl; intros Hs.
  - repeat constructor.
  - apply StronglySorted_inv in Hs as [Hs Hy].
    destruct (lt y x) eqn:Hyx.
    + constructor; [by apply IH|].
      rewrite insert_by_perm. constructor; [by apply lt_asym | done].
    + constructor; [by constructor|]. constructor; [done|].
      eapply Forall_impl; [done|]. intros z Hz. by apply (le_trans x y z).
Qed.

Lemma stable_sort_sorted l : StronglySorted le (stable_sort lt l).
Proof.
  induction l as [|x l IH]; simpl; [constructor | by apply insert_by_sorted].
Qed.

(** Elements that the order does not tell apart keep their order. *)
Lemma insert_by_filter (P : A → Prop) `{!∀ x, Decision (P x)} x l :
  (∀ y, P x → P y → lt y x = false) →
  filter P (insert_by lt x l) = filter P (x :: l).
Proof.
  intros Hcls. induction l as [|y l IH]; [done|]. simpl.
  destruct (lt y x) eqn:Hyx; [|done].
  rewrite filter_cons, IH, !filter_cons.
  destruct (decide (P y)) as [Hy|]; [|done].
  destruct (decide (P x)) as [Hx|]; [|done].
  by rewrite (Hcls y Hx Hy) in Hyx.
Qed.

Lemma stable_sort_filter (P : A → Prop) `{!∀ x, Decision (P x)} l :
  (∀ x y, P x → P y → lt x y = false) →
  filter P (stable_sort lt l) = filter P l.
Proof.
  intros Hcls. induction l as [|x l IH]; [done|]. simpl.
  rewrite insert_by_filter by (intros; by apply Hcls).
  by rewrite !filter_cons, IH.
Qed.

Lemma tied_refl x : tie x x.
Proof. split; apply lt_irrefl. Qed.

(** A sorted list is determined by the order of its ties. *)
Lemma sorted_ties_unique l1 l2 :
  StronglySorted le l1 → StronglySorted le l2 →
  (∀ x, filter (tie x) l1 = filter (tie x) l2) →
  l1 = l2.
Proof.
  revert l2. induction l1 as [|a l1 IH]; intros l2 Hs1 Hs2 Hf.
  - destruct l2 as [|b l2]; [done|]. specialize (Hf b).
    rewrite filter_nil, filter_cons_True in Hf by apply tied_refl. done.
  - destruct l2 as [|b l2].
    { specialize (Hf a). rewrite filter_nil, filter_cons_True in Hf by apply tied_refl.
      done. }
    apply StronglySorted_inv in Hs1 as [Hs1 Ha].
    apply StronglySorted_inv in Hs2 as [Hs2 Hb].
    assert (a = b) as <-.
    { pose proof (Hf a) as Hfa. rewrite filter_cons_True in Hfa by apply tied_refl.
      rewrite filter_cons in Hfa. destruct (decide (tie a b)) as [|Hnab]; [congruence|].
      pose proof (Hf b) as Hfb.
      rewrite !filter_cons in Hfb.
      rewrite (decide_True (P:=tie b b)) in Hfb by apply tied_refl.
      destruct (decide (tie b a)) as [Hba|Hnba]; [congruence|].
      assert (a ∈ l2) as Hin2.
      { eapply (list_elem_of_filter (tie a)). rewrite <- Hfa. left. }
      assert (b ∈ l1) as Hin1.
      { eapply (list_elem_of_filter (tie b)). rewrite Hfb. left. }
      rewrite Forall_forall in Ha, Hb.
      exfalso. apply Hnab. split; [by apply Hb | by apply Ha]. }
    f_equal. apply IH; [done..|]. intros x. specialize (Hf x).
    rewrite !filter_cons in Hf. destruct (decide (tie x a)); congruence.
Qed.

(** Any stable sort gives the list of [stable_sort]. *)
Lemma stable_sort_unique l l' :
  StronglySorted le l' →
  (∀ x, filter (tie x) l' = filter (tie x) l) →
  l' = stable_sort lt l.
Proof.
  intros Hs Hf. apply sorted_ties_unique; [done | apply stable_sort_sorted |].
  intros x. rewrite Hf. symmetry. apply stable_sort_filter.
  intros y z [Hxy Hyx] [Hxz Hzx].
  destruct (lt y z) eqn:Hyz; [|done].
  (* y < z contradicts z ≤ x ≤ y *)
  assert (le z y) as Hzy by (apply (le_trans z x y); done).
  unfold le_of in Hzy. congruence.
Qed.
End stable_sort.

Lemma insert_by_fmap {A B} (f : A → B) (lt : B → B → bool) (x : A) (l : list A) :
  insert_by lt (f x) (f <$> l) = f <$> insert_by (λ a b, lt (f a) (f b)) x l.
Proof.
  induction l as [|y l IH]; [done|]. rewrite fmap_cons. cbn [insert_by].
  destruct (lt (f y) (f x)); [|done]. by rewrite IH, fmap_cons.
Qed.

Lemma stable_sort_fmap {A B} (f : A → B) (lt : B → B → bool) (l : list A) :
  stable_sort lt (f <$> l) = f <$> stable_sort (λ a b, lt (f a) (f b)) l.
Proof.
  induction l as [|x l IH]; [done|]. rewrite fmap_cons.
  unfold stable_sort in *. cbn [foldr]. by rewrite IH, insert_by_fmap.
Qed.

(** Sorting by [major] a list sorted by [minor] sorts it by the two. *)
Section lex.
Context {A : Type} (major minor : A → A → bool).
Hypothesis major_asym : ∀ x y, major x y = true → major y x = false.
Hypothesis major_trans :
  ∀ x y z, le_of major x y → le_of major y z → le_of major x z.

Lemma le_of_lex_major x y : le_of (lex_lt major minor) x y → le_of major x y.
Proof.
  unfold le_of, lex_lt. intros H. by apply orb_false_iff in H as [? _].
Qed.

Lemma insert_by_lex_sorted x s :
  StronglySorted (le_of (lex_lt major minor)) s →
  Forall (le_of minor x) s →
  StronglySorted (le_of (lex_lt major minor)) (insert_by major x s).
Proof.
  induction s as [|y s IH]; intros Hs Hx; cbn [insert_by].
  - repeat constructor.
  - apply StronglySorted_inv in Hs as [Hs Hy].
    apply Forall_cons in Hx as [Hxy Hx].
    destruct (major y x) eqn:Hyx.
    + constructor; [by apply IH|].
      rewrite insert_by_perm. constructor; [|done].
      unfold le_of, lex_lt. by rewrite (major_asym _ _ Hyx), Hyx.
    + constructor; [by constructor|].
      constructor.
      * unfold le_of, lex_lt in *. rewrite Hyx, Hxy. by rewrite andb_false_r.
      * rewrite Forall_forall in Hx, Hy. apply Forall_forall. intros z Hz.
        assert (major z x = false) as Hzx.
        { apply (major_trans x y z); [done|]. by apply le_of_lex_major, Hy. }
        unfold le_of, lex_lt. rewrite Hzx. rewrite (Hx z Hz).
        by rewrite andb_false_r.
Qed.

Lemma stable_sort_lex_sorted m :
  StronglySorted (le_of minor) m →
  StronglySorted (le_of (lex_lt major minor)) (stable_sort major m).
Proof.
  induction m as [|x m IH]; intros Hm; [constructor|].
  apply StronglySorted_inv in Hm as [Hm Hx].
  unfold stable_sort in *. cbn [foldr]. apply insert_by_lex_sorted; [by apply IH|].
  by rewrite (stable_sort_perm major m).
Qed.
End lex.

(** ** Orders on integers and strings *)

Lemma Zlt_asym (x y : Z) :
  bool_decide (x < y)%Z = true → bool_decide (y < x)%Z = false.
Proof. rewrite bool_decide_eq_true, bool_decide_eq_false. lia. Qed.

Lemma Zle_of_trans (x y z : Z) :
  bool_decide (y < x)%Z = false → bool_decide (z < y)%Z = false →
  bool_decide (z < x)%Z = false.
Proof. rewrite !bool_decide_eq_false. lia. Qed.

Lemma ltb_leb (x y : string) : String.ltb y x = negb (String.leb x y).
Proof.
  unfold String.ltb, String.leb. rewrite (String.compare_antisym x y).
  by destruct (String.compare y x).
Qed.

Lemma ltb_asym (x y : string) : String.ltb x y = true → String.ltb y x = false.
Proof.
  unfold String.ltb. rewrite (String.compare_antisym x y).
  by destruct (String.compare y x).
Qed.

Lemma ltb_le_of_trans (x y z : string) :
  String.ltb y x = false → String.ltb z y = false → String.ltb z x = false.
Proof.
  rewrite !ltb_leb, !negb_false_iff. intros Hxy Hyz.
  apply Is_true_true. apply Is_true_true in Hxy, Hyz.
  by apply (transitivity (R:=String.le) Hxy Hyz).
Qed.

Lemma ltb_tied_eq (x y : string) :
  String.ltb x y = false → String.ltb y x = false → x = y.
Proof.
  rewrite !ltb_leb, !negb_false_iff. intros H1 H2. by apply String.leb_antisym.
Qed.

Lemma ltb_irrefl (x : string) : String.ltb x x = false.
Proof. destruct (String.ltb x x) eqn:H; [by rewrite (ltb_asym _ _ H) in H | done]. Qed.

(** ** list.sort *)

Lemma mapM_Ok_fmap {A B} (f : A → result B) (g : A → B) (l : list A) :
  (∀ x, x ∈ l → f x = Ok (g x)) → mapM f l = Ok (g <$> l).
Proof.
  induction l as [|x l IH]; intros Hf; [done|].
  cbn [mapM]. rewrite (Hf x) by left. cbn [mbind result_bind].
  rewrite IH by (intros; apply Hf; by right). done.
Qed.

Lemma mapM_Some_fmap {A B C} (f : B → option C) (g : A → B) (k : A → C) (l : list A) :
  (∀ x, x ∈ l → f (g x) = Some (k x)) → mapM f (g <$> l) = Some (k <$> l).
Proof.
  induction l as [|x l IH]; intros Hf; [done|].
  rewrite fmap_cons. cbn [mapM]. rewrite (Hf x) by left. cbn [mbind option_bind].
  rewrite IH by (intros; apply Hf; by right). done.
Qed.

Lemma zip_fmap_self {A B} (k : A → B) (l : list A) :
  zip (k <$> l) l = (λ x, (k x, x)) <$> l.
Proof. induction l as [|x l IH]; [done|]. rewrite !fmap_cons. cbn. by f_equal. Qed.

(** [list.sort] on keys of one kind is the stable sort on the keys. *)
Lemma list_sort_keyed {A} (key : A → result value) (g : A → value)
    (k : A → sort_key) (l : list A) :
  (∀ x, x ∈ l → key x = Ok (g x)) →
  (∀ x, x ∈ l → sort_key_of (g x) = Some (k x)) →
  (∀ x y, x ∈ l → y ∈ l → same_kind (k x) (k y) = true) →
  list_sort key l = Ok (stable_sort (λ a b, sort_key_lt (k a) (k b)) l).
Proof.
  intros Hkey Hk Hkind. unfold list_sort.
  rewrite (mapM_Ok_fmap key g l Hkey). cbn [mbind result_bind].
  rewrite (mapM_Some_fmap sort_key_of g k l Hk).
  destruct l as [|x l]; [done|]. rewrite fmap_cons.
  assert (forallb (same_kind (k x)) (k x :: (k <$> l)) = true) as ->.
  { rewrite <- fmap_cons. apply forallb_forall. intros y Hy%list_elem_of_In.
    apply list_elem_of_fmap in Hy as (z & -> & Hz). apply Hkind; [left | done]. }
  rewrite <- fmap_cons, zip_fmap_self.
  rewrite (stable_sort_fmap (λ x, (k x, x)) (λ a b, sort_key_lt a.1 b.1)).
  rewrite <- list_fmap_compose. cbn. by rewrite list_fmap_id.
Qed.

Lemma list_sort_int_field (name : string) (l : list record) :
  (∀ r, r ∈ l → ∃ n, get r name = Some (VAtom (AInt n))) →
  list_sort (λ x, getitem x name) l
  = Ok (stable_sort (λ a b, bool_decide (int_field name a < int_field name b)%Z) l).
Proof.
  intros Hl.
  rewrite (list_sort_keyed _ (λ r, VAtom (AInt (int_field name r)))
             (λ r, KInt (int_field name r))); [done| |done..].
  intros r [n Hn]%Hl. unfold getitem, int_field. by rewrite Hn.
Qed.

Lemma list_sort_str_field (name : string) (l : list record) :
  (∀ r, r ∈ l → ∃ s, get r name = Some (VAtom (AStr s))) →
  list_sort (λ x, getitem x name) l
  = Ok (stable_sort (λ a b, String.ltb (str_field name a) (str_field name b)) l).
Proof.
  intros Hl.
  rewrite (list_sort_keyed _ (λ r, VAtom (AStr (str_field name r)))
             (λ r, KStr (str_field name r))); [done| |done..].
  intros r [s Hs]%Hl. unfold getitem, str_field. by rewrite Hs.
Qed.

(** ** The pre-sort of [_write_lua] *)

Lemma pre_sort_stable_sorts (outdata : list record) :
  Forall reward_record outdata →
  pre_sort outdata
  = Ok (stable_sort by_act (stable_sort by_quest_id (stable_sort by_reward outdata))).
Proof.
  intros Hall. rewrite Forall_forall in Hall. unfold pre_sort.
  rewrite list_sort_str_field by (intros r Hr; by apply Hall).
  cbn [mbind result_bind].
  rewrite list_sort_str_field; cycle 1.
  { intros r Hr. rewrite stable_sort_perm in Hr. by apply Hall. }
  cbn [mbind result_bind].
  rewrite list_sort_int_field; [done|].
  intros r Hr. rewrite !stable_sort_perm in Hr. by apply Hall.
Qed.

Lemma le_of_lex_triple (a b : record) :
  le_of (lex_lt by_act (lex_lt by_quest_id by_reward)) a b →
  triple_le (sort_triple a) (sort_triple b).
Proof.
  unfold le_of, lex_lt, triple_le, sort_triple. cbn [fst snd].
  set (xa := int_field "act" a). set (xb := int_field "act" b).
  set (qa := str_field "quest_id" a). set (qb := str_field "quest_id" b).
  set (wa := str_field "reward" a). set (wb := str_field "reward" b).
  intros H. apply orb_false_iff in H as [Hact H].
  apply bool_decide_eq_false in Hact.
  destruct (decide (xa < xb)%Z) as [Hlt|Hge]; [by left|right].
  split; [lia|]. rewrite (bool_decide_eq_false_2 (xa < xb)%Z) in H by done.
  cbn [negb andb] in H. apply orb_false_iff in H as [Hq H].
  destruct (String.ltb qa qb) eqn:Hqab; [by left|right].
  split; [by apply ltb_tied_eq|]. cbn [negb andb] in H.
  rewrite ltb_leb in H. by apply negb_false_iff in H.
Qed.

Lemma StronglySorted_weaken {A} (R S : A → A → Prop) (l : list A) :
  (∀ x y, R x y → S x y) → StronglySorted R l → StronglySorted S l.
Proof.
  intros HRS. induction 1 as [|x l Hl IH Hx]; constructor; [done|].
  eapply Forall_impl; [done|]. intros y. apply HRS.
Qed.

(** C3: the three successive stable sorts of [_write_lua], by
    ['reward'], then ['quest_id'], then ['act'], return, for every list
    of records with an integer act, a text quest id and a text reward,
    a rearrangement of the list that is in lexicographic order of
    (act, quest_id, reward), and in which the records with the same
    three keys are in the order they had in the input. *)
Theorem C3_pre_sort_lexicographic (outdata : list record) :
  Forall reward_record outdata →
  ∃ ordered,
    pre_sort outdata = Ok ordered ∧
    ordered ≡ₚ outdata ∧
    StronglySorted (λ a b, triple_le (sort_triple a) (sort_triple b)) ordered ∧
    (∀ t, filter (λ r, sort_triple r = t) ordered
          = filter (λ r, sort_triple r = t) outdata).
Proof.
  intros Hall. eexists. split; [by apply pre_sort_stable_sorts|]. split_and!.
  - by rewrite !stable_sort_perm.
  - eapply StronglySorted_weaken; [apply le_of_lex_triple|].
    apply stable_sort_lex_sorted.
    { intros x y. apply Zlt_asym. }
    { intros x y z. apply Zle_of_trans. }
    apply stable_sort_lex_sorted.
    { intros x y. apply ltb_asym. }
    { intros x y z. apply ltb_le_of_trans. }
    apply stable_sort_sorted.
    { intros x y. apply ltb_asym. }
    { intros x y z. apply ltb_le_of_trans. }
  - intros t. unfold sort_triple.
    rewrite !stable_sort_filter; [done|..].
    + intros x y <- [= _ _ E]. rewrite E. apply ltb_irrefl.
    + intros x y <- [= _ E _]. rewrite E. apply ltb_irrefl.
    + intros x y <- [= E _ _]. rewrite E. apply bool_decide_eq_false. lia.
Qed.

(** ** split and join *)

Lemma split_head (sep : ascii) (s : string) : ∃ p ps, split sep s = p :: ps.
Proof.
  induction s as [|c s (p & ps & IH)]; cbn [split]; [by eexists _, _|].
  destruct (decide (c = sep)); [by eexists _, _|]. rewrite IH. by eexists _, _.
Qed.

Lemma split_app_sep (sep : ascii) (a b : string) :
  split sep (a +:+ String sep b) = split sep a ++ split sep b.
Proof.
  induction a as [|c a IH].
  - rewrite append_nil_l. cbn [split]. by rewrite decide_True.
  - rewrite append_cons. cbn [split]. destruct (decide (c = sep)); [by rewrite IH|].
    rewrite IH. by destruct (split_head sep a) as (p & ps & ->).
Qed.

Lemma split_sep_free (sep : ascii) (s : string) :
  sep_free sep s → split sep s = [s].
Proof.
  unfold sep_free. induction s as [|c s IH]; [done|]. cbn [split list_ascii_of_string].
  rewrite not_elem_of_cons. intros [Hc Hs]. rewrite decide_False by done.
  by rewrite IH.
Qed.

Lemma split_parts_sep_free (sep : ascii) (s p : string) :
  p ∈ split sep s → sep_free sep p.
Proof.
  unfold sep_free. revert p. induction s as [|c s IH]; intros p; cbn [split].
  - intros ->%list_elem_of_singleton. apply not_elem_of_nil.
  - destruct (decide (c = sep)) as [->|Hc].
    + intros [->|Hp]%elem_of_cons; [apply not_elem_of_nil | by apply IH].
    + destruct (split_head sep s) as (q & qs & Hq). rewrite Hq in IH |- *.
      intros [->|Hp]%elem_of_cons.
      * cbn [list_ascii_of_string]. rewrite not_elem_of_cons. split; [done|].
        apply IH. left.
      * apply IH. by right.
Qed.

Lemma join_cons_cons (sep : ascii) (x y : string) (l : list string) :
  join (String sep "") (x :: y :: l) = x +:+ String sep (join (String sep "") (y :: l)).
Proof. unfold join. cbn [String.concat]. by rewrite append_cons, append_nil_l. Qed.

Lemma join_app (sep : ascii) (l1 l2 : list string) :
  l1 ≠ [] → l2 ≠ [] →
  join (String sep "") (l1 ++ l2)
  = join (String sep "") l1 +:+ String sep (join (String sep "") l2).
Proof.
  intros H1 H2. induction l1 as [|x l1 IH]; [done|].
  destruct l1 as [|y l1].
  - destruct l2 as [|z l2]; [done|]. cbn [app]. by rewrite join_cons_cons.
  - cbn [app]. rewrite !join_cons_cons. change (y :: l1 ++ l2) with ((y :: l1) ++ l2).
    rewrite IH by done. by rewrite append_assoc, append_cons.
Qed.

Lemma split_join (sep : ascii) (names : list string) :
  names ≠ [] → split sep (join (String sep "") names) = names ≫= split sep.
Proof.
  intros Hne. induction names as [|x names IH]; [done|].
  destruct names as [|y names].
  - cbn. by rewrite app_nil_r.
  - rewrite join_cons_cons, split_app_sep, IH by done. done.
Qed.

Lemma bind_split_sep_free (sep : ascii) (names : list string) :
  Forall (sep_free sep) names → names ≫= split sep = names.
Proof.
  induction 1 as [|x names Hx _ IH]; [done|].
  rewrite bind_cons, IH, split_sep_free by done. done.
Qed.

(** ** The post-processing of the classes *)

Lemma sorted_perm (l : list string) : sorted l ≡ₚ l.
Proof. apply stable_sort_perm. Qed.

Lemma sorted_increasing (l : list string) :
  NoDup l → StronglySorted (λ a b, String.ltb a b = true) (sorted l).
Proof.
  intros Hnd. rewrite <- sorted_perm in Hnd.
  assert (StronglySorted (le_of String.ltb) (sorted l)) as Hs.
  { apply stable_sort_sorted; [apply ltb_asym | intros x y z; apply ltb_le_of_trans]. }
  induction Hs as [|a m Hm IH Ha]; [constructor|].
  apply NoDup_cons in Hnd as [Hnotin Hnd]. constructor; [by apply IH|].
  rewrite Forall_forall in Ha. apply Forall_forall. intros b Hb.
  destruct (String.ltb a b) eqn:Hab; [done|]. exfalso. apply Hnotin.
  by rewrite (ltb_tied_eq a b Hab (Ha b Hb)).
Qed.

Lemma size_difference_0 (X Y : gset string) : size (X ∖ Y) = 0 ↔ X ⊆ Y.
Proof.
  rewrite size_empty_iff. split.
  - intros H x Hx. destruct (decide (x ∈ Y)) as [|Hn]; [done|].
    exfalso. apply (not_elem_of_empty (C:=gset string) x). rewrite <- H.
    by apply elem_of_difference.
  - intros H. apply set_equiv. intros x. rewrite elem_of_difference.
    split; [intros [? ?]; exfalso; auto | intros []%not_elem_of_empty].
Qed.

(** What [prune_classes] does with a text under ['classes']. *)
Lemma prune_classes_text (classes_set : gset string) (v : record) (s : string) :
  get v "classes" = Some (VAtom (AStr s)) →
  prune_classes classes_set v
  = Ok (if bool_decide (classes_set ⊆ list_to_set (split _UNIT_SEP s))
        then delitem v "classes"
        else setitem v "classes"
               (VAtom (AStr (join (String _UNIT_SEP "")
                               (sorted (elements (list_to_set (split _UNIT_SEP s)
                                                    : gset string))))))).
Proof.
  intros Hget. unfold prune_classes.
  rewrite contains_get, Hget, bool_decide_eq_true_2 by by eexists.
  cbn [negb]. unfold getitem. rewrite Hget. cbn [mbind result_bind].
  rewrite (bool_decide_ext (size (classes_set ∖ list_to_set (split _UNIT_SEP s)) = 0)
             (classes_set ⊆ list_to_set (split _UNIT_SEP s))).
  - by destruct (bool_decide _).
  - apply size_difference_0.
Qed.

(** The split parts of the joined names of known classes cover the
    known classes only when they are the known classes. *)
Lemma covered_iff_equal (classes_set : gset string) (names : list string) :
  names ≠ [] →
  (∀ n, n ∈ names → n ∈ classes_set) →
  classes_set ⊆ list_to_set (split _UNIT_SEP (join (String _UNIT_SEP "") names))
  ↔ list_to_set (split _UNIT_SEP (join (String _UNIT_SEP "") names)) = classes_set.
Proof.
  intros Hne Hnames. split; [|intros ->; done].
  intros Hcover. apply set_eq. intros x. split; [|by apply Hcover].
  rewrite elem_of_list_to_set. intros Hx.
  assert (Forall (sep_free _UNIT_SEP) names) as Hfree.
  { apply Forall_forall. intros n Hn.
    apply (split_parts_sep_free _ (join (String _UNIT_SEP "") names)).
    apply (elem_of_list_to_set (C:=gset string)). apply Hcover. by apply Hnames. }
  rewrite split_join, bind_split_sep_free in Hx by done. by apply Hnames.
Qed.

(** ** The vendor reward loop *)

Lemma vendor_row_left_out (rr : RelationalReader) (row : QuestVendorRewardsRow)
    (compress : odict record) :
  returns (Quest_by_Id rr "a6q4") →
  left_out rr row →
  vendor_row rr row compress = ([warning_of rr row], Ok compress).
Proof.
  intros [q Hq] Hout. unfold vendor_row, vendor_quests, warning_of.
  set (quests := QuestKey <$> filter _ (QuestStates_dat rr)).
  destruct (decide (no_quest rr row)) as [[Hnone Hstate]|Hsome].
  - assert (quests = []) as -> by (unfold quests; by rewrite Hnone).
    rewrite (bool_decide_eq_false_2 (QuestState row = 385%Z)) by done.
    rewrite andb_false_r. done.
  - destruct Hout as [?|Hitems]; [done|].
    destruct (decide (quests = [])) as [Hq0|Hq0].
    + assert (QuestState row = 385%Z) as Hstate.
      { apply dec_stable. intros Hne. apply Hsome. split; [|done].
        unfold quests in Hq0. by apply fmap_nil_inv in Hq0. }
      rewrite Hq0, Hstate. cbn [bool_decide andb]. rewrite Hq. cbn [mbind result_bind app].
      rewrite !bool_decide_eq_true_2 by done. cbn [andb].
      by rewrite (bool_decide_eq_false_2 ([q] = [])) by done.
    + rewrite (bool_decide_eq_false_2 (quests = [])) by done. cbn [andb].
      rewrite (bool_decide_eq_false_2 (quests = [])) by done.
      by rewrite bool_decide_eq_true_2.
Qed.

Lemma vendor_row_kept_no_warning (rr : RelationalReader)
    (row : QuestVendorRewardsRow) (compress : odict record) :
  ¬ left_out rr row → (vendor_row rr row compress).1 = [].
Proof.
  intros Hkept. unfold vendor_row.
  destruct (vendor_quests rr row) as [quests| |] eqn:Hquests; [|done..].
  case_bool_decide as Hq0.
  - exfalso. apply Hkept. left. unfold vendor_quests in Hquests.
    set (found := QuestKey <$> filter _ (QuestStates_dat rr)) in *.
    destruct (bool_decide (found = []) && bool_decide (QuestState row = 385%Z)) eqn:Htest.
    + destruct (Quest_by_Id rr "a6q4"); cbn in Hquests; [|done..].
      injection Hquests as <-. by destruct found.
    + injection Hquests as Hfound. rewrite <- Hfound in Hq0.
      rewrite bool_decide_eq_true_2 in Htest by done.
      cbn [andb] in Htest. apply bool_decide_eq_false in Htest.
      split; [unfold found in Hq0; by apply fmap_nil_inv in Hq0 | done].
  - case_bool_decide as Hi0; [|done]. exfalso. apply Hkept. by right.
Qed.

Lemma vendor_rows_skip (rr : RelationalReader) (rows : list QuestVendorRewardsRow)
    (compress : odict record) :
  returns (Quest_by_Id rr "a6q4") →
  (vendor_rows rr rows compress).2
  = (vendor_rows rr (filter (λ row, ¬ left_out rr row) rows) compress).2.
Proof.
  intros Hq. revert compress. induction rows as [|row rows IH]; intros compress; [done|].
  rewrite filter_cons. destruct (decide (¬ left_out rr row)) as [Hkept|Hout].
  - cbn [vendor_rows]. destruct (vendor_row rr row compress) as [ws [c| |]]; [|done..].
    specialize (IH c).
    destruct (vendor_rows rr rows c), (vendor_rows rr (filter _ rows) c). done.
  - apply dec_stable in Hout. cbn [vendor_rows].
    rewrite vendor_row_left_out by done. rewrite <- IH.
    by destruct (vendor_rows rr rows compress).
Qed.

Lemma vendor_rows_warnings (rr : RelationalReader)
    (rows : list QuestVendorRewardsRow) (compress : odict record) :
  returns (Quest_by_Id rr "a6q4") →
  returns (vendor_rows rr rows compress).2 →
  (vendor_rows rr rows compress).1 = warning_of rr <$> filter (left_out rr) rows.
Proof.
  intros Hq. revert compress. induction rows as [|row rows IH]; intros compress; [done|].
  rewrite filter_cons. cbn [vendor_rows]. destruct (decide (left_out rr row)) as [Hout|Hkept].
  - rewrite vendor_row_left_out by done. specialize (IH compress).
    destruct (vendor_rows rr rows compress) as [ws r]. cbn in IH |- *. intros Hr.
    by rewrite IH.
  - pose proof (vendor_row_kept_no_warning rr row compress Hkept) as Hws.
    destruct (vendor_row rr row compress) as [ws [c| |]]; cbn in Hws; subst ws.
    + specialize (IH c). destruct (vendor_rows rr rows c) as [ws r]. cbn in IH |- *.
      apply IH.
    + by intros [? ?].
    + by intros [? ?].
Qed.

Lemma vendor_rows_with_vendor_rows (rr : RelationalReader)
    (other rows : list QuestVendorRewardsRow) (compress : odict record) :
  vendor_rows (with_vendor_rows rr other) rows compress = vendor_rows rr rows compress.
Proof.
  revert compress. induction rows as [|row rows IH]; intros compress; [done|].
  cbn [vendor_rows].
  change (vendor_row (with_vendor_rows rr other) row compress)
    with (vendor_row rr row compress).
  destruct (vendor_row rr row compress) as [ws [c| |]]; [|done..]. by rewrite IH.
Qed.

(** C8: in [read_vendor_rewards], with the hardcoded quest of state 385
    present in the quest table, every row for which no quest is found
    (the state not being 385) or whose item list is empty gives one
    warning naming the row and leaves the merge groups as they are;
    the loop goes on, and the groups, the exported text and any
    exception are those of the run without these rows; when the loop
    ends without exception the warnings given are those of the rows
    left out, in row order. *)
Theorem C8_rows_left_out_warn (rr : RelationalReader) :
  returns (Quest_by_Id rr "a6q4") →
  let rows := QuestVendorRewards_dat rr in
  let kept := filter (λ row, ¬ left_out rr row) rows in
  (∀ row compress, left_out rr row →
     vendor_row rr row compress = ([warning_of rr row], Ok compress)) ∧
  (∀ compress, (vendor_rows rr rows compress).2 = (vendor_rows rr kept compress).2) ∧
  (read_vendor_rewards rr).2 = (read_vendor_rewards (with_vendor_rows rr kept)).2 ∧
  (returns (vendor_rows rr rows []).2 →
     (read_vendor_rewards rr).1 = warning_of rr <$> filter (left_out rr) rows).
Proof.
  intros Hq rows kept. split_and!.
  - intros row compress Hout. by apply vendor_row_left_out.
  - intros compress. by apply vendor_rows_skip.
  - unfold read_vendor_rewards. cbn [QuestVendorRewards_dat with_vendor_rows Characters_dat].
    fold rows.
    assert ((vendor_rows (with_vendor_rows rr kept) kept []).2 = (vendor_rows rr rows []).2)
      as Heq.
    { rewrite vendor_rows_with_vendor_rows. unfold kept. by rewrite <- vendor_rows_skip. }
    destruct (vendor_rows rr rows []) as [ws r],
             (vendor_rows (with_vendor_rows rr kept) kept []) as [ws' r'].
    cbn in Heq. by subst r'.
  - intros Hret. unfold read_vendor_rewards. fold rows.
    pose proof (vendor_rows_warnings rr rows [] Hq Hret) as Hws.
    by destruct (vendor_rows rr rows []) as [ws r].
Qed.

(** ** The merge steps *)

Lemma contains_true {V} (d : odict V) (k : string) (v : V) :
  get d k = Some v → contains d k = true.
Proof. intros H. rewrite contains_get, H. by apply bool_decide_eq_true_2. Qed.

Lemma contains_false {V} (d : odict V) (k : string) :
  get d k = None → contains d k = false.
Proof.
  intros H. rewrite contains_get, H. apply bool_decide_eq_false_2. by intros [? ?].
Qed.

(** The first record of a key is stored as it is. *)
Lemma vendor_merge_first (compress : odict record) (key : string) (data : record) :
  get compress key = None →
  vendor_merge compress key data = Ok (setitem compress key data).
Proof. intros H. unfold vendor_merge. by rewrite (contains_false _ _ H). Qed.

(** A later record with classes appends them to those of the
    representative. *)
Lemma vendor_merge_append (compress : odict record) (key : string)
    (data rep : record) (old new : string) :
  get compress key = Some rep →
  get rep "classes" = Some (VAtom (AStr old)) →
  get data "classes" = Some (VAtom (AStr new)) →
  vendor_merge compress key data
  = Ok (setitem compress key
          (setitem rep "classes" (VAtom (AStr (old +:+ String _UNIT_SEP new))))).
Proof.
  intros Hrep Hold Hnew. unfold vendor_merge, getitem.
  rewrite (contains_true _ _ _ Hrep), (contains_true _ _ _ Hnew), Hrep.
  cbn [mbind result_bind]. rewrite Hold, Hnew. done.
Qed.

(** A later record without classes changes nothing. *)
Lemma vendor_merge_without_classes (compress : odict record) (key : string)
    (data rep : record) :
  get compress key = Some rep →
  get data "classes" = None →
  vendor_merge compress key data = Ok compress.
Proof.
  intros Hrep Hnew. unfold vendor_merge.
  by rewrite (contains_true _ _ _ Hrep), (contains_false _ _ Hnew).
Qed.

(** A later record with classes, for a representative without: the
    read of [compress[key]['classes']] raises. *)
Lemma vendor_merge_KeyError (compress : odict record) (key : string)
    (data rep : record) (new : value) :
  get compress key = Some rep →
  get rep "classes" = None →
  get data "classes" = Some new →
  vendor_merge compress key data = Raise (KeyError "classes").
Proof.
  intros Hrep Hold Hnew. unfold vendor_merge, getitem.
  rewrite (contains_true _ _ _ Hrep), (contains_true _ _ _ Hnew), Hrep.
  cbn [mbind result_bind]. by rewrite Hold.
Qed.

(** C1: in the post-processing pass of [read_vendor_rewards], for a
    merged record whose ['classes'] value joins names of player classes
    with the unit separator: the field is dropped exactly when the set
    of the parts of the value split on the separator equals the set of
    all player-class names; otherwise its value becomes the
    separator-join of the sorted distinct parts, the strictly
    increasing list of the members of the set; the other fields are
    left alone, and the outcome is the same for every arrival order of
    the names.  The merge feeds the pass with such a record: two
    records of one identity key, whose classes join [names1] and
    [names2], are merged into one group, the first record with the
    classes of both, and the pass gives the group the outcome above,
    in whichever order the two records arrive: for the values A and B,
    the separator-join of the sorted set of A and B. *)
Theorem C1_prune_classes (classes_set : gset string) (v : record)
    (names : list string) :
  names ≠ [] →
  (∀ n, n ∈ names → n ∈ classes_set) →
  get v "classes" = Some (VAtom (AStr (join (String _UNIT_SEP "") names))) →
  let classes : gset string :=
    list_to_set (split _UNIT_SEP (join (String _UNIT_SEP "") names)) in
  ∃ v',
    prune_classes classes_set v = Ok v' ∧
    (get v' "classes" = None ↔ classes = classes_set) ∧
    (classes ≠ classes_set →
       get v' "classes"
         = Some (VAtom (AStr (join (String _UNIT_SEP "") (sorted (elements classes)))))
       ∧ StronglySorted (λ a b, String.ltb a b = true) (sorted (elements classes))
       ∧ ∀ x, x ∈ sorted (elements classes) ↔ x ∈ classes) ∧
    (∀ K, K ≠ "classes" → get v' K = get v K) ∧
    (∀ names2 v2,
       names2 ≡ₚ names →
       get v2 "classes" = Some (VAtom (AStr (join (String _UNIT_SEP "") names2))) →
       ∃ v2', prune_classes classes_set v2 = Ok v2'
              ∧ get v2' "classes" = get v' "classes") ∧
    (∀ compress key first later names1 names2,
       names = names1 ++ names2 → names1 ≠ [] → names2 ≠ [] →
       get compress key = None →
       get first "classes" = Some (VAtom (AStr (join (String _UNIT_SEP "") names1))) →
       get later "classes" = Some (VAtom (AStr (join (String _UNIT_SEP "") names2))) →
       ∃ compress' rep pruned,
         (compress1 ← vendor_merge compress key first;
          vendor_merge compress1 key later) = Ok compress' ∧
         get compress' key = Some rep ∧
         get rep "classes" = Some (VAtom (AStr (join (String _UNIT_SEP "") names))) ∧
         (∀ K, K ≠ "classes" → get rep K = get first K) ∧
         prune_classes classes_set rep = Ok pruned ∧
         (get pruned "classes" = None ↔ classes = classes_set) ∧
         (classes ≠ classes_set →
            get pruned "classes"
            = Some (VAtom (AStr (join (String _UNIT_SEP "")
                                   (sorted (elements classes)))))) ∧
         ∃ compress2 rep2 pruned2,
           (compress1 ← vendor_merge compress key later;
            vendor_merge compress1 key first) = Ok compress2 ∧
           get compress2 key = Some rep2 ∧
           (∀ K, K ≠ "classes" → get rep2 K = get later K) ∧
           prune_classes classes_set rep2 = Ok pruned2 ∧
           get pruned2 "classes" = get pruned "classes").
Proof.
  intros Hne Hnames Hget classes.
  pose proof (prune_classes_text classes_set v _ Hget) as Hrun. fold classes in Hrun.
  pose proof (covered_iff_equal classes_set names Hne Hnames) as Hiff.
  fold classes in Hiff.
  set (v' := if bool_decide (classes_set ⊆ classes) then _ else _) in Hrun.
  assert (get v' "classes" = None ↔ classes = classes_set) as Hdrop.
  { unfold v'. case_bool_decide as Hc.
    - split; [intros _; by apply Hiff | intros _; apply get_delitem_eq].
    - rewrite get_setitem_eq. split; [done | intros Heq; by apply Hiff in Heq]. }
  assert (classes ≠ classes_set →
          get v' "classes"
          = Some (VAtom (AStr (join (String _UNIT_SEP "") (sorted (elements classes))))))
    as Hkept.
  { intros Hneq. unfold v'. rewrite bool_decide_eq_false_2 by (by rewrite Hiff).
    apply get_setitem_eq. }
  assert (∀ names2 v2,
            names2 ≡ₚ names →
            get v2 "classes" = Some (VAtom (AStr (join (String _UNIT_SEP "") names2))) →
            ∃ v2', prune_classes classes_set v2 = Ok v2'
                   ∧ get v2' "classes" = get v' "classes") as Horder.
  { intros names2 v2 Hperm Hget2. eexists. split; [by apply prune_classes_text|].
    assert (names2 ≠ []) as Hne2.
    { intros ->. by apply Permutation_nil_l in Hperm. }
    assert (list_to_set (split _UNIT_SEP (join (String _UNIT_SEP "") names2))
            = classes) as ->.
    { unfold classes. rewrite !split_join by done.
      apply list_to_set_perm_L. by rewrite Hperm. }
    unfold v'. case_bool_decide; [by rewrite !get_delitem_eq | by rewrite !get_setitem_eq]. }
  exists v'. split_and!; [exact Hrun | exact Hdrop | | | exact Horder |].
  - intros Hneq. split_and!.
    + by apply Hkept.
    + apply sorted_increasing, NoDup_elements.
    + intros x. by rewrite sorted_perm, elem_of_elements.
  - intros K HK. unfold v'.
    case_bool_decide; [by apply get_delitem_ne | by apply get_setitem_ne].
  - intros compress key first later names1 names2 -> Hne1 Hne2 Hfresh Hfirst Hlater.
    assert (∀ (a b : record) (na nb : list string),
              na ≠ [] → nb ≠ [] → na ++ nb ≡ₚ names1 ++ names2 →
              get a "classes" = Some (VAtom (AStr (join (String _UNIT_SEP "") na))) →
              get b "classes" = Some (VAtom (AStr (join (String _UNIT_SEP "") nb))) →
              ∃ compress' rep pruned,
                (compress1 ← vendor_merge compress key a;
                 vendor_merge compress1 key b) = Ok compress' ∧
                get compress' key = Some rep ∧
                get rep "classes"
                = Some (VAtom (AStr (join (String _UNIT_SEP "") (na ++ nb)))) ∧
                (∀ K, K ≠ "classes" → get rep K = get a K) ∧
                prune_classes classes_set rep = Ok pruned ∧
                get pruned "classes" = get v' "classes") as Hmerge.
    { intros a b na nb Hna Hnb Hperm Ha Hb.
      rewrite (vendor_merge_first _ _ _ Hfresh). cbn [mbind result_bind].
      rewrite (vendor_merge_append _ _ _ a _ _ (get_setitem_eq _ _ _) Ha Hb).
      rewrite <- join_app by done.
      set (rep := setitem a "classes" _).
      destruct (Horder (na ++ nb) rep Hperm) as (pruned & Hpruned & Hsame).
      { apply get_setitem_eq. }
      exists (setitem (setitem compress key a) key rep), rep, pruned.
      split_and!; [done | apply get_setitem_eq | apply get_setitem_eq | | done | done].
      intros K HK. unfold rep. by rewrite get_setitem_ne. }
    destruct (Hmerge first later names1 names2 Hne1 Hne2 (reflexivity _) Hfirst Hlater)
      as (compress' & rep & pruned & Hrun1 & Hrep & Hcls & Hframe & Hpruned & Hsame).
    destruct (Hmerge later first names2 names1 Hne2 Hne1 (Permutation_app_comm _ _)
                Hlater Hfirst)
      as (compress2 & rep2 & pruned2 & Hrun2 & Hrep2 & _ & Hframe2 & Hpruned2 & Hsame2).
    exists compress', rep, pruned. rewrite Hsame.
    split_and!; [done..| by apply Hkept |].
    exists compress2, rep2, pruned2. by rewrite Hsame2.
Qed.

Lemma quest_merge_first (compress : odict record) (key : string) (data : record)
    (character : option Character) :
  get compress key = None →
  quest_merge compress key data character = Ok (setitem compress key data).
Proof. intros H. unfold quest_merge. by rewrite (contains_false _ _ H). Qed.

Lemma quest_merge_append (compress : odict record) (key : string)
    (data rep : record) (old : string) (c : Character) :
  get compress key = Some rep →
  get rep "classes" = Some (VAtom (AStr old)) →
  quest_merge compress key data (Some c)
  = Ok (setitem compress key
          (setitem rep "classes"
             (VAtom (AStr (old +:+ String _UNIT_SEP (character_Name c)))))).
Proof.
  intros Hrep Hold. unfold quest_merge, getitem.
  rewrite (contains_true _ _ _ Hrep), Hrep. cbn [mbind result_bind].
  by rewrite Hold.
Qed.

Lemma quest_merge_KeyError (compress : odict record) (key : string)
    (data rep : record) (character : option Character) :
  get compress key = Some rep →
  get rep "classes" = None →
  quest_merge compress key data character = Raise (KeyError "classes").
Proof.
  intros Hrep Hold. unfold quest_merge, getitem.
  rewrite (contains_true _ _ _ Hrep), Hrep. cbn [mbind result_bind].
  by rewrite Hold.
Qed.

(** C6, where the code departs from it: in [read_quest_rewards] a later
    record of a key whose row has no character, so that the record has
    no ['classes'], does not leave the representative as it is and go
    on: [character['Name']] raises [TypeError] and the export ends.
    [read_vendor_rewards] tests ['classes' in data] first and keeps the
    merge groups unchanged. *)
Theorem C6_quest_merge_raises_without_class (compress : odict record)
    (key : string) (data rep : record) (old : value) :
  get compress key = Some rep →
  get rep "classes" = Some old →
  get data "classes" = None →
  quest_merge compress key data None = Raise TypeError
  ∧ vendor_merge compress key data = Ok compress.
Proof.
  intros Hrep Hold Hdata. split; [|by eapply vendor_merge_without_classes].
  unfold quest_merge, getitem.
  rewrite (contains_true _ _ _ Hrep), Hrep. cbn [mbind result_bind].
  by rewrite Hold.
Qed.

(** ** The classes of the merge groups *)

Lemma for_each_invariant {A S} (I : S → Prop) (body : A → S → result S)
    (l : list A) (s s' : S) :
  (∀ x t t', x ∈ l → I t → body x t = Ok t' → I t') →
  I s → for_each body l s = Ok s' → I s'.
Proof.
  revert s. induction l as [|x l IH]; intros s Hbody Hs Hrun; cbn [for_each] in Hrun.
  - by injection Hrun as <-.
  - destruct (body x s) as [t| |] eqn:Hx; cbn in Hrun; [|done..].
    apply (IH t); [|by apply (Hbody x s); [left|..]|done].
    intros y u u' Hy. apply Hbody. by right.
Qed.

Lemma Forall_setitem {V} (P : string * V → Prop) (d : odict V) (k : string) (v : V) :
  Forall P d → P (k, v) → Forall P (setitem d k v).
Proof.
  intros Hd Hkv. induction Hd as [|[k' v'] d Hx Hd IH]; cbn [setitem].
  - by constructor.
  - destruct (decide (k' = k)); by constructor.
Qed.

Lemma vendor_data_classes (row : QuestVendorRewardsRow) (quest : Quest)
    (item : BaseItemType) :
  get (vendor_data row quest item) "classes"
  = if bool_decide (CharactersKeys row ≠ [])
    then Some (VAtom (AStr (join (String _UNIT_SEP "")
                              (character_Name <$> CharactersKeys row))))
    else None.
Proof.
  unfold vendor_data. destruct (bool_decide (CharactersKeys row ≠ [])); [|done].
  apply get_setitem_eq.
Qed.

Lemma vendor_merge_classes_joined (known : list string) (compress : odict record)
    (key : string) (data : record) (compress' : odict record) :
  Forall (λ kv, classes_joined known kv.2) compress →
  classes_joined known data →
  vendor_merge compress key data = Ok compress' →
  Forall (λ kv, classes_joined known kv.2) compress'.
Proof.
  intros Hall Hdata. unfold vendor_merge.
  destruct (contains compress key) eqn:Hkey; cycle 1.
  { intros [= <-]. by apply Forall_setitem. }
  destruct (contains data "classes") eqn:Hcls; [|by intros [= <-]].
  unfold getitem. destruct (get compress key) as [rep|] eqn:Hrep; [|done].
  cbn [mbind result_bind]. destruct (get rep "classes") as [old|] eqn:Hold; [|done].
  cbn [mbind result_bind]. destruct (get data "classes") as [new|] eqn:Hnew; [|done].
  cbn [mbind result_bind].
  assert (classes_joined known rep) as Hrepj.
  { rewrite Forall_forall in Hall. apply (Hall (key, rep)). by apply get_Some_elem_of. }
  destruct (Hrepj old Hold) as (names1 & Hne1 & Hin1 & ->).
  destruct (Hdata new Hnew) as (names2 & Hne2 & Hin2 & ->).
  cbn. intros [= <-]. apply Forall_setitem; [done|]. cbn [snd].
  intros val. rewrite get_setitem_eq. intros [= <-].
  exists (names1 ++ names2). split_and!.
  - by destruct names1.
  - intros n [?|?]%elem_of_app; auto.
  - by rewrite join_app.
Qed.

(** With every linked character a row of [Characters.dat], the classes
    of every merge group join names of [Characters.dat]. *)
Lemma vendor_rows_classes_joined (rr : RelationalReader)
    (rows : list QuestVendorRewardsRow) (compress compress' : odict record) :
  (∀ row c, row ∈ rows → c ∈ CharactersKeys row → c ∈ Characters_dat rr) →
  Forall (λ kv, classes_joined (character_Name <$> Characters_dat rr) kv.2) compress →
  (vendor_rows rr rows compress).2 = Ok compress' →
  Forall (λ kv, classes_joined (character_Name <$> Characters_dat rr) kv.2) compress'.
Proof.
  set (known := character_Name <$> Characters_dat rr).
  revert compress. induction rows as [|row rows IH]; intros compress Hres Hall Hrun.
  - cbn in Hrun. by injection Hrun as <-.
  - cbn [vendor_rows] in Hrun.
    destruct (vendor_row rr row compress) as [ws [c| |]] eqn:Hrow; [|done..].
    assert (Forall (λ kv, classes_joined known kv.2) c) as Hc.
    { unfold vendor_row in Hrow.
      destruct (vendor_quests rr row) as [quests| |]; [|done..].
      destruct (bool_decide (quests = [])); [by injection Hrow as _ <-|].
      destruct (bool_decide (BaseItemTypesKeys row = [])); [by injection Hrow as _ <-|].
      injection Hrow as _ Hrow. revert Hrow.
      apply for_each_invariant; [|done]. intros quest t t' _ Ht.
      apply for_each_invariant; [|done]. intros item u u' _ Hu.
      apply vendor_merge_classes_joined; [done|].
      intros val. rewrite vendor_data_classes. case_bool_decide as Hcs; [|done].
      intros [= <-]. exists (character_Name <$> CharactersKeys row). split_and!.
      - by destruct (CharactersKeys row).
      - intros n (ch & -> & Hch)%list_elem_of_fmap. apply list_elem_of_fmap.
        exists ch. split; [done|]. apply (Hres row); [left | done].
      - done. }
    apply (IH c); [|done|].
    + intros r ch Hr. apply Hres. by right.
    + by destruct (vendor_rows rr rows c).
Qed.

(** The records [read_vendor_rewards] prunes meet the conditions of
    [C1_prune_classes]. *)
Lemma merged_classes_joined (rr : RelationalReader) (compress : odict record)
    (key : string) (data : record) (val : value) :
  characters_resolved rr →
  (vendor_rows rr (QuestVendorRewards_dat rr) []).2 = Ok compress →
  (key, data) ∈ compress →
  get data "classes" = Some val →
  ∃ names, names ≠ []
    ∧ (∀ n, n ∈ names
         → n ∈ (list_to_set (character_Name <$> Characters_dat rr) : gset string))
    ∧ val = VAtom (AStr (join (String _UNIT_SEP "") names)).
Proof.
  intros Hres Hrun Hin Hval.
  pose proof (vendor_rows_classes_joined rr _ [] compress Hres (Forall_nil_2 _) Hrun) as Hall.
  rewrite Forall_forall in Hall.
  destruct (Hall _ Hin val Hval) as (names & Hne & Hnames & ->).
  exists names. split_and!; [done| |done].
  intros n Hn. apply elem_of_list_to_set. by apply Hnames.
Qed.

(** ** Where an entry ends up in the text *)

Lemma format_item_line (key : string) (v : value) (out out' : list string) :
  format_item key v out = Ok out' →
  ∃ line, out' = out ++ [line] ∧ ∀ o, format_item key v o = Ok (o ++ [line]).
Proof.
  unfold format_item. destruct v as [a|k xs].
  - destruct (isinstance_int_float a).
    + destruct (str a) as [s| |]; cbn; [|done..]. intros [= <-]. by eexists.
    + destruct a; try done. intros [= <-]. by eexists.
  - destruct (format_elements xs []) as [values| |]; cbn; [|done..].
    intros [= <-]. by eexists.
Qed.

Lemma format_items_lines (items : record) (out out' : list string) :
  format_items items out = Ok out' →
  ∃ lines, out' = out ++ lines
    ∧ ∀ key v, (key, v) ∈ items →
        ∃ line, line ∈ lines ∧ ∀ o, format_item key v o = Ok (o ++ [line]).
Proof.
  revert out. induction items as [|[key v] items IH]; intros out; cbn [format_items].
  - intros [= <-]. exists []. split; [by rewrite app_nil_r|].
    intros ? ? []%elem_of_nil.
  - destruct (format_item key v out) as [out1| |] eqn:Hitem; cbn; [|done..].
    intros Hrest. destruct (format_item_line _ _ _ _ Hitem) as (line & -> & Hline).
    destruct (IH _ Hrest) as (lines & -> & Hlines).
    exists (line :: lines). split; [by rewrite <- app_assoc|].
    intros key' v' [[= -> ->]|Hin]%elem_of_cons.
    + exists line. split; [left | done].
    + destruct (Hlines _ _ Hin) as (line' & ? & ?). exists line'. split; [by right | done].
Qed.

Lemma format_records_lines (outdata : list record) (out out' : list string) :
  format_records outdata out = Ok out' →
  ∃ lines, out' = out ++ lines
    ∧ ∀ data key v, data ∈ outdata → (key, v) ∈ data →
        ∃ line, line ∈ lines ∧ ∀ o, format_item key v o = Ok (o ++ [line]).
Proof.
  revert out. induction outdata as [|data outdata IH]; intros out; cbn [format_records].
  - intros [= <-]. exists []. split; [by rewrite app_nil_r|].
    intros ? ? ? []%elem_of_nil.
  - unfold format_record.
    destruct (format_items data _) as [out1| |] eqn:Hitems; cbn; [|done..].
    intros Hrest. destruct (format_items_lines _ _ _ Hitems) as (lines1 & -> & Hlines1).
    destruct (IH _ Hrest) as (lines & -> & Hlines).
    exists ([tab +:+ "{" +:+ nl] ++ lines1 ++ [tab +:+ "}," +:+ nl] ++ lines).
    split; [by rewrite <- !app_assoc|].
    intros data' key v [->|Hin]%elem_of_cons Hkv.
    + destruct (Hlines1 _ _ Hkv) as (line & ? & ?). exists line. split; [|done].
      rewrite !elem_of_app. auto.
    + destruct (Hlines _ _ _ Hin Hkv) as (line & ? & ?). exists line. split; [|done].
      rewrite !elem_of_app. auto.
Qed.

(** Every field of every record has its entry in the text. *)
Lemma lua_formatter_entry (outdata : list record) (text : string)
    (data : record) (key : string) (v : value) :
  lua_formatter outdata = Ok text →
  data ∈ outdata → (key, v) ∈ data →
  ∃ line before after,
    (∀ o, format_item key v o = Ok (o ++ [line]))
    ∧ text = before +:+ line +:+ after.
Proof.
  unfold lua_formatter. intros Hrun Hdata Hkv.
  destruct (format_records outdata _) as [out| |] eqn:Hrec; cbn in Hrun; [|done..].
  injection Hrun as <-.
  destruct (format_records_lines _ _ _ Hrec) as (lines & -> & Hlines).
  destruct (Hlines _ _ _ Hdata Hkv) as (line & Hin & Hline).
  apply list_elem_of_split in Hin as (l1 & l2 & ->).
  exists line, (join "" (["local data = {" +:+ nl] ++ l1)),
    (join "" (l2 ++ [nl +:+ "}"; nl; "return data"])).
  split; [done|].
  repeat first [rewrite join_empty_app | rewrite join_empty_cons].
  change (join "" []) with "". by autorewrite with str_norm.
Qed.

(** ** Claims on the serialiser *)

(** C4: for records whose values are integers, floats, strings and
    sequences of integers, [lua_formatter] returns the table text of
    the specification: one block per record and in each block, in the
    order of the record, the entry of each key, with an unquoted
    literal for an integer or a float, an inline bracketed list for a
    sequence and a double-quoted literal for a string.  In the quoted
    literal every double quote of the string has a backslash in front
    and every other character is copied as it is.  The record with id
    5, a name made of a, a double quote and b, and tags 1, 2, 3 gives
    the block with [id=5,], the name with backslash-quote, and
    [tags={1, 2, 3},]. *)
Theorem C4_lua_formatter_text (outdata : list (odict plain)) :
  lua_formatter (plain_record <$> outdata) = Ok (plain_table outdata)
  ∧ (∀ a b, escaped (a +:+ b) = escaped a +:+ escaped b)
  ∧ (∀ c, escaped (String c "")
          = if decide (c = dquote) then String backslash (String dquote "")
            else String c "")
  ∧ (∀ s i, String.get i (escaped s) = Some dquote →
            ∃ j, i = S j ∧ String.get j (escaped s) = Some backslash)
  ∧ lua_formatter
      [[("id", VAtom (AInt 5));
        ("name", VAtom (AStr ("a" +:+ String dquote "b")));
        ("tags", VSeq KList [AInt 1; AInt 2; AInt 3])]]
    = Ok ("local data = {" +:+ nl
          +:+ tab +:+ "{" +:+ nl
          +:+ tab +:+ tab +:+ "id=5," +:+ nl
          +:+ tab +:+ tab +:+ "name="
              +:+ String dquote ("a" +:+ String backslash (String dquote "b"))
              +:+ String dquote "," +:+ nl
          +:+ tab +:+ tab +:+ "tags={1, 2, 3}," +:+ nl
          +:+ tab +:+ "}," +:+ nl
          +:+ nl +:+ "}" +:+ nl +:+ "return data").
Proof.
  split_and!.
  - apply lua_formatter_plain.
  - apply escaped_app.
  - intros c. rewrite escaped_cons. by destruct (decide (c = dquote)).
  - apply escaped_dquote_after_backslash.
  - reflexivity.
Qed.

(** C7, where the code departs from it: a float in a sequence is not
    emitted as an unquoted literal.  The element test is
    [isinstance(v, int)], so the float is put between double quotes,
    while the same float as the value of a field, tested with
    [isinstance(value, (int, float))], is emitted unquoted. *)
Theorem C7_float_element_quoted (key : string) (k : seq_kind) (repr : string)
    (out : list string) :
  format_item key (VSeq k [AFloat repr]) out
  = Ok (out ++ [tab +:+ tab +:+ key +:+ "={"
                  +:+ String dquote (repr +:+ String dquote "") +:+ "}," +:+ nl])
  ∧ format_item key (VAtom (AFloat repr)) out
    = Ok (out ++ [tab +:+ tab +:+ key +:+ "=" +:+ repr +:+ "," +:+ nl]).
Proof. split; reflexivity. Qed.

(** The elements of a sequence otherwise are emitted as the claim has
    it: integers unquoted, everything else between double quotes with
    no escaping, joined by a comma and a space. *)
Lemma format_elements_mapM (xs : list atom) (values : list string) :
  format_elements xs values = (ss ← mapM format_element xs; Ok (values ++ ss)).
Proof.
  revert values. induction xs as [|x xs IH]; intros values; cbn [format_elements mapM].
  - cbn. by rewrite app_nil_r.
  - destruct (format_element x) as [s| |]; cbn [mbind result_bind]; [|done..].
    rewrite IH. destruct (mapM format_element xs) as [ss| |]; cbn; [|done..].
    by rewrite <- app_assoc.
Qed.

Lemma format_item_sequence (key : string) (k : seq_kind) (xs : list atom)
    (out : list string) :
  format_item key (VSeq k xs) out
  = (ss ← mapM format_element xs;
     Ok (out ++ [tab +:+ tab +:+ key +:+ "={" +:+ join ", " ss +:+ "}," +:+ nl])).
Proof.
  unfold format_item. rewrite format_elements_mapM.
  by destruct (mapM format_element xs).
Qed.

(** ** Empty sequences *)

(** C10, amended: a source field whose value is an empty sequence is
    not skipped by the projection, only [None] and the empty string
    are: the output record has the key of a spec that is the only one
    to write it, bound to the result of the transform when one is
    declared and to the empty sequence itself otherwise.  When the
    value bound is an empty sequence its entry is [key={},], and the
    text of the serialiser has this entry. *)
Theorem C10_empty_sequence_kept (row : record) (keys : list field_spec)
    (out_data : list record) (i : nat) (spec : field_spec) (k : seq_kind) :
  Forall (readable row) keys →
  keys !! i = Some spec →
  sole_writer keys i →
  get row spec.1 = Some (VSeq k []) →
  is_copied (VSeq k []) = true ∧
  ∃ copyrow v',
    _copy_from_keys row keys out_data None = Ok (out_data ++ [copyrow]) ∧
    transformed spec.2 (VSeq k []) = Ok v' ∧
    get copyrow (cd_key spec.2) = Some v' ∧
    (cd_value spec.2 = None → v' = VSeq k []) ∧
    (∀ k', v' = VSeq k' [] →
       (∀ out, format_item (cd_key spec.2) v' out
               = Ok (out ++ [tab +:+ tab +:+ cd_key spec.2 +:+ "={}," +:+ nl])) ∧
       (∀ text, lua_formatter (out_data ++ [copyrow]) = Ok text →
          ∃ before after,
            text = before +:+ (tab +:+ tab +:+ cd_key spec.2 +:+ "={}," +:+ nl)
                     +:+ after)).
Proof.
  intros Hread Hi Hsole Hv. split; [done|].
  destruct (copy_fields_returns row keys [] Hread) as [copyrow Hrun].
  pose proof (copy_fields_sole_writer _ _ _ _ _ _ Hrun Hi Hsole Hv) as Hspec.
  cbn in Hspec. destruct Hspec as (v' & Ht & Hget).
  exists copyrow, v'. unfold _copy_from_keys. rewrite Hrun. split_and!; [done..| |].
  - unfold transformed in Ht. intros Hnone. rewrite Hnone in Ht. by injection Ht as <-.
  - intros k' ->. split; [done|]. intros text Htext.
    destruct (lua_formatter_entry _ _ copyrow (cd_key spec.2) (VSeq k' []) Htext)
      as (line & before & after & Hline & ->).
    { apply elem_of_app. right. left. }
    { by apply get_Some_elem_of. }
    exists before, after. specialize (Hline []). cbn in Hline. by injection Hline as <-.
Qed.

(** ** Inputs on which the claims as worded fail *)

(** C2 as worded fails when two specs write one output key: the value
    at the source field of the first spec is [None], and the output
    record still has an entry for its output key, written by the
    second. *)
Lemma C2_counterexample_shared_output_key :
  clashing_keys !! 0%nat = Some ("HintText", {| cd_key := "name"; cd_value := None |})
  ∧ get sample_row "HintText" = Some (VAtom ANone)
  ∧ _copy_from_keys sample_row clashing_keys [] None
    = Ok [[("name", VAtom (AStr "Wolf"))]]
  ∧ get [("name", VAtom (AStr "Wolf"))] "name" ≠ None.
Proof. split_and!; done. Qed.

(** C10 as worded fails for the tags of [MonsterParser._DATA]: the
    empty sequence is not skipped, but the transform joins it to the
    empty string, and the entry is a pair of double quotes, not an
    empty bracketed list. *)
Lemma C10_counterexample_joined_tags :
  sample_keys !! 2%nat
    = Some ("TagsKeys", {| cd_key := "tags"; cd_value := Some (tags_value sample_Id) |})
  ∧ get sample_row "TagsKeys" = Some (VSeq KList [])
  ∧ _copy_from_keys sample_row sample_keys [] None
    = Ok [[("id", VAtom (AStr "Wolf")); ("tags", VAtom (AStr ""));
           ("mod_ids", VSeq KList [])]]
  ∧ format_item "tags" (VAtom (AStr "")) []
    = Ok [tab +:+ tab +:+ "tags=" +:+ String dquote (String dquote ("," +:+ nl))]
  ∧ tab +:+ tab +:+ "tags=" +:+ String dquote (String dquote ("," +:+ nl))
    ≠ tab +:+ tab +:+ "tags={}," +:+ nl.
Proof. split_and!; done. Qed.

(** C8 as worded fails when the hardcoded quest is not in the quest
    table: row 0 has no item and is a row the claim covers, but its
    state is 385 and no quest state holds it, so the quest is looked
    up first and the lookup raises [KeyError]; no warning is given
    for the row, and the run ends there, row 1 is not processed. *)
Lemma C8_counterexample_quest_a6q4_missing :
  left_out sample_rr_without_a6q4 (sample_vendor_row 0 385 [] ["A"])
  ∧ ¬ left_out sample_rr_without_a6q4 (sample_vendor_row 1 7 [sample_item] ["A"])
  ∧ Quest_by_Id sample_rr_without_a6q4 "a6q4" = Raise (KeyError "a6q4")
  ∧ read_vendor_rewards sample_rr_without_a6q4 = ([], Raise (KeyError "a6q4")).
Proof.
  split_and!; [by right | | done | done].
  intros [[Hnone _]|Hitems]; [|done]. by vm_compute in Hnone.
Qed.

(** ** The vendor export on the sample repository *)

(** Rows 0 and 3 share quest and item: their classes B and A are merged
    and, C being a class too, kept, sorted; rows 1 and 2 are reported. *)
Example read_vendor_rewards_sample :
  read_vendor_rewards sample_rr
  = ([NoQuestAssociated 1 9 "Nessa" ["Two-Stone Ring"]; NoItemsFound 2],
     Ok {| text :=
             "local data = {" +:+ nl
             +:+ tab +:+ "{" +:+ nl
             +:+ tab +:+ tab +:+ "quest="
                 +:+ String dquote "Enemy at the Gate" +:+ String dquote "," +:+ nl
             +:+ tab +:+ tab +:+ "quest_id="
                 +:+ String dquote "a1q1" +:+ String dquote "," +:+ nl
             +:+ tab +:+ tab +:+ "act=1," +:+ nl
             +:+ tab +:+ tab +:+ "reward="
                 +:+ String dquote "Two-Stone Ring" +:+ String dquote "," +:+ nl
             +:+ tab +:+ tab +:+ "npc="
                 +:+ String dquote "Nessa" +:+ String dquote "," +:+ nl
             +:+ tab +:+ tab +:+ "classes="
                 +:+ String dquote ("A" +:+ String _UNIT_SEP "B")
                 +:+ String dquote "," +:+ nl
             +:+ tab +:+ "}," +:+ nl
             +:+ nl +:+ "}" +:+ nl +:+ "return data";
           out_file := "vendor_rewards.txt";
           wiki_page := "Module:Quest reward/data/vendor" |}).
Proof. by vm_compute. Qed.

(** ** The claims on sample data *)

Lemma sample_row_readable : Forall (readable sample_row) sample_keys.
Proof.
  repeat (apply Forall_cons; split;
          [eexists; split; [reflexivity | intros _; eexists; reflexivity] |]).
  apply Forall_nil_2.
Qed.

Lemma sample_keys_sole_writer (i : nat) : sole_writer sample_keys i.
Proof.
  intros j si sj Hi Hj Hne.
  destruct i as [|[|[|[|i]]]]; try done; injection Hi as <-;
    destruct j as [|[|[|[|j]]]]; try done; injection Hj as <-; done.
Qed.

(** The classes B then A, with A, B and C known, become A then B: as
    one record, and as two records of one key merged in either
    order. *)
Lemma C1_witness_B_then_A :
  let classes_set : gset string := {[ "A"; "B"; "C" ]} in
  let v : record :=
    [("quest", VAtom (AStr "Enemy at the Gate"));
     ("classes", VAtom (AStr ("B" +:+ String _UNIT_SEP "A")))] in
  let first : record :=
    [("quest", VAtom (AStr "Enemy at the Gate")); ("classes", VAtom (AStr "B"))] in
  let later : record :=
    [("quest", VAtom (AStr "Enemy at the Gate")); ("classes", VAtom (AStr "A"))] in
  prune_classes classes_set v
  = Ok [("quest", VAtom (AStr "Enemy at the Gate"));
        ("classes", VAtom (AStr ("A" +:+ String _UNIT_SEP "B")))]
  ∧ (∃ v',
      prune_classes classes_set v = Ok v' ∧
      (get v' "classes" = None
       ↔ list_to_set (split _UNIT_SEP (join (String _UNIT_SEP "") ["B"; "A"]))
         = classes_set))
  ∧ ∃ compress' rep pruned,
      (compress1 ← vendor_merge [] "a1q1Ring12" first;
       vendor_merge compress1 "a1q1Ring12" later) = Ok compress' ∧
      get compress' "a1q1Ring12" = Some rep ∧
      prune_classes classes_set rep = Ok pruned ∧
      get pruned "classes" = Some (VAtom (AStr ("A" +:+ String _UNIT_SEP "B"))).
Proof.
  intros classes_set v first later. split; [by vm_compute|].
  destruct (C1_prune_classes classes_set v ["B"; "A"])
    as (v' & Hrun & Hdrop & _ & _ & _ & Hmerge).
  - done.
  - intros n Hn. unfold classes_set.
    rewrite !elem_of_union, !elem_of_singleton.
    apply elem_of_cons in Hn as [->|Hn]; [auto|].
    apply list_elem_of_singleton in Hn as ->. auto.
  - reflexivity.
  - split; [by exists v'|].
    destruct (Hmerge [] "a1q1Ring12" first later ["B"] ["A"])
      as (compress' & rep & pruned & Hrun' & Hrep & Hcls & _ & Hpruned & _ & _);
      [done..|].
    exists compress', rep, pruned. split_and!; [done..|].
    cbn [mbind result_bind] in Hrun'. injection Hrun' as <-.
    injection Hrep as <-. by injection Hpruned as <-.
Defined.

(** The header of the sample row is [None]: no entry. *)
Lemma C2_witness_header_absent :
  ∃ copyrow,
    _copy_from_keys sample_row sample_keys [] None = Ok ([] ++ [copyrow]) ∧
    get copyrow "header" = None.
Proof.
  destruct (C2_sparse_projection sample_row sample_keys [] 1
              ("HintText", {| cd_key := "header"; cd_value := None |}) (VAtom ANone)
              sample_row_readable eq_refl (sample_keys_sole_writer 1) eq_refl)
    as (copyrow & Hrun & Hskip & _).
  exists copyrow. split; [exact Hrun | apply Hskip; by left].
Defined.

(** The order of the three records of the specification. *)
Lemma C3_witness_three_records :
  Forall reward_record sample_rewards
  ∧ ∃ ordered,
      pre_sort sample_rewards = Ok ordered ∧
      ordered = [sample_reward 1 "q1" "z"; sample_reward 1 "q2" "y";
                 sample_reward 2 "q1" "x"] ∧
      StronglySorted (λ a b, triple_le (sort_triple a) (sort_triple b)) ordered.
Proof.
  assert (Forall reward_record sample_rewards) as Hall.
  { repeat (apply Forall_cons; split;
            [split_and!; eexists; reflexivity|]). apply Forall_nil_2. }
  split; [exact Hall|].
  destruct (C3_pre_sort_lexicographic sample_rewards Hall)
    as (ordered & Hrun & _ & Hsorted & _).
  exists ordered. split_and!; [exact Hrun | | exact Hsorted].
  vm_compute in Hrun. by injection Hrun as <-.
Defined.

(** Index 0 of a one-record output merges, index 1 appends. *)
Lemma C5_witness_merge_and_append :
  let out_data : list record := [[("id", VAtom (AStr "Bear")); ("level", VAtom (AInt 4))]] in
  _copy_from_keys sample_row sample_keys out_data (Some 1%Z)
  = Ok (out_data ++ [[("id", VAtom (AStr "Wolf")); ("tags", VAtom (AStr ""));
                      ("mod_ids", VSeq KList [])]])
  ∧ ∃ d',
      _copy_from_keys sample_row sample_keys out_data (Some 0%Z)
      = Ok (<[0%nat := d']> out_data)
      ∧ get d' "id" = Some (VAtom (AStr "Wolf"))
      ∧ get d' "level" = Some (VAtom (AInt 4)).
Proof.
  intros out_data.
  destruct (C5_positional_index sample_row sample_keys out_data 1 sample_row_readable)
    as (copyrow1 & Hcopy1 & Happend & _).
  destruct (C5_positional_index sample_row sample_keys out_data 0 sample_row_readable)
    as (copyrow & Hcopy & _ & Hmerge).
  injection Hcopy1 as <-. injection Hcopy as <-.
  split; [apply Happend; cbn; lia|].
  destruct (Hmerge [("id", VAtom (AStr "Bear")); ("level", VAtom (AInt 4))])
    as (d' & Hrun & Hover & Hkeep & _); [lia | reflexivity |].
  exists d'. split_and!; [exact Hrun | |].
  - rewrite Hover; [reflexivity|]. apply elem_of_cons. by left.
  - rewrite Hkeep; [reflexivity|]. cbn. rewrite !not_elem_of_cons.
    split_and!; [done..|]. apply not_elem_of_nil.
Defined.

(** A later quest reward without a character, for a group with classes. *)
Lemma C6_witness_quest_reward_without_character :
  quest_merge sample_compress "a1q1Ring120" sample_classless None = Raise TypeError
  ∧ vendor_merge sample_compress "a1q1Ring120" sample_classless = Ok sample_compress.
Proof.
  exact (C6_quest_merge_raises_without_class sample_compress "a1q1Ring120"
           sample_classless
           [("quest", VAtom (AStr "Enemy at the Gate"));
            ("classes", VAtom (AStr "Marauder"))]
           (VAtom (AStr "Marauder")) eq_refl eq_refl eq_refl).
Defined.

(** Rows 1 and 2 of the sample repository are reported and left out. *)
Lemma C8_witness_two_rows_left_out :
  returns (Quest_by_Id sample_rr "a6q4")
  ∧ (read_vendor_rewards sample_rr).1
    = [NoQuestAssociated 1 9 "Nessa" ["Two-Stone Ring"]; NoItemsFound 2]
  ∧ (read_vendor_rewards sample_rr).2
    = (read_vendor_rewards
         (with_vendor_rows sample_rr
            [sample_vendor_row 0 7 [sample_item] ["B"];
             sample_vendor_row 3 7 [sample_item] ["A"]])).2.
Proof.
  assert (returns (Quest_by_Id sample_rr "a6q4")) as Hq by (by eexists).
  destruct (C8_rows_left_out_warn sample_rr Hq) as (_ & _ & Hsame & Hwarn).
  split_and!; [exact Hq | | exact Hsame].
  rewrite Hwarn; [reflexivity|]. by eexists.
Defined.

(** The sample row appended to an empty output. *)
Lemma C9_witness_append :
  ∃ copyrow out_data',
    _copy_from_keys sample_row sample_keys [] None = Ok out_data' ∧
    copy_fields sample_row sample_keys [] = Ok copyrow ∧
    out_data' = [] ++ [copyrow] ∧
    length out_data' = 1.
Proof.
  destruct (C9_append_without_index sample_row sample_keys [] sample_row_readable)
    as (copyrow & out_data' & Hrun & Hcopy & Heq & Hlen & _).
  by exists copyrow, out_data'.
Defined.

(** The mods of the sample row are an empty list: [mod_ids={},]. *)
Lemma C10_witness_empty_mods :
  ∃ copyrow,
    _copy_from_keys sample_row sample_keys [] None = Ok ([] ++ [copyrow]) ∧
    get copyrow "mod_ids" = Some (VSeq KList []) ∧
    ∀ out, format_item "mod_ids" (VSeq KList []) out
           = Ok (out ++ [tab +:+ tab +:+ "mod_ids" +:+ "={}," +:+ nl]).
Proof.
  destruct (C10_empty_sequence_kept sample_row sample_keys [] 3
              ("ModsKeys", {| cd_key := "mod_ids"; cd_value := None |}) KList
              sample_row_readable eq_refl (sample_keys_sole_writer 3) eq_refl)
    as (_ & copyrow & v' & Hrun & _ & Hget & Hnone & Hentry).
  specialize (Hnone eq_refl). subst v'.
  exists copyrow. split_and!; [exact Hrun | exact Hget |].
  destruct (Hentry KList eq_refl) as [Hitem _]. exact Hitem.
Defined.

(** * Further properties *)

(** ** The serialiser on all values *)

Lemma format_elements_ref_free (xs : list atom) (values : list string) :
  Forall (λ a, ∀ table n, a ≠ ARef table n) xs →
  returns (format_elements xs values).
Proof.
  intros Hxs. revert values. induction Hxs as [|a xs Ha _ IH]; intros values.
  - by eexists.
  - cbn [format_elements]. unfold format_element.
    destruct a as [|[]| | | |t n]; cbn; try apply IH. by destruct (Ha t n).
Qed.

Lemma format_item_ref_free (key : string) (v : value) (out : list string) :
  ref_free v →
  if decide (v = VAtom ANone) then format_item key v out = Raise AttributeError
  else returns (format_item key v out).
Proof.
  intros Hv. destruct v as [a|k xs].
  - destruct a as [|[]| | | |t n]; cbn; try done; by eexists.
  - rewrite decide_False by done. unfold format_item.
    destruct (format_elements_ref_free xs [] Hv) as [values ->]. by eexists.
Qed.

Lemma format_items_ref_free (items : record) (out : list string) :
  Forall (λ kv, ref_free kv.2) items →
  (Exists (λ kv, kv.2 = VAtom ANone) items → format_items items out = Raise AttributeError)
  ∧ (Forall (λ kv, kv.2 ≠ VAtom ANone) items → returns (format_items items out)).
Proof.
  intros Hfree. revert out. induction Hfree as [|[key v] items Hv _ IH]; intros out.
  - split; [by intros ?%Exists_nil | by eexists].
  - cbn [format_items]. pose proof (format_item_ref_free key v out Hv) as Hitem.
    destruct (decide (v = VAtom ANone)) as [->|Hne].
    + rewrite Hitem. split; [done|]. intros [? _]%Forall_cons. done.
    + destruct Hitem as [out' ->]. cbn [mbind result_bind]. split.
      * intros [?|?]%Exists_cons; [done | by apply IH].
      * intros [_ ?]%Forall_cons. by apply IH.
Qed.

Lemma format_records_ref_free (outdata : list record) (out : list string) :
  Forall (Forall (λ kv, ref_free kv.2)) outdata →
  (Exists (Exists (λ kv, kv.2 = VAtom ANone)) outdata
     → format_records outdata out = Raise AttributeError)
  ∧ (Forall (Forall (λ kv, kv.2 ≠ VAtom ANone)) outdata
     → returns (format_records outdata out)).
Proof.
  intros Hfree. revert out. induction Hfree as [|data outdata Hd _ IH]; intros out.
  - split; [by intros ?%Exists_nil | by eexists].
  - cbn [format_records]. unfold format_record.
    destruct (format_items_ref_free data (out ++ [tab +:+ "{" +:+ nl]) Hd) as [Hbad Hgood].
    destruct (decide (Exists (λ kv : string * value, kv.2 = VAtom ANone) data)) as [Hex|Hnex].
    + rewrite (Hbad Hex). split; [done|]. intros [Hall _]%Forall_cons. exfalso.
      apply Exists_exists in Hex as (kv & Hin & Hkv). rewrite Forall_forall in Hall.
      by apply (Hall kv).
    + destruct Hgood as [out' ->].
      { apply Forall_forall. intros kv Hin Hkv. apply Hnex, Exists_exists. eauto. }
      cbn [mbind result_bind]. split.
      * intros [?|?]%Exists_cons; [done | by apply IH].
      * intros [_ ?]%Forall_cons. by apply IH.
Qed.

(** X1: on records without row objects, [lua_formatter] raises
    [AttributeError] when some field is [None] (the text branch calls
    [value.replace]) and returns a text when no field is. *)
Theorem X1_lua_formatter_None_field (outdata : list record) :
  Forall (Forall (λ kv, ref_free kv.2)) outdata →
  (Exists (Exists (λ kv, kv.2 = VAtom ANone)) outdata
     → lua_formatter outdata = Raise AttributeError)
  ∧ (Forall (Forall (λ kv, kv.2 ≠ VAtom ANone)) outdata
     → returns (lua_formatter outdata)).
Proof.
  intros Hfree. unfold lua_formatter.
  destruct (format_records_ref_free outdata [table_open] Hfree) as [Hbad Hgood].
  change ["local data = {" +:+ nl] with [table_open]. split.
  - intros Hex. by rewrite (Hbad Hex).
  - intros Hall. destruct (Hgood Hall) as [out ->]. by eexists.
Qed.

Lemma escaped_head_not_dquote (s e : string) : escaped s ≠ String dquote e.
Proof.
  intros H. destruct (escaped_dquote_after_backslash s 0) as (j & Hj & _); [|done].
  by rewrite H.
Qed.

Lemma escaped_inj (s1 s2 : string) : escaped s1 = escaped s2 → s1 = s2.
Proof.
  revert s2. induction s1 as [|c1 s1 IH]; intros [|c2 s2]; rewrite ?escaped_cons.
  - done.
  - by destruct (decide (c2 = dquote)).
  - by destruct (decide (c1 = dquote)).
  - destruct (decide (c1 = dquote)) as [->|H1], (decide (c2 = dquote)) as [->|H2].
    + intros [= H]. f_equal. by apply IH.
    + intros [= <- H]. symmetry in H. by apply escaped_head_not_dquote in H.
    + intros [= -> H]. by apply escaped_head_not_dquote in H.
    + intros [= -> H]. f_equal. by apply IH.
Qed.

(** X2: the escaping of [lua_formatter], the [replace] of every double
    quote by backslash and double quote, loses nothing: two different
    strings never get the same escaped text. *)
Theorem X2_escaping_injective (s1 s2 : string) :
  replace dquote (String backslash (String dquote "")) s1
  = replace dquote (String backslash (String dquote "")) s2 →
  s1 = s2.
Proof. rewrite !replace_dquote_escaped. apply escaped_inj. Qed.

(** ** Records are serialised one after the other *)

Lemma format_items_shift (items : record) (out out' : list string) :
  format_items items out = Ok out' →
  ∃ lines, out' = out ++ lines ∧ ∀ o, format_items items o = Ok (o ++ lines).
Proof.
  revert out. induction items as [|[key v] items IH]; intros out; cbn [format_items].
  - intros [= <-]. exists []. split; [by rewrite app_nil_r|]. intros o. by rewrite app_nil_r.
  - destruct (format_item key v out) as [out1| |] eqn:Hitem; cbn; [|done..].
    intros Hrest. destruct (format_item_line _ _ _ _ Hitem) as (line & -> & Hline).
    destruct (IH _ Hrest) as (lines & -> & Hlines).
    exists (line :: lines). split; [by rewrite <- app_assoc|].
    intros o. rewrite Hline. cbn [mbind result_bind]. rewrite Hlines.
    by rewrite <- app_assoc.
Qed.

Lemma format_records_shift (outdata : list record) (out out' : list string) :
  format_records outdata out = Ok out' →
  ∃ lines, out' = out ++ lines ∧ ∀ o, format_records outdata o = Ok (o ++ lines).
Proof.
  revert out. induction outdata as [|data outdata IH]; intros out; cbn [format_records].
  - intros [= <-]. exists []. split; [by rewrite app_nil_r|]. intros o. by rewrite app_nil_r.
  - unfold format_record.
    destruct (format_items data _) as [out1| |] eqn:Hitems; cbn; [|done..].
    intros Hrest. destruct (format_items_shift _ _ _ Hitems) as (lines1 & -> & Hlines1).
    destruct (IH _ Hrest) as (lines & -> & Hlines).
    exists ([tab +:+ "{" +:+ nl] ++ lines1 ++ [tab +:+ "}," +:+ nl] ++ lines).
    split; [by rewrite <- !app_assoc|].
    intros o. rewrite Hlines1. cbn [mbind result_bind]. rewrite Hlines.
    by rewrite <- !app_assoc.
Qed.

Lemma format_records_app (a b : list record) (out : list string) :
  format_records (a ++ b) out = (o ← format_records a out; format_records b o).
Proof.
  revert out. induction a as [|data a IH]; intros out; [done|].
  cbn [app format_records]. destruct (format_record data out); cbn; [apply IH|done..].
Qed.

(** X3: [lua_formatter] serialises the records one after the other.
    When two lists of records both serialise, the text of their
    concatenation is the opening, the blocks of the first, the blocks
    of the second and the closing; and an exception on the first list
    is the exception on the concatenation. *)
Theorem X3_lua_formatter_app (a b : list record) :
  (∀ ta tb, lua_formatter a = Ok ta → lua_formatter b = Ok tb →
     ∃ blocks_a blocks_b,
       ta = table_open +:+ blocks_a +:+ table_close ∧
       tb = table_open +:+ blocks_b +:+ table_close ∧
       lua_formatter (a ++ b)
       = Ok (table_open +:+ blocks_a +:+ blocks_b +:+ table_close))
  ∧ (∀ e, lua_formatter a = Raise e → lua_formatter (a ++ b) = Raise e).
Proof.
  unfold lua_formatter. change ["local data = {" +:+ nl] with [table_open]. split.
  - intros ta tb Ha Hb.
    destruct (format_records a [table_open]) as [oa| |] eqn:Hra; cbn in Ha; [|done..].
    destruct (format_records b [table_open]) as [ob| |] eqn:Hrb; cbn in Hb; [|done..].
    injection Ha as <-. injection Hb as <-.
    destruct (format_records_shift _ _ _ Hra) as (la & -> & Hla).
    destruct (format_records_shift _ _ _ Hrb) as (lb & -> & Hlb).
    exists (join "" la), (join "" lb).
    rewrite format_records_app, Hla. cbn [mbind result_bind]. rewrite Hlb.
    cbn [mbind result_bind]. unfold table_close.
    repeat first [rewrite join_empty_app | rewrite join_empty_cons].
    change (join "" []) with "". by autorewrite with str_norm.
  - intros e Ha. rewrite format_records_app.
    destruct (format_records a [table_open]) as [oa| |]; cbn in Ha |- *; [done|by injection Ha as <-|done].
Qed.

(** ** The one-entry formatter *)

Lemma escaped_fixed (s : string) :
  escaped s = s ↔ dquote ∉ list_ascii_of_string s.
Proof.
  induction s as [|c s IH]; [split; [intros _; apply not_elem_of_nil | done]|].
  rewrite escaped_cons. cbn [list_ascii_of_string]. rewrite not_elem_of_cons.
  destruct (decide (c = dquote)) as [->|Hc].
  - split; [intros [= ? _]; done | intros [? _]; done].
  - split; [intros [= H]; split; [congruence | by apply IH]
           | intros [_ H]; f_equal; by apply IH].
Qed.

Lemma append_inv_tail (a b c : string) : a +:+ c = b +:+ c → a = b.
Proof.
  intros H. apply (f_equal list_ascii_of_string) in H.
  rewrite !list_ascii_of_string_app in H. apply app_inv_tail in H.
  by rewrite <- (string_of_list_ascii_of_string a), H, string_of_list_ascii_of_string.
Qed.

(** X4: [lua_format_value] writes the entry [lua_formatter] writes for
    every integer, and for a string exactly when the string has no
    double quote: it does not escape. *)
Theorem X4_lua_format_value_agrees (key : string) :
  (∀ a, isinstance_int a = true →
     format_item key (VAtom a) [] = (line ← lua_format_value key (VAtom a); Ok [line]))
  ∧ (∀ s, format_item key (VAtom (AStr s)) []
          = (line ← lua_format_value key (VAtom (AStr s)); Ok [line])
          ↔ dquote ∉ list_ascii_of_string s).
Proof.
  split.
  - intros a Ha. by destruct a as [|[]| | | |].
  - intros s. rewrite <- escaped_fixed. cbn. rewrite replace_dquote_escaped. split.
    + intros [= H]. apply (inj (String.append key)) in H.
      rewrite !append_cons, !append_nil_l in H. injection H as H.
      by apply append_inv_tail in H.
    + by intros ->.
Qed.

(** ** The projection: errors, indices, key order *)

(** X5: when the row lacks the source field of a spec, and the specs
    before it can be read, [_copy_from_keys] raises [KeyError] for
    that field, whatever the index, and writes nothing. *)
Theorem X5_missing_source_field (row : record) (pre post : list field_spec)
    (k : string) (cd : copy_data) (out_data : list record) (index : option Z) :
  Forall (readable row) pre →
  get row k = None →
  _copy_from_keys row (pre ++ (k, cd) :: post) out_data index = Raise (KeyError k).
Proof.
  intros Hpre Hk. unfold _copy_from_keys. rewrite copy_fields_app.
  destruct (copy_fields_returns row pre [] Hpre) as [r ->].
  cbn [mbind result_bind copy_fields]. unfold getitem. by rewrite Hk.
Qed.

(** X6: a negative index counts from the end, as in Python: within
    range the projected fields are merged into that record, and below
    the range the projected record is appended. *)
Theorem X6_negative_index (row : record) (keys : list field_spec)
    (out_data : list record) (i : Z) :
  Forall (readable row) keys →
  (i < 0)%Z →
  ∃ copyrow,
    copy_fields row keys [] = Ok copyrow ∧
    ((i < - Z.of_nat (length out_data))%Z →
       _copy_from_keys row keys out_data (Some i) = Ok (out_data ++ [copyrow])) ∧
    (∀ d, (- Z.of_nat (length out_data) ≤ i)%Z →
       out_data !! Z.to_nat (Z.of_nat (length out_data) + i) = Some d →
       _copy_from_keys row keys out_data (Some i)
       = Ok (<[Z.to_nat (Z.of_nat (length out_data) + i) := update d copyrow]> out_data)).
Proof.
  intros Hread Hneg. destruct (copy_fields_returns row keys [] Hread) as [copyrow Hrun].
  exists copyrow. split; [done|]. unfold _copy_from_keys, list_index. rewrite Hrun.
  cbn [mbind result_bind]. rewrite decide_False by lia. split.
  - intros Hlow. by rewrite decide_False by lia.
  - intros d Hin Hd. rewrite decide_True by lia. by rewrite Hd.
Qed.

Lemma copy_fields_key_order (row : record) (keys : list field_spec)
    (acc copyrow : record) :
  copy_fields row keys acc = Ok copyrow →
  NoDup (acc.*1 ++ (cd_key <$> keys.*2)) →
  copyrow.*1 = acc.*1 ++ (cd_key <$> (filter (λ spec, field_copied row spec = true) keys).*2).
Proof.
  revert acc. induction keys as [|[k cd] keys IH]; intros acc Hrun Hnd.
  - cbn in Hrun. injection Hrun as <-. by rewrite app_nil_r.
  - cbn [copy_fields] in Hrun. unfold getitem in Hrun.
    destruct (get row k) as [v|] eqn:Hget; [|done].
    cbn [mbind result_bind] in Hrun.
    assert (field_copied row (k, cd) = is_copied v) as Hfc.
    { unfold field_copied. cbn [fst]. by rewrite Hget. }
    rewrite filter_cons.
    rewrite !fmap_cons in Hnd. cbn [snd] in Hnd.
    apply NoDup_app in Hnd as (Hacc & Hdisj & Hkeys).
    apply NoDup_cons in Hkeys as [Hk Hkeys].
    destruct (is_copied v).
    + destruct (transformed cd v) as [v'| |]; cbn in Hrun; [|done..].
      rewrite decide_True by done. rewrite !fmap_cons. cbn [snd].
      rewrite (IH _ Hrun).
      * rewrite keys_setitem, decide_False; [by rewrite <- app_assoc|].
        intros Hin. apply (Hdisj _ Hin). left.
      * rewrite keys_setitem, decide_False by (intros Hin; apply (Hdisj _ Hin); left).
        rewrite <- app_assoc. apply NoDup_app. split_and!; [done| |by constructor].
        intros x Hx. apply Hdisj. done.
    + rewrite decide_False by (by rewrite Hfc). apply (IH _ Hrun).
      apply NoDup_app. split_and!; [done| |done].
      intros x Hx Hin. apply (Hdisj _ Hx). by right.
Qed.

(** X7: with pairwise distinct output keys, the keys of the projected
    record are the output keys of the specs whose value is copied, in
    the order of the field specs. *)
Theorem X7_projected_key_order (row : record) (keys : list field_spec)
    (out_data : list record) :
  Forall (readable row) keys →
  NoDup (cd_key <$> keys.*2) →
  ∃ copyrow,
    _copy_from_keys row keys out_data None = Ok (out_data ++ [copyrow]) ∧
    copyrow.*1 = cd_key <$> (filter (λ spec, field_copied row spec = true) keys).*2.
Proof.
  intros Hread Hnd. destruct (copy_fields_returns row keys [] Hread) as [copyrow Hrun].
  exists copyrow. unfold _copy_from_keys. rewrite Hrun. split; [done|].
  by apply (copy_fields_key_order _ _ [] _ Hrun).
Qed.

Lemma setitem_same {V} (d : odict V) (k : string) (v : V) :
  get d k = Some v → setitem d k v = d.
Proof.
  induction d as [|[k' v'] d IH]; [done|]. cbn [get setitem].
  destruct (decide (k' = k)) as [->|]; [by intros [= ->]|].
  intros H. by rewrite IH.
Qed.

Lemma update_same {V} (d o : odict V) :
  (∀ k v, (k, v) ∈ o → get d k = Some v) → update d o = d.
Proof.
  unfold update. induction o as [|[k v] o IH]; intros Ho; [done|].
  cbn [foldl fst snd]. rewrite setitem_same by (apply Ho; left).
  apply IH. intros k' v' Hin. apply Ho. by right.
Qed.

Lemma get_elem_of_NoDup {V} (d : odict V) (k : string) (v : V) :
  NoDup d.*1 → (k, v) ∈ d → get d k = Some v.
Proof.
  induction d as [|[k' v'] d IH]; [by intros _ ?%elem_of_nil|].
  rewrite fmap_cons. intros [Hk' Hnd]%NoDup_cons [[= -> ->]|Hin]%elem_of_cons; cbn [get].
  - by rewrite decide_True.
  - rewrite decide_False; [by apply IH|]. intros ->. apply Hk'.
    apply list_elem_of_fmap. by exists (k, v).
Qed.

Lemma update_update {V} (d o : odict V) :
  NoDup o.*1 → update (update d o) o = update d o.
Proof.
  intros Hnd. apply update_same. intros k v Hin.
  rewrite get_update_in; [by apply get_elem_of_NoDup | done |].
  apply list_elem_of_fmap. by exists (k, v).
Qed.

(** X8: merging by index is idempotent: repeating the call with the
    same row, specs and index within range changes nothing more. *)
Theorem X8_merge_idempotent (row : record) (keys : list field_spec)
    (out_data out_data' : list record) (i : Z) :
  (0 ≤ i < Z.of_nat (length out_data))%Z →
  _copy_from_keys row keys out_data (Some i) = Ok out_data' →
  _copy_from_keys row keys out_data' (Some i) = Ok out_data'.
Proof.
  intros Hi. unfold _copy_from_keys, list_index.
  destruct (copy_fields row keys []) as [copyrow| |] eqn:Hrun; cbn; [|done..].
  rewrite !decide_True by lia.
  destruct (out_data !! Z.to_nat i) as [d|] eqn:Hd; cycle 1.
  { apply lookup_ge_None in Hd. lia. }
  intros [= <-]. rewrite length_insert, !decide_True by lia.
  rewrite list_lookup_insert_eq by lia.
  rewrite list_insert_insert_eq. rewrite update_update; [done|].
  by apply (copy_fields_NoDup _ _ _ _ Hrun), NoDup_nil.
Qed.

(** ** The loops of the main functions *)

Lemma _copy_from_keys_append (row : record) (keys : list field_spec)
    (out_data : list record) (rec : record) :
  copy_fields row keys [] = Ok rec →
  _copy_from_keys row keys out_data None = Ok (out_data ++ [rec]).
Proof. intros H. unfold _copy_from_keys. by rewrite H. Qed.

Lemma copy_rows_projections (keys : list field_spec) (rows : list record)
    (out_data : list record) :
  Forall (λ row, Forall (readable row) keys) rows →
  ∃ recs,
    copy_rows keys rows out_data = Ok (out_data ++ recs) ∧
    Forall2 (λ row rec, copy_fields row keys [] = Ok rec) rows recs.
Proof.
  intros Hrows. revert out_data.
  induction Hrows as [|row rows Hrow _ IH]; intros out_data.
  - exists []. by rewrite app_nil_r.
  - destruct (copy_fields_returns row keys [] Hrow) as [rec Hrec].
    destruct (IH (out_data ++ [rec])) as (recs & Hrun & Hall).
    exists (rec :: recs). unfold copy_rows in *. cbn [for_each].
    rewrite (_copy_from_keys_append _ _ _ _ Hrec). cbn [mbind result_bind].
    rewrite Hrun, <- app_assoc. split; [done | by constructor].
Qed.

(** X9: the loop [for row in rows: _copy_from_keys(row, keys, out)]
    over rows that can all be read appends one record per row, in row
    order: the projection of that row. *)
Theorem X9_copy_rows_one_per_row (keys : list field_spec) (rows : list record)
    (out_data : list record) :
  Forall (λ row, Forall (readable row) keys) rows →
  ∃ recs,
    copy_rows keys rows out_data = Ok (out_data ++ recs) ∧
    Forall2 (λ row rec, copy_fields row keys [] = Ok rec) rows recs ∧
    length recs = length rows.
Proof.
  intros Hrows.
  destruct (copy_rows_projections keys rows out_data Hrows) as (recs & Hrun & Hall).
  exists recs. split_and!; [done..|]. symmetry. by eapply Forall2_length.
Qed.

Lemma lockstep_nil_l (recs : list record) : lockstep [] recs = recs.
Proof. by destruct recs. Qed.

Lemma lockstep_nil_r (out_data : list record) : lockstep out_data [] = out_data.
Proof. by destruct out_data. Qed.

Lemma length_lockstep (out_data recs : list record) :
  length (lockstep out_data recs) = length out_data `max` length recs.
Proof.
  revert recs. induction out_data as [|d out_data IH]; intros [|c recs]; cbn; try lia.
  by rewrite IH.
Qed.

Lemma lookup_lockstep (out_data recs : list record) (i : nat) :
  lockstep out_data recs !! i
  = match out_data !! i, recs !! i with
    | Some d, Some c => Some (update d c)
    | Some d, None => Some d
    | None, o => o
    end.
Proof.
  revert recs i. induction out_data as [|d out_data IH]; intros [|c recs] [|i]; cbn;
    try done; try by destruct (out_data !! i).
Qed.

Lemma copy_rows_enumerated_from (keys : list field_spec) (rows : list record)
    (recs done rest : list record) (j : nat) :
  length done = j →
  Forall2 (λ row rec, copy_fields row keys [] = Ok rec) rows recs →
  for_each (λ ir map_multi,
              _copy_from_keys ir.2 keys map_multi (Some (Z.of_nat ir.1)))
    (zip (seq j (length rows)) rows) (done ++ rest)
  = Ok (done ++ lockstep rest recs).
Proof.
  intros Hj Hall. revert done rest j Hj.
  induction Hall as [|row rec rows recs Hrec _ IH]; intros done rest j Hj.
  - cbn. by rewrite lockstep_nil_r.
  - cbn [length seq zip zip_with for_each fst snd].
    assert (∀ out, _copy_from_keys row keys out (Some (Z.of_nat j))
                   = match list_index out (Z.of_nat j) with
                     | Some n => match out !! n with
                                 | Some d => Ok (<[n := update d rec]> out)
                                 | None => Ok (out ++ [rec])
                                 end
                     | None => Ok (out ++ [rec])
                     end) as Hcall.
    { intros out. unfold _copy_from_keys. by rewrite Hrec. }
    rewrite Hcall. clear Hcall. unfold list_index. rewrite decide_True by lia. rewrite Nat2Z.id.
    destruct rest as [|d rest].
    + rewrite app_nil_r, decide_False by lia.
      specialize (IH (done ++ [rec]) [] (S j)). rewrite app_nil_r in IH.
      cbn [mbind result_bind]. rewrite IH by (rewrite length_app; cbn; lia).
      by rewrite lockstep_nil_l, <- app_assoc.
    + rewrite decide_True by (rewrite length_app; cbn; lia).
      rewrite lookup_app_r, Hj, Nat.sub_diag by lia. cbn [lookup list_lookup].
      rewrite insert_app_r_alt, Hj, Nat.sub_diag by lia. cbn [insert list_insert].
      cbn [mbind result_bind]. rewrite (cons_middle _ done rest), app_assoc.
      rewrite IH by (rewrite length_app; cbn; lia).
      by rewrite <- app_assoc.
Qed.

(** X10: the indexed loop of [MonsterParser.main] merges in lockstep:
    over rows that can all be read, record [i] of the output is
    updated with the projection of row [i], the rows beyond the
    output are appended, and the records beyond the rows are kept;
    the length is the larger of the two.  For the two files of an
    entry of [_ENUM_DATA] the result is the records of the first file
    updated, position by position, with those of the second. *)
Theorem X10_enumerated_lockstep (keys : list field_spec) (rows : list record)
    (map_multi : list record) :
  Forall (λ row, Forall (readable row) keys) rows →
  ∃ recs,
    Forall2 (λ row rec, copy_fields row keys [] = Ok rec) rows recs ∧
    copy_rows_enumerated keys rows map_multi = Ok (lockstep map_multi recs) ∧
    length (lockstep map_multi recs) = length map_multi `max` length rows ∧
    (∀ i d c, map_multi !! i = Some d → recs !! i = Some c →
       lockstep map_multi recs !! i = Some (update d c)) ∧
    (∀ keys0 rows0 recs0,
       Forall2 (λ row rec, copy_fields row keys0 [] = Ok rec) rows0 recs0 →
       enum_tables [(keys0, rows0); (keys, rows)] = Ok (lockstep recs0 recs)).
Proof.
  intros Hrows.
  assert (∃ recs, Forall2 (λ row rec, copy_fields row keys [] = Ok rec) rows recs)
    as [recs Hall].
  { induction Hrows as [|row rows Hrow _ [recs IH]]; [by exists []|].
    destruct (copy_fields_returns row keys [] Hrow) as [rec Hrec].
    exists (rec :: recs). by constructor. }
  exists recs. split_and!.
  - done.
  - apply (copy_rows_enumerated_from keys rows recs [] map_multi 0 eq_refl Hall).
  - by rewrite length_lockstep, (Forall2_length _ _ _ Hall).
  - intros i d c Hd Hc. by rewrite lookup_lockstep, Hd, Hc.
  - intros keys0 rows0 recs0 Hall0. unfold enum_tables. cbn [for_each fst snd].
    unfold copy_rows_enumerated, enumerate.
    pose proof (copy_rows_enumerated_from keys0 rows0 recs0 [] [] 0 eq_refl Hall0) as H0.
    pose proof (copy_rows_enumerated_from keys rows recs [] recs0 0 eq_refl Hall) as H1.
    cbn [app] in H0, H1. rewrite lockstep_nil_l in H0. rewrite H0.
    cbn [mbind result_bind]. by rewrite H1.
Qed.

(** ** The pre-sort as one sort *)

Section lex_order.
Context {A : Type} (major minor : A → A → bool).
Hypothesis major_asym : ∀ x y, major x y = true → major y x = false.
Hypothesis major_trans : ∀ x y z, le_of major x y → le_of major y z → le_of major x z.
Hypothesis minor_asym : ∀ x y, minor x y = true → minor y x = false.
Hypothesis minor_trans : ∀ x y z, le_of minor x y → le_of minor y z → le_of minor x z.

Lemma lex_lt_asym x y :
  lex_lt major minor x y = true → lex_lt major minor y x = false.
Proof.
  unfold lex_lt. destruct (major x y) eqn:Hxy.
  - intros _. by rewrite (major_asym _ _ Hxy).
  - cbn. destruct (major y x); cbn; [done|]. apply minor_asym.
Qed.

Lemma lex_lt_trans x y z :
  le_of (lex_lt major minor) x y → le_of (lex_lt major minor) y z →
  le_of (lex_lt major minor) x z.
Proof.
  unfold le_of, lex_lt. intros Hyx Hzy.
  apply orb_false_iff in Hyx as [Hyx Hyx'], Hzy as [Hzy Hzy'].
  pose proof (major_trans x y z Hyx Hzy) as Hzx. unfold le_of in Hzx. rewrite Hzx. cbn.
  destruct (major x z) eqn:Hxz; [done|]. cbn.
  destruct (major x y) eqn:Hxy.
  { pose proof (major_trans y z x Hzy Hxz) as H. unfold le_of in H. congruence. }
  destruct (major y z) eqn:Hyz.
  { pose proof (major_trans z x y Hxz Hyx) as H. unfold le_of in H. congruence. }
  cbn in Hyx', Hzy'. by apply (minor_trans x y z).
Qed.
End lex_order.

Lemma by_triple_asym (x y : record) : by_triple x y = true → by_triple y x = false.
Proof.
  apply lex_lt_asym; [intros a b; apply Zlt_asym|].
  apply lex_lt_asym; intros a b; apply ltb_asym.
Qed.

Lemma by_triple_trans (x y z : record) :
  le_of by_triple x y → le_of by_triple y z → le_of by_triple x z.
Proof.
  apply lex_lt_trans; [intros a b c; apply Zle_of_trans|].
  apply lex_lt_trans; intros a b c; apply ltb_le_of_trans.
Qed.

Lemma tied_by_triple (x y : record) :
  tied by_triple x y ↔ sort_triple x = sort_triple y.
Proof.
  split.
  - intros [Hxy Hyx].
    pose proof (le_of_lex_triple x y Hyx) as H1. pose proof (le_of_lex_triple y x Hxy) as H2.
    unfold triple_le, sort_triple in *. cbn [fst snd] in *.
    set (ax := int_field "act" x) in *. set (ay := int_field "act" y) in *.
    set (qx := str_field "quest_id" x) in *. set (qy := str_field "quest_id" y) in *.
    set (wx := str_field "reward" x) in *. set (wy := str_field "reward" y) in *.
    destruct H1 as [?|[Ha H1]], H2 as [?|[Ha' H2]]; try lia.
    assert (qx = qy) as Hq.
    { destruct H1 as [H1|[? _]]; [|done]. destruct H2 as [H2|[? _]]; [|done].
      by rewrite (ltb_asym _ _ H1) in H2. }
    assert (wx = wy) as Hw.
    { rewrite Hq in H1, H2. rewrite ltb_irrefl in H1, H2.
      destruct H1 as [?|[_ H1]]; [done|]. destruct H2 as [?|[_ H2]]; [done|].
      by apply String.leb_antisym. }
    congruence.
  - unfold sort_triple. intros [= Ha Hq Hw]. unfold tied, lex_lt.
    rewrite Ha, Hq, Hw, !ltb_irrefl. rewrite bool_decide_eq_false_2 by lia. done.
Qed.

(** The three stable sorts are the stable sort by the three keys. *)
Lemma pre_sort_by_triple (outdata : list record) :
  Forall reward_record outdata →
  pre_sort outdata = Ok (stable_sort by_triple outdata).
Proof.
  intros Hall. rewrite (pre_sort_stable_sorts _ Hall). f_equal.
  apply stable_sort_unique; [apply by_triple_asym | apply by_triple_trans | |].
  - apply stable_sort_lex_sorted.
    { intros x y. apply Zlt_asym. }
    { intros x y z. apply Zle_of_trans. }
    apply stable_sort_lex_sorted.
    { intros x y. apply ltb_asym. }
    { intros x y z. apply ltb_le_of_trans. }
    apply stable_sort_sorted; [intros x y; apply ltb_asym | intros x y z; apply ltb_le_of_trans].
  - intros x. rewrite !stable_sort_filter; [done|..].
    + intros y z Hy%tied_by_triple Hz%tied_by_triple.
      assert (sort_triple y = sort_triple z) as [= _ _ E] by congruence.
      rewrite E. apply ltb_irrefl.
    + intros y z Hy%tied_by_triple Hz%tied_by_triple.
      assert (sort_triple y = sort_triple z) as [= _ E _] by congruence.
      rewrite E. apply ltb_irrefl.
    + intros y z Hy%tied_by_triple Hz%tied_by_triple.
      assert (sort_triple y = sort_triple z) as [= E _ _] by congruence.
      rewrite E. apply bool_decide_eq_false. lia.
Qed.

Lemma reward_record_perm (l1 l2 : list record) :
  l1 ≡ₚ l2 → Forall reward_record l1 → Forall reward_record l2.
Proof. by intros <-. Qed.

Lemma filter_tied_unique (l1 l2 : list record) (x : record) :
  l1 ≡ₚ l2 → NoDup (sort_triple <$> l1) →
  filter (tied by_triple x) l1 = filter (tied by_triple x) l2.
Proof.
  intros Hperm Hnd.
  assert (∀ l, NoDup (sort_triple <$> l) →
               ∀ a b, a ∈ filter (tied by_triple x) l → b ∈ filter (tied by_triple x) l →
                      a = b) as Hone.
  { intros l Hl a b [Ha Hina]%list_elem_of_filter [Hb Hinb]%list_elem_of_filter.
    apply tied_by_triple in Ha, Hb.
    apply list_elem_of_lookup in Hina as [i Hi], Hinb as [j Hj].
    assert (i = j) as ->; [|congruence].
    apply (NoDup_lookup _ i j (sort_triple a) Hl).
    - by rewrite list_lookup_fmap, Hi.
    - rewrite list_lookup_fmap, Hj. cbn. congruence. }
  assert (NoDup (sort_triple <$> l2)) as Hnd2 by (by rewrite <- Hperm).
  assert (filter (tied by_triple x) l1 ≡ₚ filter (tied by_triple x) l2) as Hf
    by (by rewrite Hperm).
  assert (NoDup l1) as Hl1 by (by apply (NoDup_fmap_1 sort_triple)).
  assert (NoDup (filter (tied by_triple x) l1)) as Hnf by (by apply NoDup_filter).
  destruct (filter (tied by_triple x) l1) as [|a [|a' f1]] eqn:Hf1.
  - by apply Permutation_nil_l in Hf.
  - apply Permutation_singleton_l in Hf. by rewrite Hf.
  - exfalso. apply NoDup_cons in Hnf as [Hnotin _]. apply Hnotin.
    rewrite (Hone l1 Hnd a a'); [left | rewrite Hf1; left | rewrite Hf1; right; left].
Qed.

(** X12: the order [_write_lua] gives does not depend on the order the
    records arrive in, when no two records have the same act, quest id
    and reward: two arrangements of such records are pre-sorted to the
    same list. *)
Theorem X12_pre_sort_order_independent (l1 l2 : list record) :
  Forall reward_record l1 →
  NoDup (sort_triple <$> l1) →
  l1 ≡ₚ l2 →
  ∃ ordered, pre_sort l1 = Ok ordered ∧ pre_sort l2 = Ok ordered.
Proof.
  intros Hall Hnd Hperm. exists (stable_sort by_triple l1).
  split; [by apply pre_sort_by_triple|].
  rewrite pre_sort_by_triple by (by eapply reward_record_perm). f_equal.
  apply stable_sort_unique; [apply by_triple_asym | apply by_triple_trans | |].
  - apply stable_sort_sorted; [apply by_triple_asym | apply by_triple_trans].
  - intros x. rewrite stable_sort_filter.
    + symmetry. by apply filter_tied_unique.
    + intros y z [_ Hy] [Hz _]. destruct (by_triple y z) eqn:Hyz; [|done].
      pose proof (by_triple_trans z x y Hz Hy) as H. unfold le_of in H. congruence.
Qed.

(** X13: pre-sorting is idempotent: a list that [_write_lua] has
    pre-sorted is left as it is by the three sorts. *)
Theorem X13_pre_sort_idempotent (outdata ordered : list record) :
  Forall reward_record outdata →
  pre_sort outdata = Ok ordered →
  pre_sort ordered = Ok ordered.
Proof.
  intros Hall Hrun. rewrite pre_sort_by_triple in Hrun by done. injection Hrun as <-.
  rewrite pre_sort_by_triple by (by rewrite stable_sort_perm). f_equal. symmetry.
  apply stable_sort_unique; [apply by_triple_asym | apply by_triple_trans | | by intros].
  apply stable_sort_sorted; [apply by_triple_asym | apply by_triple_trans].
Qed.

(** ** A record without a sort key *)

Lemma mapM_getitem_missing (k : string) (l : list record) :
  (∃ r, r ∈ l ∧ get r k = None) →
  mapM (λ x : record, getitem x k) l = Raise (KeyError k).
Proof.
  intros (r & Hin & Hr). induction l as [|x l IH]; [by apply elem_of_nil in Hin|].
  cbn [mapM]. destruct (getitem x k) as [v|e|] eqn:Hx; cbn [mbind result_bind].
  - apply elem_of_cons in Hin as [->|Hin].
    + unfold getitem in Hx. by rewrite Hr in Hx.
    + by rewrite IH.
  - unfold getitem in Hx. destruct (get x k); [done|]. by injection Hx as <-.
  - unfold getitem in Hx. by destruct (get x k).
Qed.

(** X11: [_write_lua] raises [KeyError] for ['reward'] when some
    record has no reward, whatever the other records are: the keys of
    the first sort are all computed before anything is compared. *)
Theorem X11_write_lua_missing_reward (outdata : list record) (data_type : string) :
  (∃ r, r ∈ outdata ∧ get r "reward" = None) →
  _write_lua outdata data_type = Raise (KeyError "reward").
Proof.
  intros Hmiss. unfold _write_lua, pre_sort, list_sort.
  by rewrite (mapM_getitem_missing "reward" outdata Hmiss).
Qed.

(** ** The classes text *)

Lemma join_split (sep : ascii) (s : string) :
  join (String sep "") (split sep s) = s.
Proof.
  induction s as [|c s IH]; [done|]. cbn [split].
  destruct (split_head sep s) as (p & ps & Hs). rewrite Hs in IH |- *.
  destruct (decide (c = sep)) as [->|Hc].
  - rewrite join_cons_cons, IH. done.
  - destruct ps as [|q ps].
    + cbn in IH |- *. by rewrite IH.
    + rewrite join_cons_cons in IH |- *. rewrite append_cons. by rewrite IH.
Qed.

(** X14: the classes of a vendor row are packed and unpacked without
    loss.  The text [read_vendor_rewards] stores for a row with
    classes, none of whose names holds the unit separator, splits back
    into the names of the row, in order; a row without classes stores
    no ['classes']; and joining the parts of any text gives the text
    back. *)
Theorem X14_classes_round_trip (row : QuestVendorRewardsRow) (quest : Quest)
    (item : BaseItemType) :
  Forall (sep_free _UNIT_SEP) (character_Name <$> CharactersKeys row) →
  (CharactersKeys row ≠ [] →
     ∃ s, get (vendor_data row quest item) "classes" = Some (VAtom (AStr s))
          ∧ split _UNIT_SEP s = character_Name <$> CharactersKeys row)
  ∧ (CharactersKeys row = [] → get (vendor_data row quest item) "classes" = None)
  ∧ (∀ s, join (String _UNIT_SEP "") (split _UNIT_SEP s) = s).
Proof.
  intros Hfree. rewrite vendor_data_classes. split_and!.
  - intros Hne. rewrite bool_decide_eq_true_2 by done. eexists. split; [done|].
    rewrite split_join by (by destruct (CharactersKeys row)).
    by apply bind_split_sep_free.
  - intros Hnil. by rewrite bool_decide_eq_false_2 by (by intros ?).
  - apply join_split.
Qed.

(** ** The post-processing, again *)

Lemma setitem_setitem {V} (d : odict V) (k : string) (v : V) :
  setitem (setitem d k v) k v = setitem d k v.
Proof. apply setitem_same, get_setitem_eq. Qed.

Lemma split_join_sorted_elements (s : string) :
  let classes : gset string := list_to_set (split _UNIT_SEP s) in
  split _UNIT_SEP (join (String _UNIT_SEP "") (sorted (elements classes)))
  = sorted (elements classes).
Proof.
  intros classes.
  assert (sorted (elements classes) ≠ []) as Hne.
  { destruct (split_head _UNIT_SEP s) as (p & ps & Hs).
    assert (p ∈ sorted (elements classes)) as Hp.
    { rewrite sorted_perm, elem_of_elements. unfold classes. rewrite Hs.
      apply elem_of_list_to_set. left. }
    intros Hnil. rewrite Hnil in Hp. by apply elem_of_nil in Hp. }
  rewrite split_join by done. apply bind_split_sep_free, Forall_forall.
  intros x Hx. rewrite sorted_perm, elem_of_elements in Hx.
  apply elem_of_list_to_set in Hx. by apply (split_parts_sep_free _ s).
Qed.

(** X15: the post-processing of the classes is idempotent: a record it
    has processed is left as it is when processed again with the same
    known classes. *)
Theorem X15_prune_classes_idempotent (classes_set : gset string) (v v' : record) :
  prune_classes classes_set v = Ok v' →
  prune_classes classes_set v' = Ok v'.
Proof.
  intros Hrun. destruct (get v "classes") as [c|] eqn:Hget; cycle 1.
  { unfold prune_classes in *. rewrite (contains_false _ _ Hget) in Hrun.
    cbn in Hrun. injection Hrun as <-. by rewrite (contains_false _ _ Hget). }
  assert (∃ s, c = VAtom (AStr s)) as [s ->].
  { unfold prune_classes, getitem in Hrun.
    rewrite (contains_true _ _ _ Hget), Hget in Hrun. cbn in Hrun.
    destruct c as [[| | | |s|]|]; try done. by exists s. }
  rewrite (prune_classes_text _ _ _ Hget) in Hrun. injection Hrun as <-.
  case_bool_decide as Hcover.
  - unfold prune_classes. by rewrite (contains_false _ _ (get_delitem_eq v "classes")).
  - rewrite (prune_classes_text _ _ _ (get_setitem_eq v "classes" _)).
    rewrite split_join_sorted_elements.
    assert (list_to_set (sorted (elements (list_to_set (split _UNIT_SEP s) : gset string)))
            = (list_to_set (split _UNIT_SEP s) : gset string)) as ->.
    { rewrite (list_to_set_perm_L _ _ (sorted_perm _)). apply list_to_set_elements_L. }
    rewrite bool_decide_eq_false_2 by done. by rewrite setitem_setitem.
Qed.

(** ** What the merge keeps, and when it raises *)

Lemma vendor_merge_keeps (compress compress' : odict record) (key key' : string)
    (data rep : record) :
  get compress key = Some rep →
  vendor_merge compress key' data = Ok compress' →
  ∃ rep', get compress' key = Some rep'
          ∧ ∀ K, K ≠ "classes" → get rep' K = get rep K.
Proof.
  intros Hrep. unfold vendor_merge. destruct (contains compress key') eqn:Hc; cycle 1.
  { intros [= <-]. exists rep. split; [|done]. rewrite get_setitem_ne; [done|].
    intros ->. by rewrite (contains_true _ _ _ Hrep) in Hc. }
  destruct (contains data "classes"); [|intros [= <-]; by exists rep].
  unfold getitem. destruct (get compress key') as [rep0|] eqn:Hrep0; [|done].
  cbn [mbind result_bind]. destruct (get rep0 "classes") as [old|]; [|done].
  cbn [mbind result_bind]. destruct (get data "classes") as [new|]; [|done].
  cbn [mbind result_bind].
  destruct (str_add _ new) as [rhs| |]; cbn [mbind result_bind]; [|done..].
  destruct (str_add old rhs) as [v| |]; cbn [mbind result_bind]; [|done..].
  intros [= <-]. destruct (decide (key' = key)) as [->|Hne].
  - rewrite get_setitem_eq. eexists. split; [done|]. intros K HK.
    rewrite get_setitem_ne by done. congruence.
  - rewrite get_setitem_ne by done. by exists rep.
Qed.

Lemma vendor_row_keeps (rr : RelationalReader) (row : QuestVendorRewardsRow)
    (compress compress' : odict record) (key : string) (rep : record) :
  get compress key = Some rep →
  (vendor_row rr row compress).2 = Ok compress' →
  ∃ rep', get compress' key = Some rep'
          ∧ ∀ K, K ≠ "classes" → get rep' K = get rep K.
Proof.
  intros Hrep. unfold vendor_row.
  destruct (vendor_quests rr row) as [quests| |]; [|done..].
  destruct (bool_decide (quests = [])); [intros [= <-]; by exists rep|].
  destruct (bool_decide (BaseItemTypesKeys row = [])); [intros [= <-]; by exists rep|].
  cbn [snd].
  set (I := λ c : odict record,
              ∃ rep', get c key = Some rep'
                      ∧ ∀ K, K ≠ "classes" → get rep' K = get rep K).
  apply (for_each_invariant I); [|by exists rep].
  intros quest t t' _ Ht. apply (for_each_invariant I); [|done].
  intros item u u' _ (rep1 & Hrep1 & Hsame) Hu.
  destruct (vendor_merge_keeps _ _ _ _ _ _ Hrep1 Hu) as (rep2 & Hrep2 & Hsame2).
  exists rep2. split; [done|]. intros K HK. by rewrite Hsame2, Hsame.
Qed.

(** X16: in [read_vendor_rewards] a merge group, once made, stays, and
    later rows change none of its fields but ['classes']: the quest,
    act, reward and npc of a group are those of the first row that
    made it. *)
Theorem X16_group_fields_kept (rr : RelationalReader)
    (rows : list QuestVendorRewardsRow) (compress compress' : odict record)
    (key : string) (rep : record) :
  get compress key = Some rep →
  (vendor_rows rr rows compress).2 = Ok compress' →
  ∃ rep', get compress' key = Some rep'
          ∧ ∀ K, K ≠ "classes" → get rep' K = get rep K.
Proof.
  revert compress rep. induction rows as [|row rows IH]; intros compress rep Hrep Hrun.
  - cbn in Hrun. injection Hrun as <-. by exists rep.
  - cbn [vendor_rows] in Hrun.
    destruct (vendor_row rr row compress) as [ws [c| |]] eqn:Hrow; [|done..].
    destruct (vendor_row_keeps rr row compress c key rep Hrep) as (rep1 & Hrep1 & Hsame1).
    { by rewrite Hrow. }
    destruct (IH c rep1 Hrep1) as (rep2 & Hrep2 & Hsame2).
    { by destruct (vendor_rows rr rows c). }
    exists rep2. split; [done|]. intros K HK. by rewrite Hsame2, Hsame1.
Qed.

(** X17: the merge of [read_vendor_rewards] cannot take classes into a
    group made without: when the first record of a key has no
    ['classes'] and a later record of the key has, the read of
    [compress[key]['classes']] raises [KeyError]. *)
Theorem X17_classes_after_classless (compress : odict record) (key : string)
    (first later : record) (new : value) :
  get compress key = None →
  get first "classes" = None →
  get later "classes" = Some new →
  (compress' ← vendor_merge compress key first; vendor_merge compress' key later)
  = Raise (KeyError "classes").
Proof.
  intros Hkey Hfirst Hlater. rewrite (vendor_merge_first _ _ _ Hkey).
  cbn [mbind result_bind].
  by apply (vendor_merge_KeyError _ _ _ first new); [apply get_setitem_eq|..].
Qed.

(** ** When the vendor export returns *)

Lemma for_each_returns {A S} (I : S → Prop) (body : A → S → result S)
    (l : list A) (s : S) :
  (∀ x t, x ∈ l → I t → ∃ t', body x t = Ok t' ∧ I t') →
  I s → ∃ s', for_each body l s = Ok s' ∧ I s'.
Proof.
  revert s. induction l as [|x l IH]; intros s Hbody Hs; cbn [for_each].
  - by exists s.
  - destruct (Hbody x s) as (t & -> & Ht); [left | done |]. cbn [mbind result_bind].
    apply IH; [|done]. intros y u Hy. apply Hbody. by right.
Qed.

Lemma mapM_returns {A B} (Q : B → Prop) (f : A → result B) (l : list A) :
  (∀ x, x ∈ l → ∃ y, f x = Ok y ∧ Q y) →
  ∃ ys, mapM f l = Ok ys ∧ Forall Q ys.
Proof.
  induction l as [|x l IH]; intros Hf; [by exists []|]. cbn [mapM].
  destruct (Hf x) as (y & -> & Hy); [left|]. cbn [mbind result_bind].
  destruct IH as (ys & -> & Hys); [intros z Hz; apply Hf; by right|].
  exists (y :: ys). split; [done | by constructor].
Qed.

Lemma contains_true_inv {V} (d : odict V) (k : string) :
  contains d k = true → ∃ v, get d k = Some v.
Proof. rewrite contains_get. by intros ?%bool_decide_eq_true. Qed.

Lemma exportable_setitem_classes (r : record) (s : string) :
  exportable r → group_with_classes (setitem r "classes" (VAtom (AStr s))).
Proof.
  intros [(Hact & Hquest & Hreward) Hvals]. split; [split|].
  - split_and!; by rewrite get_setitem_ne.
  - by apply Forall_setitem.
  - exists s. apply get_setitem_eq.
Qed.

Lemma exportable_delitem_classes (r : record) :
  exportable r → exportable (delitem r "classes").
Proof.
  intros [(Hact & Hquest & Hreward) Hvals]. split.
  - split_and!; by rewrite get_delitem_ne.
  - rewrite Forall_forall in Hvals. apply Forall_forall.
    intros kv [_ Hin]%list_elem_of_filter. by apply Hvals.
Qed.

Lemma vendor_data_group (row : QuestVendorRewardsRow) (quest : Quest)
    (item : BaseItemType) :
  CharactersKeys row ≠ [] → group_with_classes (vendor_data row quest item).
Proof.
  intros Hne. unfold vendor_data. rewrite bool_decide_eq_true_2 by done.
  apply exportable_setitem_classes. split.
  - split_and!; eexists; reflexivity.
  - repeat constructor.
Qed.

Lemma vendor_merge_returns (compress : odict record) (key : string) (data : record) :
  Forall (λ kv, group_with_classes kv.2) compress →
  group_with_classes data →
  ∃ compress', vendor_merge compress key data = Ok compress'
               ∧ Forall (λ kv, group_with_classes kv.2) compress'.
Proof.
  intros Hall Hdata. destruct (contains compress key) eqn:Hkey; cycle 1.
  - exists (setitem compress key data). unfold vendor_merge. rewrite Hkey.
    split; [done | by apply Forall_setitem].
  - destruct (contains_true_inv _ _ Hkey) as [rep Hrep].
    assert (group_with_classes rep) as [Hexp [old Hold]].
    { rewrite Forall_forall in Hall. apply (Hall (key, rep)). by apply get_Some_elem_of. }
    destruct Hdata as [_ [new Hnew]].
    rewrite (vendor_merge_append _ _ _ _ _ _ Hrep Hold Hnew). eexists. split; [done|].
    apply Forall_setitem; [done|]. by apply exportable_setitem_classes.
Qed.

Lemma vendor_quests_returns (rr : RelationalReader) (row : QuestVendorRewardsRow) :
  returns (Quest_by_Id rr "a6q4") → returns (vendor_quests rr row).
Proof.
  intros [q Hq]. unfold vendor_quests.
  destruct (_ && _); [rewrite Hq|]; by eexists.
Qed.

Lemma vendor_row_returns (rr : RelationalReader) (row : QuestVendorRewardsRow)
    (compress : odict record) :
  returns (Quest_by_Id rr "a6q4") →
  (¬ left_out rr row → CharactersKeys row ≠ []) →
  Forall (λ kv, group_with_classes kv.2) compress →
  ∃ compress', (vendor_row rr row compress).2 = Ok compress'
               ∧ Forall (λ kv, group_with_classes kv.2) compress'.
Proof.
  intros Hq Hcls Hall. destruct (decide (left_out rr row)) as [Hout|Hkept].
  { rewrite vendor_row_left_out by done. by exists compress. }
  specialize (Hcls Hkept). unfold vendor_row.
  destruct (vendor_quests_returns rr row Hq) as [quests ->].
  destruct (bool_decide (quests = [])); [by exists compress|].
  destruct (bool_decide (BaseItemTypesKeys row = [])); [by exists compress|].
  cbn [snd].
  apply (for_each_returns (λ c, Forall (λ kv : string * record, group_with_classes kv.2) c));
    [|done].
  intros quest t _ Ht.
  apply (for_each_returns (λ c, Forall (λ kv : string * record, group_with_classes kv.2) c));
    [|done].
  intros item u _ Hu. apply vendor_merge_returns; [done|]. by apply vendor_data_group.
Qed.

Lemma vendor_rows_returns (rr : RelationalReader) (rows : list QuestVendorRewardsRow)
    (compress : odict record) :
  returns (Quest_by_Id rr "a6q4") →
  (∀ row, row ∈ rows → ¬ left_out rr row → CharactersKeys row ≠ []) →
  Forall (λ kv, group_with_classes kv.2) compress →
  ∃ compress', (vendor_rows rr rows compress).2 = Ok compress'
               ∧ Forall (λ kv, group_with_classes kv.2) compress'.
Proof.
  intros Hq. revert compress. induction rows as [|row rows IH]; intros compress Hcls Hall.
  - by exists compress.
  - cbn [vendor_rows].
    destruct (vendor_row_returns rr row compress Hq) as (c & Hrow & Hc);
      [apply Hcls; left | done |].
    destruct (vendor_row rr row compress) as [ws r]. cbn in Hrow. subst r.
    destruct (IH c) as (c' & Hrows & Hc'); [intros r Hr; apply Hcls; by right | done |].
    exists c'. split; [|done]. by destruct (vendor_rows rr rows c).
Qed.

Lemma prune_classes_returns (classes_set : gset string) (r : record) :
  group_with_classes r →
  ∃ r', prune_classes classes_set r = Ok r' ∧ exportable r'.
Proof.
  intros [Hexp [s Hs]]. rewrite (prune_classes_text _ _ _ Hs). eexists. split; [done|].
  case_bool_decide.
  - by apply exportable_delitem_classes.
  - by apply exportable_setitem_classes.
Qed.

Lemma lua_formatter_exportable (outdata : list record) :
  Forall exportable outdata → returns (lua_formatter outdata).
Proof.
  intros Hall. unfold lua_formatter.
  destruct (format_records_ref_free outdata ["local data = {" +:+ nl]) as [_ Hgood].
  - eapply Forall_impl; [done|]. intros r [_ Hvals].
    eapply Forall_impl; [done|]. intros [k [[]|]] Hv; done.
  - destruct Hgood as [out ->]; [|by eexists].
    eapply Forall_impl; [done|]. intros r [_ Hvals].
    eapply Forall_impl; [done|]. intros [k [[]|]] Hv; done.
Qed.

(** X18: [read_vendor_rewards] returns its result, with no exception,
    when the hardcoded quest of state 385 is in the quest table and
    every row that is not left out names at least one class. *)
Theorem X18_read_vendor_rewards_returns (rr : RelationalReader) :
  returns (Quest_by_Id rr "a6q4") →
  (∀ row, row ∈ QuestVendorRewards_dat rr → ¬ left_out rr row →
     CharactersKeys row ≠ []) →
  returns (read_vendor_rewards rr).2.
Proof.
  intros Hq Hcls. unfold read_vendor_rewards.
  destruct (vendor_rows_returns rr (QuestVendorRewards_dat rr) [] Hq Hcls (Forall_nil_2 _))
    as (compress & Hrun & Hall).
  destruct (vendor_rows rr (QuestVendorRewards_dat rr) []) as [ws r]. cbn in Hrun. subst r.
  cbn [snd mbind result_bind].
  set (classes_set := list_to_set _ : gset string).
  destruct (mapM_returns (λ kv : string * record, exportable kv.2)
              (λ kv : string * record,
                 v ← prune_classes classes_set kv.2; Ok (kv.1, v)) compress)
    as (pruned & -> & Hpruned).
  { intros [key r] Hin. rewrite Forall_forall in Hall.
    destruct (prune_classes_returns classes_set r (Hall _ Hin)) as (r' & Hr' & Hexp).
    exists (key, r'). cbn [fst snd]. by rewrite Hr'. }
  cbn [mbind result_bind]. unfold _write_lua.
  assert (Forall exportable pruned.*2) as Hexp by (by apply Forall_fmap).
  rewrite pre_sort_by_triple; cycle 1.
  { eapply Forall_impl; [done|]. by intros r [? _]. }
  cbn [mbind result_bind].
  destruct (lua_formatter_exportable (stable_sort by_triple pruned.*2)) as [text ->].
  { by rewrite stable_sort_perm. }
  by eexists.
Qed.

(** ** The stat text of the synthesis mods *)

Lemma synthesis_mods_copyrow (Id : atom → result string) (row copyrow : record) :
  copy_fields row (synthesis_mods_keys Id) [] = Ok copyrow →
  (field_copied row ("StatsKey", {| cd_key := "stat_id"; cd_value := Some (value_Id Id) |})
     = false → get copyrow "stat_id" = None)
  ∧ (field_copied row ("StatValue", {| cd_key := "stat_value"; cd_value := None |}) = true
     → ∃ v, get copyrow "stat_value" = Some v).
Proof.
  intros Hrun.
  assert (∀ i, sole_writer (synthesis_mods_keys Id) i) as Hsole.
  { intros i j si sj Hi Hj Hne.
    destruct i as [|[|[|[|i]]]]; try done; injection Hi as <-;
      destruct j as [|[|[|[|j]]]]; try done; injection Hj as <-; done. }
  unfold field_copied. cbn [fst]. split.
  - destruct (get row "StatsKey") as [v|] eqn:Hv.
    + intros Hc.
      pose proof (copy_fields_sole_writer _ _ 0 _ v _ Hrun eq_refl (Hsole 0) Hv) as H.
      by rewrite Hc in H.
    + unfold synthesis_mods_keys in Hrun. cbn [copy_fields] in Hrun.
      unfold getitem in Hrun. by rewrite Hv in Hrun.
  - destruct (get row "StatValue") as [v|] eqn:Hv; [|done]. intros Hc.
    pose proof (copy_fields_sole_writer _ _ 1 _ v _ Hrun eq_refl (Hsole 1) Hv) as H.
    rewrite Hc in H. destruct H as (v' & _ & H). by exists v'.
Qed.

Lemma mapM_add_stat_text_KeyError
    (get_translation : value → value → result (list string)) (recs : list record) :
  (∀ a b, returns (get_translation a b)) →
  Forall (λ rec, ∃ v, get rec "stat_value" = Some v) recs →
  Exists (λ rec, get rec "stat_id" = None) recs →
  mapM (add_stat_text get_translation) recs = Raise (KeyError "stat_id").
Proof.
  intros Htr Hval Hex. induction Hval as [|rec recs [v Hv] _ IH]; [by apply Exists_nil in Hex|].
  cbn [mapM].
  assert (add_stat_text get_translation rec
          = match get rec "stat_id" with
            | Some _ => add_stat_text get_translation rec
            | None => Raise (KeyError "stat_id")
            end) as Hstep.
  { unfold add_stat_text, getitem. by destruct (get rec "stat_id"). }
  destruct (get rec "stat_id") as [id|] eqn:Hid; [clear Hstep|by rewrite Hstep].
  assert (returns (add_stat_text get_translation rec)) as [rec' ->].
  { unfold add_stat_text, getitem. rewrite Hid, Hv. cbn [mbind result_bind].
    destruct (Htr id v) as [lines ->]. by eexists. }
  cbn [mbind result_bind].
  apply Exists_cons in Hex as [?|Hex]; [congruence|]. by rewrite IH.
Qed.

(** X19: the sparse projection and the stat text of
    [SynthesisParser.main] do not go together: when a row of
    [ItemSynthesisMods.dat] has no stat (its ['StatsKey'] is [None] or
    the empty string), its record has no ['stat_id'] and the second
    loop raises [KeyError] for it; the rows are taken to be readable,
    to have a stat value, and the translation to return. *)
Theorem X19_synthesis_mods_missing_stat (Id : atom → result string)
    (get_translation : value → value → result (list string)) (rows : list record) :
  (∀ a b, returns (get_translation a b)) →
  Forall (λ row, Forall (readable row) (synthesis_mods_keys Id)) rows →
  Forall (λ row, field_copied row
                   ("StatValue", {| cd_key := "stat_value"; cd_value := None |}) = true)
    rows →
  Exists (λ row, get row "StatsKey" = Some (VAtom ANone)
                 ∨ get row "StatsKey" = Some (VAtom (AStr ""))) rows →
  synthesis_mods Id get_translation rows = Raise (KeyError "stat_id").
Proof.
  intros Htr Hread Hval Hex. unfold synthesis_mods.
  destruct (copy_rows_projections (synthesis_mods_keys Id) rows [] Hread)
    as (recs & -> & Hall).
  cbn [app].
  cbn [mbind result_bind]. apply mapM_add_stat_text_KeyError; [done| |].
  - clear Hex Hread. induction Hall as [|row rec rows recs Hrec _ IH]; [constructor|].
    apply Forall_cons in Hval as [Hv Hval]. constructor; [|by apply IH].
    by apply (synthesis_mods_copyrow Id row rec Hrec).
  - clear Hval Hread. induction Hall as [|row rec rows recs Hrec _ IH];
      [by apply Exists_nil in Hex|].
    apply Exists_cons in Hex as [Hrow|Hex]; [left | right; by apply IH].
    apply (synthesis_mods_copyrow Id row rec Hrec). unfold field_copied. cbn [fst].
    by destruct Hrow as [-> | ->].
Qed.

(** ** The further properties on sample data *)

Lemma X1_witness_None_name : lua_formatter sample_with_None = Raise AttributeError.
Proof.
  apply (X1_lua_formatter_None_field sample_with_None).
  - repeat constructor.
  - left. right. left. reflexivity.
Defined.

Lemma X2_witness_same_text :
  "a" +:+ String dquote "b" = "a" +:+ String dquote "b".
Proof.
  exact (X2_escaping_injective ("a" +:+ String dquote "b") ("a" +:+ String dquote "b")
           eq_refl).
Defined.

Lemma X5_witness_no_level :
  _copy_from_keys sample_row sample_keys_missing [] None = Raise (KeyError "Level").
Proof.
  apply (X5_missing_source_field sample_row
           [("Id", {| cd_key := "id"; cd_value := None |})] []
           "Level" {| cd_key := "level"; cd_value := None |} [] None).
  - apply Forall_cons. split; [|apply Forall_nil_2].
    eexists. split; [reflexivity|]. intros _. eexists. reflexivity.
  - reflexivity.
Defined.

Lemma X6_witness_last_record :
  ∃ copyrow,
    copy_fields sample_row sample_keys [] = Ok copyrow ∧
    _copy_from_keys sample_row sample_keys sample_out_data (Some (-3)%Z)
    = Ok (sample_out_data ++ [copyrow]) ∧
    _copy_from_keys sample_row sample_keys sample_out_data (Some (-1)%Z)
    = Ok (<[1%nat := update [("id", VAtom (AStr "Crab"))] copyrow]> sample_out_data).
Proof.
  destruct (X6_negative_index sample_row sample_keys sample_out_data (-3)
              sample_row_readable) as (copyrow & Hcopy & Happend & _); [lia|].
  destruct (X6_negative_index sample_row sample_keys sample_out_data (-1)
              sample_row_readable) as (copyrow' & Hcopy' & _ & Hmerge); [lia|].
  exists copyrow. rewrite Hcopy in Hcopy'. injection Hcopy' as <-.
  split_and!; [exact Hcopy | apply Happend; cbn; lia |].
  apply (Hmerge [("id", VAtom (AStr "Crab"))]); [cbn; lia | reflexivity].
Defined.

Lemma X7_witness_sample_keys :
  ∃ copyrow,
    _copy_from_keys sample_row sample_keys [] None = Ok ([] ++ [copyrow]) ∧
    copyrow.*1 = ["id"; "tags"; "mod_ids"].
Proof.
  destruct (X7_projected_key_order sample_row sample_keys [] sample_row_readable)
    as (copyrow & Hrun & Hkeys).
  - cbn. repeat (apply NoDup_cons; split;
                 [rewrite ?not_elem_of_cons; split_and?; try done; apply not_elem_of_nil|]).
    apply NoDup_nil_2.
  - exists copyrow. split; [exact Hrun | exact Hkeys].
Defined.

Lemma X8_witness_merge_twice :
  ∃ out_data',
    _copy_from_keys sample_row sample_keys sample_out_data (Some 0%Z) = Ok out_data' ∧
    _copy_from_keys sample_row sample_keys out_data' (Some 0%Z) = Ok out_data'.
Proof.
  eexists. split; [reflexivity|].
  apply (X8_merge_idempotent sample_row sample_keys sample_out_data); [cbn; lia|].
  reflexivity.
Defined.

Lemma X9_witness_two_rows :
  ∃ recs,
    copy_rows sample_keys [sample_row; sample_row] [] = Ok ([] ++ recs) ∧
    length recs = 2.
Proof.
  destruct (X9_copy_rows_one_per_row sample_keys [sample_row; sample_row] [])
    as (recs & Hrun & _ & Hlen).
  - repeat (apply Forall_cons; split; [apply sample_row_readable|]). apply Forall_nil_2.
  - exists recs. split; [exact Hrun | exact Hlen].
Defined.

Lemma X10_witness_one_row_into_two :
  ∃ recs,
    copy_rows_enumerated sample_keys [sample_row] sample_out_data
    = Ok (lockstep sample_out_data recs) ∧
    length (lockstep sample_out_data recs) = 2.
Proof.
  destruct (X10_enumerated_lockstep sample_keys [sample_row] sample_out_data)
    as (recs & _ & Hrun & Hlen & _).
  - apply Forall_cons. split; [apply sample_row_readable | apply Forall_nil_2].
  - exists recs. split; [exact Hrun | exact Hlen].
Defined.

Lemma X11_witness_no_reward :
  _write_lua [sample_reward 1 "q1" "z"; [("act", VAtom (AInt 1))]] "quest"
  = Raise (KeyError "reward").
Proof.
  apply X11_write_lua_missing_reward.
  exists [("act", VAtom (AInt 1))]. split; [right; left | reflexivity].
Defined.

Lemma sample_rewards_records : Forall reward_record sample_rewards.
Proof.
  repeat (apply Forall_cons; split; [split_and!; eexists; reflexivity|]).
  apply Forall_nil_2.
Qed.

Lemma X12_witness_reversed :
  ∃ ordered,
    pre_sort sample_rewards = Ok ordered ∧ pre_sort (reverse sample_rewards) = Ok ordered.
Proof.
  apply (X12_pre_sort_order_independent sample_rewards (reverse sample_rewards)).
  - apply sample_rewards_records.
  - cbn. repeat (apply NoDup_cons; split;
                 [rewrite ?not_elem_of_cons; split_and?; try done; apply not_elem_of_nil|]).
    apply NoDup_nil_2.
  - symmetry. apply reverse_Permutation.
Defined.

Lemma X13_witness_sorted_again :
  pre_sort [sample_reward 1 "q1" "z"; sample_reward 1 "q2" "y"; sample_reward 2 "q1" "x"]
  = Ok [sample_reward 1 "q1" "z"; sample_reward 1 "q2" "y"; sample_reward 2 "q1" "x"].
Proof.
  apply (X13_pre_sort_idempotent sample_rewards); [apply sample_rewards_records|].
  reflexivity.
Defined.

Lemma X14_witness_B_A :
  ∃ s,
    get (vendor_data (sample_vendor_row 0 7 [sample_item] ["B"; "A"]) sample_quest
           sample_item) "classes" = Some (VAtom (AStr s))
    ∧ split _UNIT_SEP s = ["B"; "A"].
Proof.
  destruct (X14_classes_round_trip (sample_vendor_row 0 7 [sample_item] ["B"; "A"])
              sample_quest sample_item) as (Hsplit & _ & _).
  - repeat (apply Forall_cons; split;
            [unfold sep_free; cbn; rewrite ?not_elem_of_cons; split_and?; try done;
             apply not_elem_of_nil|]).
    apply Forall_nil_2.
  - apply Hsplit. discriminate.
Defined.

Lemma X15_witness_processed_twice :
  let classes_set : gset string := {[ "A"; "B"; "C" ]} in
  let v' : record :=
    [("quest", VAtom (AStr "Enemy at the Gate"));
     ("classes", VAtom (AStr ("A" +:+ String _UNIT_SEP "B")))] in
  prune_classes classes_set v' = Ok v'.
Proof.
  intros classes_set v'.
  apply (X15_prune_classes_idempotent classes_set
           [("quest", VAtom (AStr "Enemy at the Gate"));
            ("classes", VAtom (AStr ("B" +:+ String _UNIT_SEP "A")))]).
  by vm_compute.
Defined.

Lemma X16_witness_group_kept :
  ∃ compress' rep',
    (vendor_rows sample_rr (QuestVendorRewards_dat sample_rr) sample_compress).2
    = Ok compress' ∧
    get compress' "a1q1Ring120" = Some rep' ∧
    get rep' "quest" = Some (VAtom (AStr "Enemy at the Gate")).
Proof.
  eexists.
  destruct (X16_group_fields_kept sample_rr (QuestVendorRewards_dat sample_rr)
              sample_compress _ "a1q1Ring120"
              [("quest", VAtom (AStr "Enemy at the Gate"));
               ("classes", VAtom (AStr "Marauder"))] eq_refl eq_refl)
    as (rep' & Hrep' & Hsame).
  exists rep'. split_and!; [reflexivity | exact Hrep' |]. by rewrite Hsame.
Defined.

Lemma X17_witness_classless_first :
  (compress' ← vendor_merge [] "a1q1Ring12" sample_classless;
   vendor_merge compress' "a1q1Ring12" sample_classed)
  = Raise (KeyError "classes").
Proof.
  exact (X17_classes_after_classless [] "a1q1Ring12" sample_classless sample_classed
           (VAtom (AStr "Witch")) eq_refl eq_refl eq_refl).
Defined.

Lemma X18_witness_sample_export : returns (read_vendor_rewards sample_rr).2.
Proof.
  apply X18_read_vendor_rewards_returns.
  - eexists. reflexivity.
  - intros row Hrow _.
    repeat (apply elem_of_cons in Hrow as [->|Hrow]; [discriminate|]).
    by apply elem_of_nil in Hrow.
Defined.

Lemma X19_witness_row_without_stat :
  synthesis_mods sample_Id sample_translation [sample_synthesis_row]
  = Raise (KeyError "stat_id").
Proof.
  apply X19_synthesis_mods_missing_stat.
  - intros a b. eexists. reflexivity.
  - apply Forall_cons. split; [|apply Forall_nil_2].
    unfold synthesis_mods_keys.
    repeat (apply Forall_cons; split;
            [eexists; split;
             [reflexivity
             | first [intros Hcopied; discriminate Hcopied
                     | intros _; eexists; reflexivity]] |]).
    apply Forall_nil_2.
  - apply Forall_cons. split; [reflexivity | apply Forall_nil_2].
  - left. left. reflexivity.
Defined.

(** ** The main methods *)

Lemma setitem_fresh {V} (d : odict V) (k : string) (v : V) :
  k ∉ d.*1 → setitem d k v = d ++ [(k, v)].
Proof.
  induction d as [|[k' v'] d IH]; intros Hk; [reflexivity|].
  rewrite fmap_cons, not_elem_of_cons in Hk. destruct Hk as [Hne Hk].
  cbn [setitem fst]. rewrite decide_False by (intros ->; by apply Hne).
  by rewrite IH.
Qed.

Lemma update_disjoint {V} (d o : odict V) :
  NoDup o.*1 → (∀ k, k ∈ o.*1 → k ∉ d.*1) → update d o = d ++ o.
Proof.
  unfold update. revert d.
  induction o as [|[k v] o IH]; intros d Hnd Hdis; cbn [foldl].
  - by rewrite app_nil_r.
  - rewrite fmap_cons in Hnd. apply NoDup_cons in Hnd as [Hk Hnd].
    cbn [fst snd] in *.
    rewrite setitem_fresh by (apply Hdis; rewrite fmap_cons; left).
    rewrite IH; [by rewrite <- app_assoc | exact Hnd |].
    intros k' Hk'. rewrite fmap_app, not_elem_of_app. split.
    + apply Hdis. rewrite fmap_cons. by right.
    + cbn. rewrite not_elem_of_cons. split; [|apply not_elem_of_nil].
      intros ->. by apply Hk.
Qed.

Lemma copy_fields_copyrow_keys (row : record) (keys : list field_spec) (copyrow : record) :
  copy_fields row keys [] = Ok copyrow →
  NoDup copyrow.*1 ∧ ∀ K, K ∈ copyrow.*1 → K ∈ cd_key <$> keys.*2.
Proof.
  intros Hrun. split.
  - apply (copy_fields_NoDup _ _ _ _ Hrun). apply NoDup_nil_2.
  - intros K HK. destruct (copy_fields_keys _ _ _ _ K Hrun HK) as [Hin|Hin]; [|done].
    by apply elem_of_nil in Hin.
Qed.

(** Two files of an entry of [_ENUM_DATA]: with no output key in
    common, record [i] is the projection of row [i] of the first file
    followed by that of row [i] of the second. *)
Lemma enum_tables_two_files (keys1 keys2 : list field_spec) (rows1 rows2 : list record) :
  Forall (λ row, Forall (readable row) keys1) rows1 →
  Forall (λ row, Forall (readable row) keys2) rows2 →
  (∀ K, K ∈ cd_key <$> keys2.*2 → K ∉ cd_key <$> keys1.*2) →
  ∃ map_multi,
    enum_tables [(keys1, rows1); (keys2, rows2)] = Ok map_multi ∧
    length map_multi = length rows1 `max` length rows2 ∧
    ∀ i r1 r2, rows1 !! i = Some r1 → rows2 !! i = Some r2 →
      ∃ c1 c2, copy_fields r1 keys1 [] = Ok c1 ∧ copy_fields r2 keys2 [] = Ok c2
               ∧ map_multi !! i = Some (c1 ++ c2).
Proof.
  intros Hread1 Hread2 Hdis.
  destruct (copy_rows_projections keys1 rows1 [] Hread1) as (recs1 & _ & Hrecs1).
  destruct (copy_rows_projections keys2 rows2 [] Hread2) as (recs2 & _ & Hrecs2).
  exists (lockstep recs1 recs2). split_and!.
  - unfold enum_tables. cbn [for_each fst snd]. unfold copy_rows_enumerated, enumerate.
    pose proof (copy_rows_enumerated_from keys1 rows1 recs1 [] [] 0 eq_refl Hrecs1) as H1.
    cbn [app] in H1. rewrite H1. cbn [mbind result_bind].
    rewrite lockstep_nil_l.
    pose proof (copy_rows_enumerated_from keys2 rows2 recs2 [] recs1 0 eq_refl Hrecs2) as H2.
    cbn [app] in H2. rewrite H2. reflexivity.
  - rewrite length_lockstep.
    by rewrite <- (Forall2_length _ _ _ Hrecs1), <- (Forall2_length _ _ _ Hrecs2).
  - intros i r1 r2 Hr1 Hr2.
    destruct (Forall2_lookup_l _ _ _ _ _ Hrecs1 Hr1) as (c1 & Hc1 & Hrun1).
    destruct (Forall2_lookup_l _ _ _ _ _ Hrecs2 Hr2) as (c2 & Hc2 & Hrun2).
    exists c1, c2. split_and!; [done..|].
    rewrite lookup_lockstep, Hc1, Hc2. f_equal.
    destruct (copy_fields_copyrow_keys _ _ _ Hrun1) as [_ Hk1].
    destruct (copy_fields_copyrow_keys _ _ _ Hrun2) as [Hnd2 Hk2].
    apply update_disjoint; [exact Hnd2|].
    intros K HK HK1. by apply (Hdis K (Hk2 K HK)), Hk1.
Qed.

(** The keys of two concrete lists differ. *)
Ltac keys_differ HK HK' :=
  cbn in HK, HK';
  repeat (apply elem_of_cons in HK as [->|HK];
          [repeat (apply elem_of_cons in HK' as [HK'|HK']; [discriminate HK'|]);
           by apply elem_of_nil in HK' |]);
  by apply elem_of_nil in HK.

(** X20: the files of an entry of [MonsterParser._ENUM_DATA] write
    different output keys, so the merge by position puts the fields
    side by side: over rows that can be read, record [i] of a table is
    the projection of row [i] of its first file followed by the
    projection of row [i] of its second, and nothing is overwritten,
    though both files are read through the same source fields. *)
Theorem X20_enum_data_side_by_side (rr : string → list record)
    (data : odict (list record)) :
  (∀ key data_map file keys,
     (key, data_map) ∈ _ENUM_DATA → (file, keys) ∈ data_map →
     Forall (λ row, Forall (readable row) keys) (rr file)) →
  ∃ data',
    enumerated rr data = Ok data' ∧
    ∀ key file1 keys1 file2 keys2,
      get _ENUM_DATA key = Some [(file1, keys1); (file2, keys2)] →
      ∃ map_multi,
        get data' key = Some map_multi ∧
        length map_multi = length (rr file1) `max` length (rr file2) ∧
        ∀ i r1 r2, rr file1 !! i = Some r1 → rr file2 !! i = Some r2 →
          ∃ c1 c2, copy_fields r1 keys1 [] = Ok c1 ∧ copy_fields r2 keys2 [] = Ok c2
                   ∧ map_multi !! i = Some (c1 ++ c2).
Proof.
  intros Hread. unfold enumerated, _ENUM_DATA in *.
  cbn [for_each fst snd fmap list_fmap].
  edestruct (enum_tables_two_files
               [copy "MapLevel" "level"; copy "Stat1Value" "life"; copy "Stat2Value" "damage"]
               [copy "Stat1Value" "boss_life"; copy "Stat2Value" "boss_damage";
                copy "Stat3Value" "boss_item_quantity"; copy "Stat4Value" "boss_item_rarity"]
               (rr "MonsterMapDifficulty.dat") (rr "MonsterMapBossDifficulty.dat"))
    as (mm & Hmm & Hmm_spec).
  { eapply Hread; [left | left]. }
  { eapply Hread; [left | right; left]. }
  { intros K HK HK'. keys_differ HK HK'. }
  edestruct (enum_tables_two_files
               [copy "Level" "level"; copy "Life" "magic"] [copy "Life" "rare"]
               (rr "MagicMonsterLifeScalingPerLevel.dat")
               (rr "RareMonsterLifeScalingPerLevel.dat"))
    as (ls & Hls & Hls_spec).
  { eapply Hread; [right; left | left]. }
  { eapply Hread; [right; left | right; left]. }
  { intros K HK HK'. keys_differ HK HK'. }
  rewrite Hmm. cbn [mbind result_bind]. rewrite Hls. cbn [mbind result_bind].
  eexists. split; [reflexivity|].
  intros key file1 keys1 file2 keys2 Hget. cbn [get] in Hget.
  destruct (decide ("monster_map_multipliers" = key)) as [<-|Hne1].
  - injection Hget as <- <- <- <-. exists mm. split; [|exact Hmm_spec].
    rewrite get_setitem_ne by done. apply get_setitem_eq.
  - destruct (decide ("monster_life_scaling" = key)) as [<-|Hne2]; [|done].
    injection Hget as <- <- <- <-. exists ls. split; [|exact Hls_spec].
    apply get_setitem_eq.
Qed.

(** *** BestiaryParser: the counter *)

Lemma count_components_run (Id : atom → result string) (row : record)
    (recipe : string) (components : list string) (temp : odict (odict Z)) :
  recipe_reads Id row recipe components →
  count_components Id row temp
  = Ok (foldl (λ temp component, count_component temp recipe component) temp components).
Proof.
  intros (HId & k & xs & Hxs & Hids). unfold count_components, getitem.
  rewrite Hxs. cbn [mbind result_bind]. clear Hxs.
  assert (recipe_key row = Ok recipe) as Hkey.
  { unfold recipe_key, getitem. by rewrite HId. }
  rewrite Hkey. clear Hkey.
  revert components temp Hids.
  induction xs as [|x xs IH]; intros components temp Hids; cbn [mapM] in Hids.
  - injection Hids as <-. reflexivity.
  - destruct (Id x) as [component| |] eqn:Hx; cbn [mbind result_bind] in Hids; try done.
    destruct (mapM Id xs) as [rest| |] eqn:Hrest; cbn [mbind result_bind] in Hids;
      try done.
    injection Hids as <-. cbn [for_each foldl mbind result_bind].
    rewrite Hx. cbn [mbind result_bind]. by apply IH.
Qed.

Lemma recipe_rows_run (Id : atom → result string) (rows : list record)
    (reads : list (string * list string)) (recipes : list record)
    (temp : odict (odict Z)) :
  Forall (λ row, Forall (readable row) _COPY_KEYS_BESTIARY) rows →
  Forall2 (λ row rd, recipe_reads Id row rd.1 rd.2) rows reads →
  ∃ recs,
    for_each (recipe_row Id) rows (recipes, temp)
    = Ok (recipes ++ recs,
          foldl (λ temp p, count_component temp p.1 p.2) temp (references reads))
    ∧ Forall2 (λ row rec, copy_fields row _COPY_KEYS_BESTIARY [] = Ok rec) rows recs.
Proof.
  intros Hread Hreads. revert recipes temp Hread.
  induction Hreads as [|row [recipe components] rows reads Hrow _ IH];
    intros recipes temp Hread.
  - exists []. by rewrite app_nil_r.
  - apply Forall_cons in Hread as [Hrow_read Hread].
    destruct (copy_fields_returns row _COPY_KEYS_BESTIARY [] Hrow_read) as [rec Hrec].
    cbn [fst snd] in Hrow.
    assert (recipe_row Id row (recipes, temp)
            = Ok (recipes ++ [rec],
                  foldl (λ temp component, count_component temp recipe component)
                    temp components)) as Hstep.
    { unfold recipe_row. cbn [fst snd].
      rewrite (_copy_from_keys_append _ _ _ _ Hrec). cbn [mbind result_bind].
      by rewrite (count_components_run _ _ _ _ _ Hrow). }
    cbn [for_each]. rewrite Hstep. cbn [mbind result_bind].
    destruct (IH (recipes ++ [rec])
                (foldl (λ temp component, count_component temp recipe component)
                   temp components) Hread) as (recs & -> & Hrecs).
    exists (rec :: recs). split; [|by constructor].
    rewrite <- app_assoc. do 2 f_equal.
    unfold references. cbn [mbind list_bind]. fold (references reads).
    rewrite foldl_app. f_equal.
    clear. revert temp. induction components as [|c cs IH]; intros temp; [done|].
    rewrite fmap_cons. cbn [foldl fst snd]. apply IH.
Qed.

Lemma amount_count_component (temp : odict (odict Z)) (recipe component : string)
    (p : string * string) :
  amount (count_component temp recipe component) p
  = (amount temp p + if decide (p = (recipe, component)) then 1 else 0)%Z.
Proof.
  destruct p as [r c]. unfold amount, count_component, count_up. cbn [fst snd].
  destruct (decide (recipe = r)) as [->|Hr].
  - rewrite get_setitem_eq. cbn [default from_option id].
    destruct (decide (component = c)) as [->|Hc].
    + rewrite get_setitem_eq, decide_True by done. reflexivity.
    + rewrite get_setitem_ne, decide_False by congruence. lia.
  - rewrite get_setitem_ne, decide_False by congruence. lia.
Qed.

Lemma counted_count_component (temp : odict (odict Z)) (recipe component : string) :
  counted temp → counted (count_component temp recipe component).
Proof.
  intros [Hnd Hin]. split; [by apply NoDup_keys_setitem|].
  intros r data Hget. unfold count_component in Hget.
  destruct (decide (recipe = r)) as [->|Hr].
  - rewrite get_setitem_eq in Hget. injection Hget as <-.
    assert (NoDup (default [] (get temp r)).*1
            ∧ ∀ c n, get (default [] (get temp r)) c = Some n → (0 < n)%Z) as [Hnd' Hpos].
    { destruct (get temp r) as [d|] eqn:Hd; cbn [default from_option id];
        [by apply (Hin r)|].
      split; [apply NoDup_nil_2 | done]. }
    split; [by apply NoDup_keys_setitem|].
    intros c n. unfold count_up.
    destruct (decide (component = c)) as [->|Hc].
    + rewrite get_setitem_eq. intros [= <-].
      destruct (get (default [] (get temp r)) c) as [m|] eqn:Hm; cbn [default from_option id]; [|lia].
      specialize (Hpos c m Hm). lia.
    + rewrite get_setitem_ne by done. apply Hpos.
  - rewrite get_setitem_ne in Hget by done. by apply (Hin r).
Qed.

Lemma counter_counts (refs : list (string * string)) (temp : odict (odict Z)) :
  counted temp →
  counted (foldl (λ temp p, count_component temp p.1 p.2) temp refs)
  ∧ ∀ p, amount (foldl (λ temp p, count_component temp p.1 p.2) temp refs) p
         = (amount temp p + occurrences p refs)%Z.
Proof.
  revert temp. induction refs as [|[r c] refs IH]; intros temp Hc; cbn [foldl fst snd].
  - split; [done|]. intros p. unfold occurrences. cbn. lia.
  - destruct (IH _ (counted_count_component temp r c Hc)) as [Hc' Ham].
    split; [done|]. intros p. rewrite Ham, amount_count_component.
    unfold occurrences. rewrite filter_cons.
    destruct (decide ((r, c) = p)) as [->|Hne].
    + rewrite decide_True by done. cbn [length]. lia.
    + rewrite decide_False by congruence. lia.
Qed.

Lemma elem_of_recipe_components (temp : odict (odict Z)) (r : record) :
  r ∈ recipe_components temp
  ↔ ∃ recipe data component n,
      (recipe, data) ∈ temp ∧ (component, n) ∈ data
      ∧ r = recipe_component recipe component n.
Proof.
  unfold recipe_components. rewrite list_elem_of_bind. split.
  - intros ([recipe data] & Hr & Hin). apply list_elem_of_bind in Hr.
    destruct Hr as ([component n] & Hr & Hin'). apply list_elem_of_singleton in Hr.
    by exists recipe, data, component, n.
  - intros (recipe & data & component & n & Hin & Hin' & ->).
    exists (recipe, data). split; [|done]. apply list_elem_of_bind.
    exists (component, n). split; [|done]. by apply list_elem_of_singleton.
Qed.

Lemma counted_amount (temp : odict (odict Z)) (recipe component : string) (n : Z) :
  counted temp →
  (∃ data, (recipe, data) ∈ temp ∧ (component, n) ∈ data)
  ↔ (0 < n)%Z ∧ n = amount temp (recipe, component).
Proof.
  intros [Hnd Hin]. unfold amount. cbn [fst snd]. split.
  - intros (data & Hdata & Hn).
    apply (get_elem_of_NoDup _ _ _ Hnd) in Hdata.
    destruct (Hin _ _ Hdata) as [Hnd' Hpos].
    apply (get_elem_of_NoDup _ _ _ Hnd') in Hn.
    rewrite Hdata. cbn [default from_option id]. rewrite Hn. cbn [default from_option id].
    split; [by apply (Hpos component) | done].
  - intros [Hpos ->].
    destruct (get temp recipe) as [data|] eqn:Hdata; cbn [default from_option id get] in *; [|lia].
    destruct (get data component) as [m|] eqn:Hm; cbn [default from_option id] in *; [|lia].
    exists data. split; by apply get_Some_elem_of.
Qed.

Lemma NoDup_recipe_components (temp : odict (odict Z)) :
  counted temp →
  NoDup ((λ r : record, (get r "recipe_id", get r "component_id"))
           <$> recipe_components temp).
Proof.
  intros [Hnd Hin].
  assert (∀ recipe data, (recipe, data) ∈ temp → NoDup data.*1) as Hdata.
  { intros recipe data Hel. apply (get_elem_of_NoDup _ _ _ Hnd) in Hel.
    by apply (Hin recipe). }
  clear Hin. unfold recipe_components.
  induction temp as [|[recipe data] temp IH]; [apply NoDup_nil_2|].
  rewrite fmap_cons in Hnd. apply NoDup_cons in Hnd as [Hfresh Hnd].
  cbn [mbind list_bind]. rewrite fmap_app. apply NoDup_app. split_and!.
  - assert (NoDup data.*1) as Hd by (apply (Hdata recipe); left).
    clear -Hd. induction data as [|[c n] data IH]; [apply NoDup_nil_2|].
    rewrite fmap_cons in Hd. apply NoDup_cons in Hd as [Hc Hd].
    cbn [mbind list_bind app]. rewrite fmap_cons. apply NoDup_cons. split; [|by apply IH].
    intros Hel. apply list_elem_of_fmap in Hel as (r & Heq & Hr).
    apply list_elem_of_bind in Hr as ([c' n'] & Hr & Hel).
    apply list_elem_of_singleton in Hr as ->. cbn in Heq.
    injection Heq as <-. apply Hc. apply list_elem_of_fmap. by exists (c, n').
  - intros p Hp Hp'.
    apply list_elem_of_fmap in Hp as (r & -> & Hr).
    apply list_elem_of_bind in Hr as ([c n] & Hr & _).
    apply list_elem_of_singleton in Hr as ->.
    apply list_elem_of_fmap in Hp' as (r' & Heq & Hr').
    apply list_elem_of_bind in Hr' as ([recipe' data'] & Hr' & Hel).
    apply list_elem_of_bind in Hr' as ([c' n'] & Hr' & _).
    apply list_elem_of_singleton in Hr' as ->. cbn in Heq.
    injection Heq as -> _. apply Hfresh. apply list_elem_of_fmap.
    by exists (recipe', data').
  - apply IH; [done|]. intros r d Hel. apply (Hdata r). by right.
Qed.

(** X21: the counter of [BestiaryParser.main] counts the references
    from recipes to components.  Over recipe rows that can be read,
    the first loop makes one record per row, and [recipe_components]
    has exactly one record for every pair of a recipe and a component
    that is referenced, with the number of times it is as amount: no
    pair comes twice and no amount is below 1. *)
Theorem X21_recipe_components_count (Id : atom → result string) (rows : list record)
    (reads : list (string * list string)) :
  Forall (λ row, Forall (readable row) _COPY_KEYS_BESTIARY) rows →
  Forall2 (λ row rd, recipe_reads Id row rd.1 rd.2) rows reads →
  ∃ recipes temp,
    for_each (recipe_row Id) rows ([], []) = Ok (recipes, temp) ∧
    length recipes = length rows ∧
    NoDup ((λ r : record, (get r "recipe_id", get r "component_id"))
             <$> recipe_components temp) ∧
    ∀ recipe component n,
      recipe_component recipe component n ∈ recipe_components temp
      ↔ (0 < n)%Z ∧ n = occurrences (recipe, component) (references reads).
Proof.
  intros Hread Hreads.
  destruct (recipe_rows_run Id rows reads [] [] Hread Hreads) as (recs & Hrun & Hrecs).
  assert (counted ([] : odict (odict Z))) as Hc0.
  { split; [apply NoDup_nil_2 | done]. }
  destruct (counter_counts (references reads) [] Hc0) as [Hc Ham].
  eexists _, _. split_and!; [exact Hrun | | by apply NoDup_recipe_components |].
  - cbn [app]. symmetry. apply (Forall2_length _ _ _ Hrecs).
  - intros recipe component n. rewrite elem_of_recipe_components.
    rewrite <- (Z.add_0_l (occurrences _ _)).
    change 0%Z with (amount [] (recipe, component)) at 2.
    rewrite <- Ham, <- (counted_amount _ _ _ _ Hc). split.
    + intros (recipe' & data & component' & n' & Hin & Hin' & Heq).
      injection Heq as -> -> ->. by exists data.
    + intros (data & Hin & Hin'). by exists recipe, data, component, n.
Qed.

(** *** The record just appended: [out[-1]] *)

Lemma set_last_app (out : list record) (d : record) (k : string) (v : value) :
  set_last (out ++ [d]) k v = Ok (out ++ [setitem d k v]).
Proof.
  unfold set_last, list_index. rewrite length_app. cbn [length].
  rewrite decide_False by lia. rewrite decide_True by lia.
  replace (Z.to_nat (Z.of_nat (length out + 1) + -1)) with (length out + 0)%nat by lia.
  rewrite lookup_app_r, Nat.add_comm, Nat.add_sub by lia. cbn [lookup list_lookup].
  rewrite Nat.add_comm, insert_app_r. reflexivity.
Qed.

Lemma component_keys_no_rarity (Id Name : atom → result string) :
  "rarity" ∉ cd_key <$> (_COPY_KEYS_BESTIARY_COMPONENTS Id Name).*2.
Proof.
  cbn. rewrite !not_elem_of_cons. split_and!; try done. apply not_elem_of_nil.
Qed.

Lemma component_row_ANY (ClientStrings : odict string) (Id Name : atom → result string)
    (row : BestiaryRecipeComponentRow) (components : list record) (copyrow : record) :
  copy_fields (component_fields row) (_COPY_KEYS_BESTIARY_COMPONENTS Id Name) []
  = Ok copyrow →
  component_RarityKey row = ANY →
  component_row ClientStrings Id Name row components = Ok (components ++ [copyrow]).
Proof.
  intros Hcopy Hany. unfold component_row.
  rewrite (_copy_from_keys_append _ _ _ _ Hcopy). cbn [mbind result_bind].
  by rewrite Hany.
Qed.

Lemma component_row_Rarity (ClientStrings : odict string) (Id Name : atom → result string)
    (row : BestiaryRecipeComponentRow) (components : list record) (copyrow : record)
    (name_upper : string) :
  copy_fields (component_fields row) (_COPY_KEYS_BESTIARY_COMPONENTS Id Name) []
  = Ok copyrow →
  component_RarityKey row = Rarity name_upper →
  component_row ClientStrings Id Name row components
  = match get ClientStrings ("ItemDisplayString" +:+ name_upper) with
    | Some text => Ok (components ++ [copyrow ++ [("rarity", VAtom (AStr text))]])
    | None => Raise (KeyError ("ItemDisplayString" +:+ name_upper))
    end.
Proof.
  intros Hcopy Hrarity. unfold component_row.
  rewrite (_copy_from_keys_append _ _ _ _ Hcopy). cbn [mbind result_bind].
  rewrite Hrarity. unfold rarity_text, getitem.
  destruct (get ClientStrings _) as [text|]; [|done]. cbn [mbind result_bind].
  rewrite set_last_app, setitem_fresh; [done|].
  intros Hin. apply (component_keys_no_rarity Id Name).
  destruct (copy_fields_copyrow_keys _ _ _ Hcopy) as [_ Hkeys]. by apply Hkeys.
Qed.

(** X22: the rarity of a bestiary component goes on the record made
    from its own row.  Over rows that can be read, the second loop of
    [BestiaryParser.main] appends one record per row: the projection
    of the row, followed by ['rarity'] with the text of the client
    string exactly when the rarity is not [RARITY.ANY]; and a rarity
    without its client string ends the loop with [KeyError]. *)
Theorem X22_component_rarity (ClientStrings : odict string)
    (Id Name : atom → result string) (rows : list BestiaryRecipeComponentRow)
    (components : list record) :
  Forall (λ row, Forall (readable (component_fields row))
                   (_COPY_KEYS_BESTIARY_COMPONENTS Id Name)) rows →
  ((∀ row name_upper, row ∈ rows → component_RarityKey row = Rarity name_upper →
      is_Some (get ClientStrings ("ItemDisplayString" +:+ name_upper))) →
   ∃ recs,
     for_each (component_row ClientStrings Id Name) rows components
     = Ok (components ++ recs) ∧
     Forall2 (λ row rec,
                ∃ copyrow,
                  copy_fields (component_fields row)
                    (_COPY_KEYS_BESTIARY_COMPONENTS Id Name) [] = Ok copyrow ∧
                  match component_RarityKey row with
                  | ANY => rec = copyrow
                  | Rarity name_upper =>
                      ∃ text,
                        get ClientStrings ("ItemDisplayString" +:+ name_upper) = Some text
                        ∧ rec = copyrow ++ [("rarity", VAtom (AStr text))]
                  end) rows recs)
  ∧ ((∃ row name_upper, row ∈ rows ∧ component_RarityKey row = Rarity name_upper
                        ∧ get ClientStrings ("ItemDisplayString" +:+ name_upper) = None) →
     ∃ name_upper,
       get ClientStrings ("ItemDisplayString" +:+ name_upper) = None ∧
       for_each (component_row ClientStrings Id Name) rows components
       = Raise (KeyError ("ItemDisplayString" +:+ name_upper))).
Proof.
  intros Hread. revert components.
  induction Hread as [|row rows Hrow _ IH]; intros components.
  - split.
    + intros _. exists []. by rewrite app_nil_r.
    + intros (row & n & Hin & _). by apply elem_of_nil in Hin.
  - destruct (copy_fields_returns _ _ [] Hrow) as [copyrow Hcopy].
    cbn [for_each].
    destruct (component_RarityKey row) as [|name_upper] eqn:Hrarity.
    + rewrite (component_row_ANY _ _ _ _ _ _ Hcopy Hrarity). cbn [mbind result_bind].
      destruct (IH (components ++ [copyrow])) as [IHok IHbad]. split.
      * intros Hstrings. destruct IHok as (recs & -> & Hrecs).
        { intros r n Hr. apply Hstrings. by right. }
        exists (copyrow :: recs). rewrite <- app_assoc. split; [done|].
        constructor; [|done]. exists copyrow. by rewrite Hrarity.
      * intros (r & n & Hin & Hr & Hmiss). apply IHbad.
        apply elem_of_cons in Hin as [->|Hin]; [congruence|]. by exists r, n.
    + rewrite (component_row_Rarity _ _ _ _ _ _ _ Hcopy Hrarity).
      destruct (get ClientStrings ("ItemDisplayString" +:+ name_upper)) as [text|] eqn:Htext.
      * cbn [mbind result_bind].
        destruct (IH (components ++ [copyrow ++ [("rarity", VAtom (AStr text))]]))
          as [IHok IHbad]. split.
        -- intros Hstrings. destruct IHok as (recs & -> & Hrecs).
           { intros r n Hr. apply Hstrings. by right. }
           exists ((copyrow ++ [("rarity", VAtom (AStr text))]) :: recs).
           rewrite <- app_assoc. split; [done|].
           constructor; [|done]. exists copyrow. rewrite Hrarity. split; [done|].
           by exists text.
        -- intros (r & n & Hin & Hr & Hmiss). apply IHbad.
           apply elem_of_cons in Hin as [->|Hin]; [congruence|]. by exists r, n.
      * cbn [mbind result_bind]. split.
        -- intros Hstrings. destruct (Hstrings row name_upper) as [text Htext'];
             [left | done | congruence].
        -- intros _. by exists name_upper.
Qed.

(** *** DelveParser *)

Lemma upgrade_keys_fresh (name_lower : value → result value) (K : string) :
  K ∈ ["cost"; "id"; "value"] →
  K ∉ cd_key <$> (_COPY_KEYS_DELVE_UPGRADES name_lower).*2.
Proof.
  intros HK HK'. keys_differ HK HK'.
Qed.

Lemma upgrade_stats_run (Id : atom → result string) (name_lower : value → result value)
    (fields copyrow : record) (Stats : list (atom * value)) (stats : list record) :
  copy_fields fields (_COPY_KEYS_DELVE_UPGRADES name_lower) [] = Ok copyrow →
  Forall (λ sv, returns (Id sv.1)) Stats →
  ∃ group,
    for_each (λ (sv : atom * value) delve_upgrade_stats,
                delve_upgrade_stats ← _copy_from_keys fields
                                         (_COPY_KEYS_DELVE_UPGRADES name_lower)
                                         delve_upgrade_stats None;
                id ← Id sv.1;
                delve_upgrade_stats ← set_last delve_upgrade_stats "id" (VAtom (AStr id));
                set_last delve_upgrade_stats "value" sv.2)
      Stats stats
    = Ok (stats ++ group) ∧
    Forall2 (λ sv rec, ∃ id, Id sv.1 = Ok id
                             ∧ rec = copyrow ++ [("id", VAtom (AStr id)); ("value", sv.2)])
      Stats group.
Proof.
  intros Hcopy HId. revert stats.
  induction HId as [|[stat v] Stats [id Hid] _ IH]; intros stats.
  - exists []. by rewrite app_nil_r.
  - cbn [for_each fst snd] in *.
    rewrite (_copy_from_keys_append _ _ _ _ Hcopy). cbn [mbind result_bind].
    rewrite Hid. cbn [mbind result_bind].
    rewrite set_last_app. cbn [mbind result_bind]. rewrite set_last_app.
    destruct (copy_fields_copyrow_keys _ _ _ Hcopy) as [_ Hkeys].
    rewrite (setitem_fresh copyrow "id").
    2:{ intros Hin. apply (upgrade_keys_fresh name_lower "id"); [right; left | by apply Hkeys]. }
    rewrite (setitem_fresh _ "value").
    2:{ rewrite fmap_app, not_elem_of_app. split.
        - intros Hin. apply (upgrade_keys_fresh name_lower "value");
            [right; right; left | by apply Hkeys].
        - cbn. rewrite not_elem_of_cons. split; [done | apply not_elem_of_nil]. }
    rewrite <- app_assoc. cbn [app mbind result_bind].
    destruct (IH (stats ++ [copyrow ++ [("id", VAtom (AStr id)); ("value", v)]]))
      as (group & -> & Hgroup).
    exists ((copyrow ++ [("id", VAtom (AStr id)); ("value", v)]) :: group).
    rewrite <- app_assoc. split; [done|]. constructor; [|done]. by exists id.
Qed.

Lemma upgrade_row_step (Id : atom → result string) (name_lower : value → result value)
    (row : DelveUpgradesRow) (upgrades stats : list record) (copyrow : record)
    (cost : value) :
  copy_fields (upgrade_fields row) (_COPY_KEYS_DELVE_UPGRADES name_lower) [] = Ok copyrow →
  get (upgrade_fields row) "Cost" = Some cost →
  Forall (λ sv, returns (Id sv.1)) (upgrade_Stats row) →
  ∃ group,
    upgrade_row Id name_lower row (upgrades, stats)
    = Ok (upgrades ++ [copyrow ++ [("cost", cost)]], stats ++ group) ∧
    Forall2 (λ sv rec, ∃ id, Id sv.1 = Ok id
                             ∧ rec = copyrow ++ [("id", VAtom (AStr id)); ("value", sv.2)])
      (upgrade_Stats row) group.
Proof.
  intros Hcopy Hc Hids.
  destruct (upgrade_stats_run Id name_lower _ _ _ stats Hcopy Hids)
    as (group & Hgroup_run & Hgroup).
  exists group. split; [|done].
  unfold upgrade_row. cbn [fst snd].
  rewrite (_copy_from_keys_append _ _ _ _ Hcopy). cbn [mbind result_bind].
  unfold getitem. rewrite Hc. cbn [mbind result_bind].
  rewrite set_last_app. cbn [mbind result_bind].
  rewrite Hgroup_run. cbn [mbind result_bind].
  rewrite setitem_fresh; [done|].
  destruct (copy_fields_copyrow_keys _ _ _ Hcopy) as [_ Hkeys].
  intros Hin. apply (upgrade_keys_fresh name_lower "cost"); [left | by apply Hkeys].
Qed.

(** X23: both tables of [DelveUpgrades.dat] are written through
    [out[-1]], which is the record just appended, since
    [_copy_from_keys] without an index always appends.  Over rows that
    can be read, [delve_upgrades] gets one record per row, the
    projection followed by ['cost'], whatever the cost is; and
    [delve_upgrade_stats] gets one record per pair of [row['Stats']],
    in order, the projection of the row followed by ['id'] and
    ['value']. *)
Theorem X23_delve_upgrades (Id : atom → result string)
    (name_lower : value → result value) (rows : list DelveUpgradesRow)
    (upgrades stats : list record) :
  Forall (λ row, Forall (readable (upgrade_fields row))
                   (_COPY_KEYS_DELVE_UPGRADES name_lower)) rows →
  Forall (λ row, is_Some (get (upgrade_fields row) "Cost")) rows →
  Forall (λ row, Forall (λ sv, returns (Id sv.1)) (upgrade_Stats row)) rows →
  ∃ recs groups,
    for_each (upgrade_row Id name_lower) rows (upgrades, stats)
    = Ok (upgrades ++ recs, stats ++ concat groups) ∧
    Forall2 (λ row rec,
               ∃ copyrow cost,
                 copy_fields (upgrade_fields row) (_COPY_KEYS_DELVE_UPGRADES name_lower) []
                 = Ok copyrow ∧
                 get (upgrade_fields row) "Cost" = Some cost ∧
                 rec = copyrow ++ [("cost", cost)]) rows recs ∧
    Forall2 (λ row group,
               ∃ copyrow,
                 copy_fields (upgrade_fields row) (_COPY_KEYS_DELVE_UPGRADES name_lower) []
                 = Ok copyrow ∧
                 Forall2 (λ sv rec,
                            ∃ id, Id sv.1 = Ok id
                                  ∧ rec = copyrow ++ [("id", VAtom (AStr id));
                                                      ("value", sv.2)])
                   (upgrade_Stats row) group) rows groups.
Proof.
  intros Hread Hcost HId. revert upgrades stats Hcost HId.
  induction Hread as [|row rows Hrow _ IH]; intros upgrades stats Hcost HId.
  - exists [], []. cbn [for_each concat]. by rewrite !app_nil_r.
  - apply Forall_cons in Hcost as [[cost Hc] Hcost].
    apply Forall_cons in HId as [Hids HId].
    destruct (copy_fields_returns _ _ [] Hrow) as [copyrow Hcopy].
    destruct (upgrade_row_step Id name_lower row upgrades stats _ _ Hcopy Hc Hids)
      as (group & Hstep & Hgroup).
    cbn [for_each]. rewrite Hstep. cbn [mbind result_bind].
    destruct (IH (upgrades ++ [copyrow ++ [("cost", cost)]]) (stats ++ group) Hcost HId)
      as (recs & groups & -> & Hrecs & Hgroups).
    exists ((copyrow ++ [("cost", cost)]) :: recs), (group :: groups).
    cbn [concat]. rewrite <- !app_assoc. split_and!; [done | |].
    + constructor; [|done]. by exists copyrow, cost.
    + constructor; [|done]. by exists copyrow.
Qed.

(** *** Projection, then serialisation *)

Lemma copy_fields_Forall (Q : value → Prop) (row : record) (keys : list field_spec)
    (acc copyrow : record) :
  (∀ spec v v', spec ∈ keys → get row spec.1 = Some v → is_copied v = true →
     transformed spec.2 v = Ok v' → Q v') →
  Forall (λ kv, Q kv.2) acc →
  copy_fields row keys acc = Ok copyrow →
  Forall (λ kv, Q kv.2) copyrow.
Proof.
  revert acc. induction keys as [|[k cd] keys IH]; intros acc HQ Hacc Hrun;
    cbn [copy_fields] in Hrun.
  - by injection Hrun as <-.
  - unfold getitem in Hrun. destruct (get row k) as [v|] eqn:Hv; [|done].
    cbn [mbind result_bind] in Hrun.
    assert (∀ spec v v', spec ∈ keys → get row spec.1 = Some v → is_copied v = true →
              transformed spec.2 v = Ok v' → Q v') as HQ'.
    { intros spec w w' Hin. apply HQ. by right. }
    destruct (is_copied v) eqn:Hcopied; [|by apply (IH acc)].
    destruct (transformed cd v) as [v'| |] eqn:Hv'; cbn [mbind result_bind] in Hrun;
      try done.
    apply (IH (setitem acc (cd_key cd) v')); [done | | done].
    apply Forall_setitem; [done|]. cbn [snd].
    apply (HQ (k, cd) v v'); [left | done..].
Qed.

Lemma get_plain_row (row : record) (k : string) (v : value) :
  plain_row row → get row k = Some v → ref_free v.
Proof.
  intros Hrow Hget. apply get_Some_elem_of in Hget.
  unfold plain_row in Hrow. rewrite Forall_forall in Hrow. by apply (Hrow (k, v)).
Qed.

Lemma copied_serialisable (v : value) :
  ref_free v → is_copied v = true → serialisable v.
Proof. intros Hfree [Hnone _]%is_copied_true. by split. Qed.

Lemma readable_plain_spec (row : record) (spec : field_spec) :
  cd_value spec.2 = None → is_Some (get row spec.1) → readable row spec.
Proof.
  intros Hplain [v Hv]. exists v. split; [done|]. intros _. unfold transformed.
  rewrite Hplain. by eexists.
Qed.

Lemma copy_rows_serialisable (keys : list field_spec) (rows : list record) :
  Forall (λ spec, cd_value spec.2 = None) keys →
  Forall (λ row, plain_row row ∧ Forall (λ spec, is_Some (get row spec.1)) keys) rows →
  ∃ recs,
    copy_rows keys rows [] = Ok recs ∧
    length recs = length rows ∧
    Forall (Forall (λ kv, serialisable kv.2)) recs.
Proof.
  intros Hplain Hrows.
  destruct (copy_rows_projections keys rows []) as (recs & Hrun & Hrecs).
  { eapply Forall_impl; [exact Hrows|]. intros row [_ Hfields]. cbn beta.
    rewrite Forall_forall in Hplain, Hfields. apply Forall_forall. intros spec Hin.
    apply readable_plain_spec; [by apply Hplain | by apply Hfields]. }
  exists recs. cbn [app] in Hrun. split_and!; [done | |].
  { symmetry. apply (Forall2_length _ _ _ Hrecs). }
  clear Hrun. induction Hrecs as [|row rec rows recs Hrec _ IH]; [done|].
  apply Forall_cons in Hrows as [[Hrow _] Hrows].
  constructor; [|by apply IH].
  apply (copy_fields_Forall serialisable row keys [] rec); [|done|done].
  intros spec v v' Hin Hv Hcopied Hv'. unfold transformed in Hv'.
  rewrite Forall_forall in Hplain. rewrite (Hplain spec Hin) in Hv'.
  injection Hv' as <-. apply copied_serialisable; [|done].
  by apply (get_plain_row row spec.1).
Qed.

Lemma lua_formatter_outcome (outdata : list record) :
  Forall (Forall (λ kv, ref_free kv.2)) outdata →
  if decide (Exists (Exists (λ kv : string * value, kv.2 = VAtom ANone)) outdata)
  then lua_formatter outdata = Raise AttributeError
  else returns (lua_formatter outdata).
Proof.
  intros Hfree. unfold lua_formatter.
  destruct (format_records_ref_free outdata ["local data = {" +:+ nl] Hfree)
    as [Hbad Hgood].
  destruct (decide _) as [Hex|Hnex].
  - by rewrite (Hbad Hex).
  - destruct Hgood as [out ->]; [|by eexists].
    apply Forall_forall. intros r Hr. apply Forall_forall. intros kv Hkv Hnone.
    apply Hnex, Exists_exists. exists r. split; [done|].
    apply Exists_exists. by exists kv.
Qed.

Lemma lua_formatter_serialisable (outdata : list record) :
  Forall (Forall (λ kv, serialisable kv.2)) outdata → returns (lua_formatter outdata).
Proof.
  intros Hall. pose proof (lua_formatter_outcome outdata) as Hout.
  destruct (decide _) as [Hex|Hnex].
  - exfalso. apply Exists_exists in Hex as (r & Hr & Hex).
    apply Exists_exists in Hex as (kv & Hkv & Hnone).
    rewrite Forall_forall in Hall. specialize (Hall r Hr).
    rewrite Forall_forall in Hall. by destruct (Hall kv Hkv).
  - apply Hout. eapply Forall_impl; [exact Hall|]. intros r Hr.
    eapply Forall_impl; [exact Hr|]. by intros kv [? _].
Qed.

(** X24: the sparse projection protects the serialiser.  With field
    specs that have no transform, over rows that have the fields and
    hold no row objects, the loop of the main methods returns one
    record per row and [lua_formatter] returns a text for them: a
    [None], which would raise [AttributeError], is never copied. *)
Theorem X24_projection_serialises (keys : list field_spec) (rows : list record) :
  Forall (λ spec, cd_value spec.2 = None) keys →
  Forall (λ row, plain_row row ∧ Forall (λ spec, is_Some (get row spec.1)) keys) rows →
  ∃ recs text,
    copy_rows keys rows [] = Ok recs ∧
    length recs = length rows ∧
    Forall (Forall (λ kv, kv.2 ≠ VAtom ANone)) recs ∧
    lua_formatter recs = Ok text.
Proof.
  intros Hplain Hrows.
  destruct (copy_rows_serialisable keys rows Hplain Hrows) as (recs & Hrun & Hlen & Hser).
  destruct (lua_formatter_serialisable recs Hser) as [text Htext].
  exists recs, text. split_and!; [done..| |done].
  eapply Forall_impl; [exact Hser|]. intros r Hr.
  eapply Forall_impl; [exact Hr|]. by intros kv [_ ?].
Qed.

(** *** DelveParser.main *)

Lemma upgrade_copyrow_serialisable (name_lower : value → result value)
    (fields copyrow : record) :
  (∀ v v', name_lower v = Ok v' → ∃ s, v' = VAtom (AStr s)) →
  (∀ v, get fields "UpgradeLevel" = Some v → ref_free v) →
  copy_fields fields (_COPY_KEYS_DELVE_UPGRADES name_lower) [] = Ok copyrow →
  Forall (λ kv, serialisable kv.2) copyrow.
Proof.
  intros Hname Hlevel Hcopy.
  apply (copy_fields_Forall serialisable fields
           (_COPY_KEYS_DELVE_UPGRADES name_lower) [] copyrow); [|done|done].
  intros spec v v' Hin Hv Hcopied Hv'. unfold _COPY_KEYS_DELVE_UPGRADES in Hin.
  apply elem_of_cons in Hin as [->|Hin].
  - destruct (Hname v v' Hv') as [s ->]. by split.
  - apply elem_of_cons in Hin as [->|Hin]; [|by apply elem_of_nil in Hin].
    injection Hv' as <-. apply copied_serialisable; [by apply Hlevel | done].
Qed.

Lemma upgrade_rows_values (Id : atom → result string) (name_lower : value → result value)
    (rows : list DelveUpgradesRow) (upgrades stats : list record) :
  (∀ v v', name_lower v = Ok v' → ∃ s, v' = VAtom (AStr s)) →
  Forall (upgrade_readable Id name_lower) rows →
  ∃ recs groups,
    for_each (upgrade_row Id name_lower) rows (upgrades, stats)
    = Ok (upgrades ++ recs, stats ++ groups) ∧
    Forall (Forall (λ kv, ref_free kv.2)) recs ∧
    Forall (Forall (λ kv, serialisable kv.2)) groups ∧
    (Exists (λ row, get (upgrade_fields row) "Cost" = Some (VAtom ANone)) rows →
       Exists (Exists (λ kv : string * value, kv.2 = VAtom ANone)) recs) ∧
    (Forall (λ row, get (upgrade_fields row) "Cost" ≠ Some (VAtom ANone)) rows →
       Forall (Forall (λ kv, serialisable kv.2)) recs).
Proof.
  intros Hname Hrows. revert upgrades stats.
  induction Hrows as [|row rows (Hread & Hlevel & (cost & Hc & Hcost_free) & Hstats) _ IH];
    intros upgrades stats.
  - exists [], []. cbn [for_each]. rewrite !app_nil_r. split_and!; try done.
    by intros ?%Exists_nil.
  - destruct (copy_fields_returns _ _ [] Hread) as [copyrow Hcopy].
    pose proof (upgrade_copyrow_serialisable _ _ _ Hname Hlevel Hcopy) as Hser.
    destruct (upgrade_row_step Id name_lower row upgrades stats _ _ Hcopy Hc)
      as (group & Hstep & Hgroup).
    { eapply Forall_impl; [exact Hstats|]. by intros sv [? _]. }
    cbn [for_each]. rewrite Hstep. cbn [mbind result_bind].
    destruct (IH (upgrades ++ [copyrow ++ [("cost", cost)]]) (stats ++ group))
      as (recs & groups & -> & Hfree & Hgroups & Hbad & Hgood).
    exists ((copyrow ++ [("cost", cost)]) :: recs), (group ++ groups).
    rewrite <- !app_assoc. split_and!; [done | | | |].
    + constructor; [|done]. apply Forall_app. split.
      * eapply Forall_impl; [exact Hser|]. by intros kv [? _].
      * constructor; [done | constructor].
    + apply Forall_app. split; [|done].
      clear -Hgroup Hstats Hser.
      induction Hgroup as [|sv rec Stats group (id & _ & ->) _ IHg]; [done|].
      apply Forall_cons in Hstats as [[_ Hv] Hstats].
      constructor; [|by apply IHg].
      apply Forall_app. split; [done|].
      constructor; [by split|]. constructor; [done|]. constructor.
    + intros [Hnone|Hex]%Exists_cons.
      * left. apply Exists_app. right. left. cbn [snd]. congruence.
      * right. by apply Hbad.
    + intros [Hsome Hall]%Forall_cons. constructor; [|by apply Hgood].
      apply Forall_app. split; [done|]. constructor; [|done]. cbn [snd].
      split; [done|]. intros ->. by apply Hsome.
Qed.

(** X25: the cost of a delve upgrade is not filtered.
    [DelveParser.main] assigns ['cost'] directly, so a [None] cost,
    which the projection would have left out, reaches the serialiser:
    with tables that are otherwise read and serialised without
    raising, [main] raises [AttributeError] when some row of
    [DelveUpgrades.dat] has no cost, and returns its four files when
    every row has one. *)
Theorem X25_delve_cost_not_filtered (Id : atom → result string)
    (name_lower : value → result value)
    (DelveLevelScaling_dat DelveResourcePerLevel_dat : list record)
    (DelveUpgrades_dat : list DelveUpgradesRow) :
  (∀ v v', name_lower v = Ok v' → ∃ s, v' = VAtom (AStr s)) →
  plain_rows _COPY_KEYS_DELVE_LEVEL_SCALING DelveLevelScaling_dat →
  plain_rows _COPY_KEYS_DELVE_RESOURCES_PER_LEVEL DelveResourcePerLevel_dat →
  Forall (upgrade_readable Id name_lower) DelveUpgrades_dat →
  (Exists (λ row, get (upgrade_fields row) "Cost" = Some (VAtom ANone)) DelveUpgrades_dat →
     DelveParser_main Id name_lower DelveLevelScaling_dat DelveResourcePerLevel_dat
       DelveUpgrades_dat = Raise AttributeError)
  ∧ (Forall (λ row, get (upgrade_fields row) "Cost" ≠ Some (VAtom ANone))
       DelveUpgrades_dat →
     ∃ results,
       DelveParser_main Id name_lower DelveLevelScaling_dat DelveResourcePerLevel_dat
         DelveUpgrades_dat = Ok results ∧
       out_file <$> results
       = ["delve_level_scaling.lua"; "delve_resources_per_level.lua";
          "delve_upgrades.lua"; "delve_upgrade_stats.lua"]).
Proof.
  intros Hname Hlevels Hresources Hupgrades. unfold DelveParser_main.
  destruct (copy_rows_serialisable _COPY_KEYS_DELVE_LEVEL_SCALING DelveLevelScaling_dat)
    as (levels & -> & _ & Hlevels_ser); [by repeat constructor | done |].
  destruct (copy_rows_serialisable _COPY_KEYS_DELVE_RESOURCES_PER_LEVEL
              DelveResourcePerLevel_dat)
    as (resources & -> & _ & Hresources_ser); [by repeat constructor | done |].
  destruct (upgrade_rows_values Id name_lower DelveUpgrades_dat [] [] Hname Hupgrades)
    as (upgrades & stats & -> & Hfree & Hstats_ser & Hbad & Hgood).
  cbn [mbind result_bind app]. unfold add_results. cbn [mapM fst snd].
  destruct (lua_formatter_serialisable levels Hlevels_ser) as [t1 ->].
  destruct (lua_formatter_serialisable resources Hresources_ser) as [t2 ->].
  cbn [mbind result_bind]. split.
  - intros Hex. pose proof (lua_formatter_outcome upgrades Hfree) as Hout.
    rewrite decide_True in Hout by by apply Hbad. by rewrite Hout.
  - intros Hall.
    destruct (lua_formatter_serialisable upgrades (Hgood Hall)) as [t3 ->].
    destruct (lua_formatter_serialisable stats Hstats_ser) as [t4 ->].
    cbn [mbind result_bind mret result_ret]. eexists. split; [reflexivity|]. reflexivity.
Qed.

(** ** read_quest_rewards *)

Lemma quest_bind_ret {A B} (a : A) (f : A → quest_run B) : (mret a ≫= f) = f a.
Proof.
  unfold mret, quest_run_ret, mbind, quest_run_bind. by destruct (f a).
Qed.

Lemma quest_bind_lift_Ok {A B} (a : A) (f : A → quest_run B) : (lift (Ok a) ≫= f) = f a.
Proof. apply quest_bind_ret. Qed.

Lemma quest_bind_assoc {A B C} (m : quest_run A) (f : A → quest_run B)
    (g : B → quest_run C) :
  ((m ≫= f) ≫= g) = (m ≫= λ a, f a ≫= g).
Proof.
  destruct m as [ws [[a|e|]|name]]; try reflexivity.
  unfold mbind, quest_run_bind.
  destruct (f a) as [ws' [[b|e|]|name]]; try reflexivity.
  destruct (g b) as [ws'' r]. by rewrite app_assoc.
Qed.

Lemma quest_bind_ext {A B} (m : quest_run A) (f g : A → quest_run B) :
  (∀ a, f a = g a) → (m ≫= f) = (m ≫= g).
Proof.
  intros Hfg. destruct m as [ws [[a|e|]|name]]; try reflexivity.
  unfold mbind, quest_run_bind. by rewrite Hfg.
Qed.

Lemma quest_rows_app (t : QuestRewardTables) (rows1 rows2 : list QuestRewardsRow)
    (st : quest_state) :
  quest_rows t (rows1 ++ rows2) st
  = (st' ← quest_rows t rows1 st; quest_rows t rows2 st').
Proof.
  revert st. induction rows1 as [|row rows1 IH]; intros st; cbn [app quest_rows].
  - by rewrite quest_bind_ret.
  - rewrite quest_bind_assoc. apply quest_bind_ext. intros st'. apply IH.
Qed.

Lemma quest_row_passed_over (t : QuestRewardTables) (row : QuestRewardsRow)
    (st : quest_state) :
  passed_over row → quest_row t row st = mret st.
Proof.
  intros [Hitem|Hname]; unfold quest_row.
  - by rewrite Hitem.
  - destruct (BaseItemTypesKey row); [|done]. by rewrite bool_decide_eq_true_2.
Qed.

Lemma quest_rows_passed_over (t : QuestRewardTables) (rows : list QuestRewardsRow)
    (st : quest_state) :
  Forall passed_over rows → quest_rows t rows st = mret st.
Proof.
  induction 1 as [|row rows Hrow _ IH]; cbn [quest_rows]; [done|].
  by rewrite (quest_row_passed_over _ _ _ Hrow), quest_bind_ret.
Qed.

Lemma quest_rows_with_rows (t : QuestRewardTables) (other rows : list QuestRewardsRow)
    (st : quest_state) :
  quest_rows (with_rows t other) rows st = quest_rows t rows st.
Proof.
  revert st. induction rows as [|row rows IH]; intros st; cbn [quest_rows]; [done|].
  apply quest_bind_ext. intros st'. apply IH.
Qed.

(** X29: a row of [QuestRewards.dat] without an item, or whose quest
    has no name, leaves no trace: no record, no warning, and no change
    of the rarity carried to the next rows.  The export is that of the
    table without the row. *)
Theorem X29_passed_over_rows_leave_no_trace (t : QuestRewardTables)
    (pre post : list QuestRewardsRow) (row : QuestRewardsRow) :
  passed_over row →
  QuestRewards_dat t = pre ++ row :: post →
  read_quest_rewards t = read_quest_rewards (with_rows t (pre ++ post)).
Proof.
  intros Hrow Hrows. unfold read_quest_rewards. rewrite Hrows.
  cbn [QuestRewards_dat with_rows]. rewrite quest_rows_with_rows.
  rewrite !quest_rows_app. f_equal. cbn [quest_rows].
  apply quest_bind_ext. intros st.
  by rewrite (quest_row_passed_over _ _ _ Hrow), quest_bind_ret.
Qed.

Lemma not_without_rarity (itemcls : string) :
  itemcls ∉ without_rarity → itemcls ≠ "QuestItem".
Proof.
  intros Hnot ->. apply Hnot. unfold without_rarity. do 2 right. left.
Qed.

(** X26: the local [rarity] of [read_quest_rewards] is assigned only
    by rows whose rarity is not [RARITY.ANY].  When the first row that
    is not passed over has [RARITY.ANY] and an item class that gets a
    rarity, the read of [rarity] raises [UnboundLocalError], before
    any warning. *)
Theorem X26_rarity_unbound (t : QuestRewardTables) (pre post : list QuestRewardsRow)
    (row : QuestRewardsRow) (reward : RewardItem) :
  QuestRewards_dat t = pre ++ row :: post →
  Forall passed_over pre →
  BaseItemTypesKey row = Some reward →
  quest_Name (reward_QuestKey row) ≠ "" →
  RarityKey row = ANY →
  ItemClassesKey_Id reward ∉ without_rarity →
  (ItemClassesKey_Id reward = "Map" → is_Some (get (MapSeries t) "MapWorlds")) →
  read_quest_rewards t = ([], UnboundLocalError "rarity").
Proof.
  intros Hrows Hpre Hitem Hname Hany Hcls Hmap. unfold read_quest_rewards.
  rewrite Hrows, quest_rows_app, (quest_rows_passed_over _ _ _ Hpre), quest_bind_ret.
  cbn [quest_rows].
  assert (quest_row t row ([], None) = ([], UnboundLocalError "rarity")) as ->; [|done].
  unfold quest_row. rewrite Hitem, Hany. rewrite bool_decide_eq_false_2 by done.
  cbn [snd]. rewrite quest_bind_ret.
  rewrite (bool_decide_eq_false_2 (_ = "QuestItem")) by by apply not_without_rarity.
  cbn [andb]. rewrite (bool_decide_eq_true_2 (_ ∉ _)) by done.
  destruct (bool_decide (ItemClassesKey_Id reward = "Map")) eqn:Hm.
  - apply bool_decide_eq_true in Hm. destruct (Hmap Hm) as [world Hworld].
    unfold getitem. rewrite Hworld. by rewrite quest_bind_lift_Ok, quest_bind_ret.
  - by rewrite quest_bind_ret.
Qed.

(** *** Reasoning about runs *)

Lemma quest_bind_warn {B} (w : quest_warning) (f : () → quest_run B) :
  (warn w ≫= f) = ([w] ++ (f ()).1, (f ()).2).
Proof. unfold warn, mbind, quest_run_bind. by destruct (f ()). Qed.

Lemma returns_ret {A} (Q : A → Prop) (a : A) : Q a → quest_returns Q (mret a).
Proof. intros HQ. by exists [], a. Qed.

Lemma returns_bind {A B} (P : A → Prop) (Q : B → Prop) (m : quest_run A)
    (f : A → quest_run B) :
  quest_returns P m → (∀ a, P a → quest_returns Q (f a)) →
  quest_returns Q (m ≫= f).
Proof.
  intros (ws & a & -> & HP) Hf. destruct (Hf a HP) as (ws' & b & Hb & HQ).
  exists (ws ++ ws'), b. split; [|done].
  unfold mbind, quest_run_bind. by rewrite Hb.
Qed.

Lemma returns_lift {A} (Q : A → Prop) (r : result A) (a : A) :
  r = Ok a → Q a → quest_returns Q (lift r).
Proof. intros -> HQ. by exists [], a. Qed.

Lemma returns_warn (Q : () → Prop) (w : quest_warning) :
  Q () → quest_returns Q (warn w).
Proof. intros HQ. by exists [w], (). Qed.

Lemma returns_local {A} (Q : A → Prop) (name : string) (v : option A) (a : A) :
  v = Some a → Q a → quest_returns Q (local name v).
Proof. intros -> HQ. by exists [], a. Qed.

Lemma post_ret {A} (Q : A → Prop) (a : A) : Q a → quest_post Q (mret a).
Proof. intros HQ ws a' [= _ <-]. done. Qed.

Lemma post_bind {A B} (Q : B → Prop) (m : quest_run A) (f : A → quest_run B) :
  quest_post (λ a, quest_post Q (f a)) m → quest_post Q (m ≫= f).
Proof.
  intros Hm ws b Hrun. destruct m as [ws1 [[a|e|]|name]]; try done.
  unfold mbind, quest_run_bind in Hrun.
  destruct (f a) as [ws2 r] eqn:Hfa. injection Hrun as _ ->.
  by apply (Hm ws1 a eq_refl ws2 b).
Qed.

Lemma post_bind_any {A B} (Q : B → Prop) (m : quest_run A) (f : A → quest_run B) :
  (∀ a, quest_post Q (f a)) → quest_post Q (m ≫= f).
Proof. intros Hf. apply post_bind. intros ws a _. apply Hf. Qed.

Lemma post_lift {A} (Q : A → Prop) (r : result A) :
  (∀ a, r = Ok a → Q a) → quest_post Q (lift r).
Proof. intros Hr ws a [= _ ->]. by apply Hr. Qed.

(** X28: the name of a two-stone ring is set last and wins.  When the
    language has a two-stone map that names the item of a row, the
    record the row makes has that name as reward, whatever the item
    class, the unique item map and the quest would have made of it. *)
Theorem X28_two_stone_name_wins (t : QuestRewardTables) (row : QuestRewardsRow)
    (reward : RewardItem) (st st' : quest_state) (ws : list quest_warning)
    (two_stone_map : odict string) (ring : string) :
  BaseItemTypesKey row = Some reward →
  quest_Name (reward_QuestKey row) ≠ "" →
  get _TWO_STONE_MAP (language t) = Some two_stone_map →
  get two_stone_map (item_Id (reward_item reward)) = Some ring →
  get st.1 (quest_key row reward) = None →
  quest_row t row st = (ws, Result (Ok st')) →
  ∃ data,
    get st'.1 (quest_key row reward) = Some data ∧
    get data "reward" = Some (VAtom (AStr ring)).
Proof.
  intros Hitem Hname Hmap Hring Hfresh Hrun. revert ws st' Hrun.
  change (quest_post (λ st', ∃ data,
                        get st'.1 (quest_key row reward) = Some data
                        ∧ get data "reward" = Some (VAtom (AStr ring)))
            (quest_row t row st)).
  unfold quest_row. rewrite Hitem, bool_decide_eq_false_2 by done.
  apply post_bind_any. intros rarity.
  apply post_bind_any. intros name.
  apply post_bind_any. intros [name' data].
  rewrite Hmap, Hring, quest_bind_ret.
  fold (quest_key row reward). rewrite (quest_merge_first _ _ _ _ Hfresh).
  rewrite quest_bind_lift_Ok. apply post_ret. cbn [fst].
  eexists. split; [apply get_setitem_eq|]. apply get_setitem_eq.
Qed.

(** *** The rarity carried from row to row *)

Lemma quest_row_assigns (t : QuestRewardTables) (row : QuestRewardsRow)
    (reward : RewardItem) (name_upper : string) (st : quest_state) :
  BaseItemTypesKey row = Some reward →
  quest_Name (reward_QuestKey row) ≠ "" →
  RarityKey row = Rarity name_upper →
  quest_post (λ st', ∃ text,
                get (ClientStrings t) ("ItemDisplayString" +:+ name_upper) = Some text
                ∧ st'.2 = Some text)
    (quest_row t row st).
Proof.
  intros Hitem Hname Hrarity. unfold quest_row.
  rewrite Hitem, bool_decide_eq_false_2, Hrarity by done.
  unfold rarity_text, getitem.
  destruct (get (ClientStrings t) _) as [text|] eqn:Htext; [|by intros ws a].
  rewrite quest_bind_lift_Ok, quest_bind_ret.
  apply post_bind_any. intros name.
  apply post_bind_any. intros [name' data].
  apply post_bind_any. intros name''.
  apply post_bind_any. intros compress.
  apply post_ret. by exists text.
Qed.

Lemma quest_row_carries (t : QuestRewardTables) (row : QuestRewardsRow)
    (reward : RewardItem) (compress : odict record) (stale : string) :
  BaseItemTypesKey row = Some reward →
  quest_Name (reward_QuestKey row) ≠ "" →
  RarityKey row = ANY →
  ItemClassesKey_Id reward ∉ without_rarity →
  (ItemClassesKey_Id reward = "Map" → is_Some (get (MapSeries t) "MapWorlds")) →
  (∀ item_map, get _ITEM_MAP (language t) = Some item_map →
     int_get item_map (Key0 row) = None) →
  get compress (quest_key row reward) = None →
  quest_returns (λ st', ∃ data,
                   st' = (setitem compress (quest_key row reward) data, Some stale)
                   ∧ get data "rarity" = Some (VAtom (AStr stale)))
    (quest_row t row (compress, Some stale)).
Proof.
  intros Hitem Hname Hany Hcls Hmap Hunique Hfresh. unfold quest_row.
  rewrite Hitem, bool_decide_eq_false_2, Hany by done.
  cbn [fst snd]. rewrite quest_bind_ret.
  rewrite (bool_decide_eq_false_2 (_ = "QuestItem")) by by apply not_without_rarity.
  cbn [andb]. rewrite (bool_decide_eq_true_2 (_ ∉ _)) by done.
  apply (returns_bind (λ _, True)).
  { destruct (bool_decide (ItemClassesKey_Id reward = "Map")) eqn:Hm.
    - apply bool_decide_eq_true in Hm. destruct (Hmap Hm) as [world Hworld].
      unfold getitem. rewrite Hworld, quest_bind_lift_Ok. by apply returns_ret.
    - by apply returns_ret. }
  intros name _. cbn [local]. rewrite quest_bind_ret.
  apply (returns_bind (λ nd : string * record,
                         get nd.2 "rarity" = Some (VAtom (AStr stale)))).
  { destruct (get _ITEM_MAP (language t)) as [item_map|] eqn:Hitem_map.
    - rewrite (Hunique item_map eq_refl).
      apply (returns_bind (λ _, True)); [by apply returns_warn|].
      intros _ _. apply returns_ret. apply get_setitem_eq.
    - apply (returns_bind (λ _, True)); [by apply returns_warn|].
      intros _ _. apply returns_ret. apply get_setitem_eq. }
  intros [name' data] Hdata. cbn [snd] in Hdata.
  apply (returns_bind (λ _, True)).
  { destruct (get _TWO_STONE_MAP (language t)) as [two_stone_map|].
    - destruct (get two_stone_map _); by apply returns_ret.
    - apply (returns_bind (λ _, True)); [by apply returns_warn|].
      intros _ _. by apply returns_ret. }
  intros name'' _. fold (quest_key row reward).
  rewrite (quest_merge_first _ _ _ _ Hfresh), quest_bind_lift_Ok.
  apply returns_ret. eexists. split; [reflexivity|].
  by rewrite get_setitem_ne.
Qed.

(** X27: a reward takes the rarity of another row.  The local
    [rarity] keeps its value from one row to the next, so a row with
    [RARITY.ANY], whose item class gets a rarity and which the unique
    item map does not name, gets the rarity text of the row before it:
    here a row that is not passed over and has a rarity of its own. *)
Theorem X27_rarity_carried_over (t : QuestRewardTables) (r1 r2 : QuestRewardsRow)
    (reward1 reward2 : RewardItem) (name_upper : string) (st st1 : quest_state)
    (ws1 : list quest_warning) :
  BaseItemTypesKey r1 = Some reward1 →
  quest_Name (reward_QuestKey r1) ≠ "" →
  RarityKey r1 = Rarity name_upper →
  quest_row t r1 st = (ws1, Result (Ok st1)) →
  BaseItemTypesKey r2 = Some reward2 →
  quest_Name (reward_QuestKey r2) ≠ "" →
  RarityKey r2 = ANY →
  ItemClassesKey_Id reward2 ∉ without_rarity →
  (ItemClassesKey_Id reward2 = "Map" → is_Some (get (MapSeries t) "MapWorlds")) →
  (∀ item_map, get _ITEM_MAP (language t) = Some item_map →
     int_get item_map (Key0 r2) = None) →
  get st1.1 (quest_key r2 reward2) = None →
  ∃ text ws data,
    get (ClientStrings t) ("ItemDisplayString" +:+ name_upper) = Some text ∧
    quest_rows t [r1; r2] st
    = (ws, Result (Ok (setitem st1.1 (quest_key r2 reward2) data, Some text))) ∧
    get data "rarity" = Some (VAtom (AStr text)).
Proof.
  intros Hitem1 Hname1 Hrarity1 Hrun1 Hitem2 Hname2 Hany Hcls Hmap Hunique Hfresh.
  destruct (quest_row_assigns t r1 reward1 name_upper st Hitem1 Hname1 Hrarity1
              ws1 st1 Hrun1) as (text & Htext & Hst1).
  destruct st1 as [compress1 rarity1]. cbn [fst snd] in *. subst rarity1.
  destruct (quest_row_carries t r2 reward2 compress1 text Hitem2 Hname2 Hany Hcls
              Hmap Hunique Hfresh) as (ws2 & st2 & Hrun2 & data & -> & Hdata).
  exists text, (ws1 ++ ws2 ++ []), data. split_and!; [done | | done].
  cbn [quest_rows]. rewrite Hrun1. unfold mbind at 1, quest_run_bind.
  rewrite Hrun2. unfold mbind, quest_run_bind. reflexivity.
Qed.

(** *** When read_quest_rewards returns *)

Lemma quest_data_setitem (data : record) (k : string) (v : value) :
  k ∉ ["act"; "quest_id"; "classes"] → text_or_int v →
  quest_data data → quest_data (setitem data k v).
Proof.
  intros Hk Hv (Hvals & Hact & Hquest & Hclasses).
  rewrite !not_elem_of_cons in Hk. destruct Hk as (? & ? & ? & _).
  split_and!; [by apply Forall_setitem | by rewrite get_setitem_ne..].
Qed.

Lemma quest_data_reward (data : record) (name : string) :
  quest_data data → group_with_classes (setitem data "reward" (VAtom (AStr name))).
Proof.
  intros (Hvals & Hact & Hquest & Hclasses). split; [split|].
  - split_and!; [by rewrite get_setitem_ne.. |]. exists name. apply get_setitem_eq.
  - by apply Forall_setitem.
  - by rewrite get_setitem_ne.
Qed.

Lemma quest_merge_returns (compress : odict record) (key : string) (data : record)
    (c : Character) :
  Forall (λ kv, group_with_classes kv.2) compress →
  group_with_classes data →
  ∃ compress', quest_merge compress key data (Some c) = Ok compress'
               ∧ Forall (λ kv, group_with_classes kv.2) compress'.
Proof.
  intros Hall Hdata. destruct (get compress key) as [rep|] eqn:Hrep.
  - assert (group_with_classes rep) as [Hexp [old Hold]].
    { rewrite Forall_forall in Hall. apply (Hall (key, rep)). by apply get_Some_elem_of. }
    rewrite (quest_merge_append _ _ _ _ _ _ Hrep Hold). eexists. split; [done|].
    apply Forall_setitem; [done|]. by apply exportable_setitem_classes.
  - rewrite (quest_merge_first _ _ _ _ Hrep). eexists. split; [done|].
    by apply Forall_setitem.
Qed.

Lemma quest_row_returns (t : QuestRewardTables) (row : QuestRewardsRow)
    (reward : RewardItem) (c : Character) (st : quest_state) :
  BaseItemTypesKey row = Some reward →
  quest_Name (reward_QuestKey row) ≠ "" →
  CharactersKey row = Some c →
  (∀ name_upper, RarityKey row = Rarity name_upper →
     is_Some (get (ClientStrings t) ("ItemDisplayString" +:+ name_upper))) →
  is_Some (get (ClientStrings t) "ItemDisplayStringUnique") →
  is_Some (get (MapSeries t) "MapWorlds") →
  (RarityKey row = ANY → ItemClassesKey_Id reward ∉ without_rarity → is_Some st.2) →
  Forall (λ kv, group_with_classes kv.2) st.1 →
  quest_returns (λ st', Forall (λ kv, group_with_classes kv.2) st'.1
                        ∧ match RarityKey row with
                          | ANY => st'.2 = st.2
                          | Rarity _ => is_Some st'.2
                          end)
    (quest_row t row st).
Proof.
  intros Hitem Hname Hchar Hstrings [unique Hunique] [world Hworld] Hbound Hall.
  unfold quest_row. rewrite Hitem, bool_decide_eq_false_2, Hchar by done.
  match goal with
  | |- context [setitem (setitem (setitem (setitem [] "quest" ?q) "quest_id" ?i)
                           "act" ?a) "classes" ?cl] =>
      set (data := setitem (setitem (setitem (setitem [] "quest" q) "quest_id" i)
                              "act" a) "classes" cl)
  end.
  assert (quest_data data) as Hdata.
  { split_and!; [repeat constructor | by eexists..]. }
  clearbody data.
  apply (returns_bind (λ rarity, match RarityKey row with
                                 | ANY => rarity = st.2
                                 | Rarity _ => is_Some rarity
                                 end)).
  { destruct (RarityKey row) as [|name_upper]; [by apply returns_ret|].
    destruct (Hstrings name_upper eq_refl) as [text Htext].
    unfold rarity_text, getitem. rewrite Htext, quest_bind_lift_Ok.
    by apply returns_ret. }
  intros rarity Hrarity.
  set (data' := if bool_decide (SocketGems row ≠ "") then _ else _).
  assert (quest_data data') as Hdata'.
  { unfold data'. destruct (bool_decide _); [|done].
    apply quest_data_setitem; [|done..].
    rewrite !not_elem_of_cons. split_and!; try done. apply not_elem_of_nil. }
  clearbody data'. clear data Hdata.
  apply (returns_bind (λ _, True)).
  { destruct (_ && _); [by apply returns_ret|].
    destruct (bool_decide _); [|by apply returns_ret].
    unfold getitem. rewrite Hworld, quest_bind_lift_Ok. by apply returns_ret. }
  intros name _.
  apply (returns_bind (λ nd : string * record, quest_data nd.2)).
  { destruct (bool_decide (ItemClassesKey_Id reward ∉ without_rarity)) eqn:Hcls;
      [|by apply returns_ret].
    apply bool_decide_eq_true in Hcls.
    assert (is_Some rarity) as [text ->].
    { destruct (RarityKey row); [|done]. subst rarity. by apply Hbound. }
    cbn [local]. rewrite quest_bind_ret.
    set (data'' := setitem (setitem data' "item_level" _) "rarity" _).
    assert (quest_data data'') as Hdata''.
    { unfold data''. apply quest_data_setitem; [|done|].
      { rewrite !not_elem_of_cons. split_and!; try done. apply not_elem_of_nil. }
      apply quest_data_setitem; [|done..].
      rewrite !not_elem_of_cons. split_and!; try done. apply not_elem_of_nil. }
    clearbody data''.
    destruct (RarityKey row); [|by apply returns_ret].
    destruct (get _ITEM_MAP (language t)) as [item_map|].
    - destruct (int_get item_map (Key0 row)) as [unique_name|].
      + unfold getitem. rewrite Hunique, quest_bind_lift_Ok. apply returns_ret.
        cbn [snd]. apply quest_data_setitem; [|done..].
        rewrite !not_elem_of_cons. split_and!; try done. apply not_elem_of_nil.
      + apply (returns_bind (λ _, True)); [by apply returns_warn|].
        intros _ _. by apply returns_ret.
    - apply (returns_bind (λ _, True)); [by apply returns_warn|].
      intros _ _. by apply returns_ret. }
  intros [name' data''] Hdata''. cbn [snd] in Hdata''.
  apply (returns_bind (λ _, True)).
  { destruct (get _TWO_STONE_MAP (language t)) as [two_stone_map|].
    - destruct (get two_stone_map _); by apply returns_ret.
    - apply (returns_bind (λ _, True)); [by apply returns_warn|].
      intros _ _. by apply returns_ret. }
  intros name'' _.
  destruct (quest_merge_returns st.1
              (quest_Id (reward_QuestKey row) +:+ item_Id (reward_item reward)
                 +:+ str_of_int (Key0 row))
              (setitem data'' "reward" (VAtom (AStr name''))) c Hall)
    as (compress' & -> & Hall'); [by apply quest_data_reward|].
  rewrite quest_bind_lift_Ok. apply returns_ret. by split.
Qed.

Lemma quest_rows_returns (t : QuestRewardTables) (rows : list QuestRewardsRow)
    (assigned : bool) (st : quest_state) :
  (∀ row name_upper, row ∈ rows → RarityKey row = Rarity name_upper →
     is_Some (get (ClientStrings t) ("ItemDisplayString" +:+ name_upper))) →
  is_Some (get (ClientStrings t) "ItemDisplayStringUnique") →
  is_Some (get (MapSeries t) "MapWorlds") →
  (∀ row, row ∈ rows → ¬ passed_over row → is_Some (CharactersKey row)) →
  rarity_assigned assigned rows = true →
  (assigned = true → is_Some st.2) →
  Forall (λ kv, group_with_classes kv.2) st.1 →
  quest_returns (λ st', Forall (λ kv, group_with_classes kv.2) st'.1)
    (quest_rows t rows st).
Proof.
  intros Hstrings Hunique Hworld. revert assigned st.
  induction rows as [|row rows IH]; intros assigned st Hchar Hassigned Hst Hall;
    cbn [quest_rows].
  - by apply returns_ret.
  - assert (∀ assigned' st',
              rarity_assigned assigned' rows = true →
              (assigned' = true → is_Some st'.2) →
              Forall (λ kv, group_with_classes kv.2) st'.1 →
              quest_returns (λ st', Forall (λ kv, group_with_classes kv.2) st'.1)
                (quest_rows t rows st')) as IH'.
    { intros assigned' st'. apply IH.
      - intros r n Hr. apply Hstrings. by right.
      - intros r Hr. apply Hchar. by right. }
    cbn [rarity_assigned] in Hassigned.
    destruct (BaseItemTypesKey row) as [reward|] eqn:Hitem; cycle 1.
    { rewrite (quest_row_passed_over t row st) by by left.
      rewrite quest_bind_ret. by apply (IH' assigned). }
    destruct (bool_decide (quest_Name (reward_QuestKey row) = "")) eqn:Hname.
    { apply bool_decide_eq_true in Hname.
      rewrite (quest_row_passed_over t row st) by by right.
      rewrite quest_bind_ret. by apply (IH' assigned). }
    apply bool_decide_eq_false in Hname.
    destruct (Hchar row) as [c Hc]; [left | by intros [?|?]; congruence |].
    eapply returns_bind.
    + apply (quest_row_returns t row reward c st Hitem Hname Hc); [|done..| |done].
      * intros n. apply Hstrings. left.
      * intros Hany Hcls. rewrite Hany in Hassigned.
        apply andb_prop in Hassigned as [Hor _].
        apply orb_prop in Hor as [Has|Hin]; [by apply Hst|].
        by apply bool_decide_eq_true in Hin.
    + cbn beta. intros st' [Hall' Hrarity].
      destruct (RarityKey row) eqn:Hr.
      * apply andb_prop in Hassigned as [_ Hrest].
        apply (IH' assigned); [done | by rewrite Hrarity | done].
      * by apply (IH' true).
Qed.

(** X30: [read_quest_rewards] returns its result when the loop finds
    what it reads: the client strings of the rarities of the rows and
    of unique items, the map series of the map names, a class on every
    row that is not passed over, and a value in its local [rarity]
    wherever that is read. *)
Theorem X30_read_quest_rewards_returns (t : QuestRewardTables) :
  (∀ row name_upper, row ∈ QuestRewards_dat t → RarityKey row = Rarity name_upper →
     is_Some (get (ClientStrings t) ("ItemDisplayString" +:+ name_upper))) →
  is_Some (get (ClientStrings t) "ItemDisplayStringUnique") →
  is_Some (get (MapSeries t) "MapWorlds") →
  (∀ row, row ∈ QuestRewards_dat t → ¬ passed_over row → is_Some (CharactersKey row)) →
  rarity_assigned false (QuestRewards_dat t) = true →
  ∃ ws r, read_quest_rewards t = (ws, Result (Ok r)).
Proof.
  intros Hstrings Hunique Hworld Hchar Hassigned. unfold read_quest_rewards.
  destruct (quest_rows_returns t (QuestRewards_dat t) false ([], None)
              Hstrings Hunique Hworld Hchar Hassigned)
    as (ws & [compress rarity] & -> & Hall); [done | by cbn |].
  cbn [fst] in *.
  assert (returns (_write_lua compress.*2 "quest")) as [r Hr].
  { unfold _write_lua.
    assert (Forall exportable compress.*2) as Hexp.
    { apply Forall_fmap. eapply Forall_impl; [exact Hall|]. by intros kv [? _]. }
    rewrite pre_sort_by_triple; cycle 1.
    { eapply Forall_impl; [exact Hexp|]. by intros r [? _]. }
    cbn [mbind result_bind].
    destruct (lua_formatter_exportable (stable_sort by_triple compress.*2))
      as [text ->].
    { by rewrite stable_sort_perm. }
    by eexists. }
  exists (ws ++ []), r. unfold mbind, quest_run_bind, lift. cbn [fst].
  by rewrite Hr.
Qed.

(** ** The main methods on sample tables *)

(** A field of a concrete row can be read. *)
Ltac sample_readable :=
  repeat (apply Forall_cons; split;
          [eexists; split;
           [reflexivity
           | first [intros Hcopied; discriminate Hcopied
                   | intros _; eexists; reflexivity]] |]);
  apply Forall_nil_2.

Lemma X20_witness_life_scaling :
  ∃ data' map_multi,
    enumerated sample_monster_rr [] = Ok data' ∧
    get data' "monster_life_scaling" = Some map_multi ∧
    map_multi !! 0%nat
    = Some [("level", VAtom (AInt 1)); ("magic", VAtom (AInt 100));
            ("rare", VAtom (AInt 200))].
Proof.
  destruct (X20_enum_data_side_by_side sample_monster_rr []) as (data' & Hrun & Hspec).
  - intros key data_map file keys Hkey Hfile. unfold _ENUM_DATA in Hkey.
    repeat (apply elem_of_cons in Hkey as [Hkey|Hkey];
            [injection Hkey as -> ->;
             repeat (apply elem_of_cons in Hfile as [Hfile|Hfile];
                     [injection Hfile as -> ->;
                      apply Forall_cons; split; [sample_readable | apply Forall_nil_2] |]);
             by apply elem_of_nil in Hfile |]).
    by apply elem_of_nil in Hkey.
  - destruct (Hspec "monster_life_scaling" _ _ _ _ eq_refl)
      as (map_multi & Hget & _ & Hrecs).
    destruct (Hrecs 0%nat _ _ eq_refl eq_refl) as (c1 & c2 & Hc1 & Hc2 & Hlookup).
    injection Hc1 as <-. injection Hc2 as <-.
    exists data', map_multi. split_and!; [exact Hrun | exact Hget | exact Hlookup].
Defined.

Lemma X21_witness_component_twice :
  ∃ recipes temp,
    for_each (recipe_row sample_Id) [sample_recipe] ([], []) = Ok (recipes, temp) ∧
    recipe_component "Recipe1" "Component_1" 2 ∈ recipe_components temp.
Proof.
  destruct (X21_recipe_components_count sample_Id [sample_recipe]
              [("Recipe1", ["Component_1"; "Component_2"; "Component_1"])])
    as (recipes & temp & Hrun & _ & _ & Hcount).
  - apply Forall_cons. split; [sample_readable | apply Forall_nil_2].
  - apply Forall2_cons. split; [|apply Forall2_nil_2].
    split; [reflexivity|]. by eexists _, _.
  - exists recipes, temp. split; [exact Hrun|]. apply Hcount. by split.
Defined.

Lemma X22_witness_rare_component :
  ∃ recs,
    for_each (component_row sample_strings sample_Id sample_Id) [sample_component] []
    = Ok ([] ++ recs) ∧ length recs = 1%nat.
Proof.
  destruct (X22_component_rarity sample_strings sample_Id sample_Id
              [sample_component] []) as [Hok _].
  - apply Forall_cons. split; [sample_readable | apply Forall_nil_2].
  - destruct Hok as (recs & Hrun & Hrecs).
    + intros row name_upper Hrow Hrarity.
      apply elem_of_cons in Hrow as [->|Hrow]; [|by apply elem_of_nil in Hrow].
      injection Hrarity as <-. by eexists.
    + exists recs. split; [exact Hrun|]. symmetry. apply (Forall2_length _ _ _ Hrecs).
Defined.

Lemma sample_upgrade_readable (cost : value) :
  Forall (readable (upgrade_fields (sample_upgrade cost)))
    (_COPY_KEYS_DELVE_UPGRADES sample_name_lower).
Proof. sample_readable. Qed.

Lemma X23_witness_one_upgrade :
  ∃ recs groups,
    for_each (upgrade_row sample_Id sample_name_lower)
      [sample_upgrade (VAtom (AInt 100))] ([], [])
    = Ok ([] ++ recs, [] ++ concat groups) ∧ length recs = 1%nat.
Proof.
  destruct (X23_delve_upgrades sample_Id sample_name_lower
              [sample_upgrade (VAtom (AInt 100))] [] [])
    as (recs & groups & Hrun & Hrecs & _).
  - apply Forall_cons. split; [apply sample_upgrade_readable | apply Forall_nil_2].
  - apply Forall_cons. split; [by eexists | apply Forall_nil_2].
  - apply Forall_cons. split; [|apply Forall_nil_2].
    apply Forall_cons. split; [by eexists | apply Forall_nil_2].
  - exists recs, groups. split; [exact Hrun|].
    symmetry. apply (Forall2_length _ _ _ Hrecs).
Defined.

Lemma X24_witness_resources :
  ∃ recs text,
    copy_rows _COPY_KEYS_DELVE_RESOURCES_PER_LEVEL sample_resources [] = Ok recs ∧
    lua_formatter recs = Ok text.
Proof.
  destruct (X24_projection_serialises _COPY_KEYS_DELVE_RESOURCES_PER_LEVEL
              sample_resources) as (recs & text & Hrun & _ & _ & Htext).
  - by repeat constructor.
  - apply Forall_cons. split; [|apply Forall_nil_2]. split.
    + by repeat constructor.
    + repeat (apply Forall_cons; split; [by eexists|]). apply Forall_nil_2.
  - by exists recs, text.
Defined.

Lemma sample_name_lower_text (v v' : value) :
  sample_name_lower v = Ok v' → ∃ s, v' = VAtom (AStr s).
Proof. destruct v as [[]|]; intros [= <-]. by eexists. Qed.

Lemma X25_witness_upgrade_without_cost :
  DelveParser_main sample_Id sample_name_lower [] sample_resources
    [sample_upgrade (VAtom ANone)]
  = Raise AttributeError.
Proof.
  apply (X25_delve_cost_not_filtered sample_Id sample_name_lower [] sample_resources
           [sample_upgrade (VAtom ANone)]).
  - apply sample_name_lower_text.
  - apply Forall_nil_2.
  - apply Forall_cons. split; [|apply Forall_nil_2]. split.
    + by repeat constructor.
    + repeat (apply Forall_cons; split; [by eexists|]). apply Forall_nil_2.
  - apply Forall_cons. split; [|apply Forall_nil_2]. split_and!.
    + apply sample_upgrade_readable.
    + by intros v [= <-].
    + by eexists.
    + apply Forall_cons. split; [|apply Forall_nil_2]. split; [by eexists|by split].
  - left. reflexivity.
Defined.

Lemma X26_witness_first_row_any :
  read_quest_rewards (sample_tables [sample_no_item; sample_ring ANY "Ring1" 0])
  = ([], UnboundLocalError "rarity").
Proof.
  apply (X26_rarity_unbound _ [sample_no_item] [] (sample_ring ANY "Ring1" 0)
           {| reward_item := {| item_Id := "Ring1"; item_Name := "Ring" |};
              ItemClassesKey_Id := "Ring" |}).
  - reflexivity.
  - apply Forall_cons. split; [by left | apply Forall_nil_2].
  - reflexivity.
  - discriminate.
  - reflexivity.
  - cbn. unfold without_rarity. rewrite !not_elem_of_cons.
    split_and!; try discriminate. apply not_elem_of_nil.
  - discriminate.
Defined.

Lemma X27_witness_magic_then_any :
  ∃ ws data compress,
    quest_rows (sample_tables []) [sample_ring (Rarity "Magic") "Ring1" 0;
                                   sample_ring ANY "Ring2" 0] ([], None)
    = (ws, Result (Ok (compress, Some "Magic"))) ∧
    get compress "a1q1Ring20" = Some data ∧
    get data "rarity" = Some (VAtom (AStr "Magic")).
Proof.
  destruct (X27_rarity_carried_over (sample_tables [])
              (sample_ring (Rarity "Magic") "Ring1" 0) (sample_ring ANY "Ring2" 0)
              _ _ "Magic" ([], None) _ _ eq_refl ltac:(discriminate) eq_refl eq_refl
              eq_refl ltac:(discriminate) eq_refl)
    as (text & ws & data & Htext & Hrun & Hdata).
  - cbn. unfold without_rarity. rewrite !not_elem_of_cons.
    split_and!; try discriminate. apply not_elem_of_nil.
  - discriminate.
  - intros item_map [= <-]. reflexivity.
  - reflexivity.
  - injection Htext as <-. exists ws, data. eexists. split_and!; [exact Hrun | | exact Hdata].
    apply get_setitem_eq.
Defined.

Lemma X28_witness_ruby_and_topaz :
  ∃ ws st' data,
    quest_row (sample_tables [])
      (sample_ring (Rarity "Magic") "Metadata/Items/Rings/Ring12" 0) ([], None)
    = (ws, Result (Ok st')) ∧
    get st'.1 "a1q1Metadata/Items/Rings/Ring120" = Some data ∧
    get data "reward" = Some (VAtom (AStr "Two-Stone Ring (ruby and topaz)")).
Proof.
  eexists _, _.
  destruct (X28_two_stone_name_wins (sample_tables [])
              (sample_ring (Rarity "Magic") "Metadata/Items/Rings/Ring12" 0)
              _ ([], None) _ _ _ "Two-Stone Ring (ruby and topaz)"
              eq_refl ltac:(discriminate) eq_refl eq_refl eq_refl eq_refl)
    as (data & Hget & Hreward).
  exists data. split_and!; [reflexivity | exact Hget | exact Hreward].
Defined.

Lemma X29_witness_row_without_item :
  read_quest_rewards (sample_tables [sample_no_item; sample_ring (Rarity "Magic") "Ring1" 0])
  = read_quest_rewards
      (with_rows (sample_tables [sample_no_item; sample_ring (Rarity "Magic") "Ring1" 0])
         ([] ++ [sample_ring (Rarity "Magic") "Ring1" 0])).
Proof.
  apply (X29_passed_over_rows_leave_no_trace _ [] _ sample_no_item).
  - by left.
  - reflexivity.
Defined.

Lemma X30_witness_two_rings :
  ∃ ws r,
    read_quest_rewards (sample_tables [sample_ring (Rarity "Magic") "Ring1" 0;
                                       sample_ring ANY "Ring2" 0])
    = (ws, Result (Ok r)).
Proof.
  apply X30_read_quest_rewards_returns.
  - intros row name_upper Hrow Hrarity. cbn [QuestRewards_dat sample_tables] in Hrow.
    apply elem_of_cons in Hrow as [->|Hrow].
    + injection Hrarity as <-. by eexists.
    + apply elem_of_cons in Hrow as [->|Hrow]; [discriminate|].
      by apply elem_of_nil in Hrow.
  - by eexists.
  - by eexists.
  - intros row Hrow _. cbn [QuestRewards_dat sample_tables] in Hrow.
    repeat (apply elem_of_cons in Hrow as [->|Hrow]; [by eexists|]).
    by apply elem_of_nil in Hrow.
  - reflexivity.
Defined.
